(** * Content similarity engine of the movie recommender

    A shallow embedding of [backend/recommender.py] (class
    [MovieRecommender]), of the tables and methods of
    [backend/database.py] and of the handlers of [backend/app.py]
    that bring the two together, with the properties of their
    operations.

    Modelling conventions.
    - Python [int] is [Z]; Python [float] is an exact rational [Q]
      (no rounding error, no NaN unless a column is optional);
      [round(x, 2)] is rounding half to even at two decimals.
    - A DataFrame is the list of its rows in frame order; a missing
      cell (NaN) of a column that can have one is [None].
    - [cosine_sim] is the precomputed matrix; how scikit-learn obtains
      it from the soups is not part of the model.
    - [sorted], [list.sort] and [nlargest] are modelled by one stable
      sort: equal keys keep their input order. For [sorted] and
      [list.sort] this is Python's guarantee; for [nlargest] it is
      the documented order ([keep='first']). [sort_values] sorts with
      numpy's quicksort, which is not stable: where it leaves equal
      cells is a parameter of the model.
    - A string is the sequence of its characters, one [ascii] each
      (code points below 256). The regular-expression search of
      [str.contains] is written out for ASCII patterns of ordinary
      characters and dots on ASCII strings, where case folding is
      the ASCII one; on every other pattern or string it is the
      library's, a parameter of the model.
    - A label of [indices] that occurs once is looked up to a
      position; a label that occurs several times is looked up to a
      sub-Series, on which [get_recommendations] answers [None] and
      the similarity lookup of [hybrid_recommendations] raises (this
      is what numpy does on the square matrix of an engine with at
      least two rows).
    - [json.loads], [int], [float] of an [int], [pd.to_numeric],
      SHA-256 and the poster lookup are taken as given functions; the
      clock, the salt and the random draw are arguments.
    - A table of the database is the list of its rows in insertion
      order, with the columns the methods use; the database is
      SQLite, which holds integers of 64 bits.

    The file has three parts: the program (the pure functions, the
    same methods as procedures on a heap of objects, the metadata
    parsers, the user database and the routes), the vocabulary and
    the example data the properties are stated with, and the
    properties. *)

From Stdlib Require Import ZArith QArith Qround Qminmax Lia Lqa Ascii String.
From stdpp Require Import base list sorting strings gmap.

(** ** Python sequences *)

Module Py.

(** Outcome of a call that may propagate an exception to its caller. *)
Inductive result (A : Type) : Type :=
  | Returned (a : A)
  | Raised.
Arguments Returned {A} a.
Arguments Raised {A}.

(** Clamp a slice bound the way [slice.indices] does for step 1. *)
Definition slice_bound (len : nat) (i : Z) : nat :=
  if (i <? 0)%Z then Z.to_nat (Z.max 0 (i + Z.of_nat len))
  else Z.to_nat (Z.min i (Z.of_nat len)).

(** [l[start:stop]] *)
Definition slice {A} (l : list A) (start stop : Z) : list A :=
  let s := slice_bound (length l) start in
  let e := slice_bound (length l) stop in
  take (e - s) (drop s l).

(** [list(enumerate(l))] *)
Definition enumerate {A} (l : list A) : list (nat * A) :=
  zip (seq 0 (length l)) l.

Section Sorting.
Context {A K : Type}.
(** [ltb a b] is the key comparison [a < b], the only one a Python
    sort performs. *)
Variable ltb : K → K → bool.
Variable key : A → K.

(** [precedes reverse y x]: [y] has to come strictly before [x]. *)
Definition precedes (reverse : bool) (y x : A) : bool :=
  if reverse then ltb (key x) (key y) else ltb (key y) (key x).

Fixpoint insert_stable (reverse : bool) (x : A) (l : list A) : list A :=
  match l with
  | [] => [x]
  | y :: l' =>
      if precedes reverse y x then y :: insert_stable reverse x l'
      else x :: y :: l'
  end.

(** [sorted(l, key=key, reverse=reverse)]: stable in both directions. *)
Definition sorted (reverse : bool) (l : list A) : list A :=
  foldr (insert_stable reverse) [] l.

(** [x] is ranked before [y]: its key wins, or neither key wins and
    [x] was first in the input. This is what a stable sort promises. *)
Definition ranked_before (first : relation A) (reverse : bool) (x y : A)
  : Prop :=
  precedes reverse x y = true ∨ (precedes reverse y x = false ∧ first x y).
End Sorting.

End Py.

Import Py.

(** ** Rational arithmetic standing for floats *)

Definition Qltb (a b : Q) : bool := negb (Qle_bool b a).

(** Round half to even to the nearest integer. *)
Definition round_half_even (q : Q) : Z :=
  let f := Qfloor q in
  match ((q - inject_Z f) ?= (1 # 2))%Q with
  | Lt => f
  | Gt => (f + 1)%Z
  | Eq => if Z.even f then f else (f + 1)%Z
  end.

(** [round(q, 2)]; the result always has denominator 100. *)
Definition round2 (q : Q) : Q := (round_half_even (q * 100) # 100)%Q.

(** [max(0, b)] *)
Definition max0 (b : Q) : Q := if Qltb 0 b then b else 0%Q.

(** ** Data model *)

(** One row of [movies_df], restricted to the columns the query
    operations read. [release_date] and [runtime] can be NaN; the
    text columns have the dtype [object], as in a frame read from
    the TMDB files. *)
Record Movie : Type := mkMovie {
  movie_id : Z;
  title : string;
  overview : string;
  genres : string;
  genres_display : string;
  vote_average : Q;
  vote_count : Z;
  popularity : Q;
  release_date : option string;
  revenue : Z;
  runtime : option Q
}.

(** The dict built for each recommendation; [hybrid_score] is the key
    that only [hybrid_recommendations] adds. *)
Record Rec : Type := mkRec {
  rec_id : Z;
  rec_title : string;
  rec_overview : string;
  rec_genres : string;
  rec_vote_average : Q;
  rec_popularity : Q;
  rec_release_date : string;
  similarity_score : Q;
  hybrid_score : option Q
}.

(** The dict built by [_format_single]. *)
Record Card : Type := mkCard {
  card_id : Z;
  card_title : string;
  card_overview : string;
  card_genres : string;
  card_vote_average : Q;
  card_vote_count : Z;
  card_popularity : Q;
  card_release_date : string;
  card_runtime : option Z
}.

(** The attributes of a loaded [MovieRecommender]. [indices] is the
    Series of row positions labelled by movie id, as (label, value)
    pairs in index order. *)
Record Engine : Type := mkEngine {
  movies_df : list Movie;
  cosine_sim : list (list Q);
  indices : list (Z * nat)
}.

(** The index built at the end of [_build_model]: row positions
    labelled by the [id] column. The positions are pairwise distinct,
    so [drop_duplicates] removes nothing. *)
Definition build_indices (df : list Movie) : list (Z * nat) :=
  zip (movie_id <$> df) (seq 0 (length df)).

(** [_build_model], given the similarity matrix scikit-learn computes. *)
Definition _build_model (df : list Movie) (sim : list (list Q)) : Engine :=
  {| movies_df := df; cosine_sim := sim; indices := build_indices df |}.

(** The matrix has one row and one column per movie. *)
Definition square (n : nat) (sim : list (list Q)) : Prop :=
  length sim = n ∧ Forall (λ row, length row = n) sim.

(** ** Label lookup in [indices] *)

(** [self.indices[label]]: no match raises [KeyError], one match gives
    the position, several matches give a sub-Series. *)
Inductive series_lookup : Type :=
  | KeyError
  | Scalar (pos : nat)
  | SubSeries (poss : list nat).

Definition indices_getitem (ix : list (Z * nat)) (label : Z) : series_lookup :=
  match filter (λ p, p.1 = label) ix with
  | [] => KeyError
  | [p] => Scalar p.2
  | ps => SubSeries ps.*2
  end.

(** [label in self.indices.index] *)
Definition in_index (ix : list (Z * nat)) (label : Z) : bool :=
  bool_decide (label ∈ ix.*1).

(** ** Content recommendations *)

(** [str(x)] of a string cell that may be NaN. *)
Definition str_cell (c : option string) : string :=
  match c with Some s => s | None => "nan" end.

(** [s[:n] + '...' if len(s) > n else s] *)
Definition ellipsis (n : nat) (s : string) : string :=
  if (n <? String.length s)%nat then (String.substring 0 n s +:+ "...")%string else s.

Definition recommendation (movie : Movie) (score : Q) : Rec :=
  {| rec_id := movie_id movie;
     rec_title := title movie;
     rec_overview := ellipsis 200 (overview movie);
     rec_genres := genres_display movie;
     rec_vote_average := vote_average movie;
     rec_popularity := popularity movie;
     rec_release_date := str_cell (release_date movie);
     similarity_score := round2 (score * 100);
     hybrid_score := None |}.

(** The ranked (row position, similarity) pairs:
    [sorted(enumerate(row), key=x[1], reverse=True)[1:top_n+1]]. *)
Definition ranked (row : list Q) (top_n : Z) : list (nat * Q) :=
  slice (sorted Qltb snd true (enumerate row)) 1 (top_n + 1).

(** One iteration of the loop over the ranked pairs:
    [movie = self.movies_df.iloc[i]] and the dict appended for it. *)
Definition recommendation_at (E : Engine) (entry : nat * Q) : option Rec :=
  movie ← movies_df E !! entry.1;
  Some (recommendation movie entry.2).

(** [get_recommendations]: [None] is the Python [None] returned by
    both [except] clauses. A sub-Series position makes [sorted]
    compare whole rows of the (square) matrix, which raises inside
    the [try]. *)
Definition get_recommendations (E : Engine) (mid : Z) (top_n : Z)
  : option (list Rec) :=
  match indices_getitem (indices E) mid with
  | KeyError => None
  | SubSeries _ => None
  | Scalar idx =>
      row ← cosine_sim E !! idx;
      mapM (recommendation_at E) (ranked row top_n)
  end.

(** ** Hybrid recommendations *)

#[export] Instance result_ret : MRet result := λ A a, Returned a.
#[export] Instance result_bind : MBind result := λ A B f m,
  match m with Returned a => f a | Raised => Raised end.

(** [float(self.cosine_sim[r][c])] for the two lookups [r] and [c]:
    anything but two in-range scalar positions raises. *)
Definition sim_at (E : Engine) (r c : series_lookup) : result Q :=
  match r, c with
  | Scalar i, Scalar j =>
      match cosine_sim E !! i ≫= (.!! j) with
      | Some s => Returned s
      | None => Raised
      end
  | _, _ => Raised
  end.

(** One [for mid in ids: if mid in self.indices.index: ...] loop that
    updates the running [collab_boost] with [step]. *)
Fixpoint boost_loop (E : Engine) (rec_idx : series_lookup)
    (step : Q → Q → Q) (ids : list Z) (collab_boost : Q) : result Q :=
  match ids with
  | [] => Returned collab_boost
  | mid :: rest =>
      if in_index (indices E) mid then
        s ← sim_at E rec_idx (indices_getitem (indices E) mid);
        boost_loop E rec_idx step rest (step collab_boost s)
      else boost_loop E rec_idx step rest collab_boost
  end.

Definition liked_ids (user_ratings : list (Z * Q)) : list Z :=
  (List.filter (λ p, Qle_bool (7 # 2) p.2) user_ratings).*1.

Definition disliked_ids (user_ratings : list (Z * Q)) : list Z :=
  (List.filter (λ p, Qltb p.2 3) user_ratings).*1.

(** The value of [collab_boost] when the body of the [for rec] loop
    reaches [content_score]. *)
Definition collab_boost (E : Engine) (liked disliked : list Z) (rid : Z)
  : result Q :=
  if in_index (indices E) rid then
    let rec_idx := indices_getitem (indices E) rid in
    b ← boost_loop E rec_idx (λ b s, b + s)%Q liked 0%Q;
    boost_loop E rec_idx (λ b s, b - s * (1 # 2))%Q disliked b
  else Returned 0%Q.

(** The local [hybrid] of the loop body. *)
Definition hybrid (alpha : Q) (rec : Rec) (boost : Q) : Q :=
  let content_score := (similarity_score rec / 100)%Q in
  (alpha * content_score + (1 - alpha) * max0 boost)%Q.

Definition set_hybrid_score (rec : Rec) (score : Q) : Rec :=
  {| rec_id := rec_id rec;
     rec_title := rec_title rec;
     rec_overview := rec_overview rec;
     rec_genres := rec_genres rec;
     rec_vote_average := rec_vote_average rec;
     rec_popularity := rec_popularity rec;
     rec_release_date := rec_release_date rec;
     similarity_score := similarity_score rec;
     hybrid_score := Some score |}.

(** One iteration of [for rec in content_recs]. *)
Definition score_rec (E : Engine) (alpha : Q) (liked disliked : list Z)
    (rec : Rec) : result Rec :=
  b ← collab_boost E liked disliked (rec_id rec);
  Returned (set_hybrid_score rec (round2 (hybrid alpha rec b * 100))).

(** [r['hybrid_score']] as a sort key; every dict that reaches the
    sort carries the key. *)
Definition hybrid_key (rec : Rec) : Q := default 0%Q (hybrid_score rec).

Definition hybrid_recommendations (E : Engine) (mid : Z)
    (user_ratings : list (Z * Q)) (top_n : Z) (alpha : Q)
  : result (option (list Rec)) :=
  match get_recommendations E mid (top_n * 3) with
  | None | Some [] => Returned None
  | Some content_recs =>
      scored ← mapM (score_rec E alpha (liked_ids user_ratings)
                               (disliked_ids user_ratings)) content_recs;
      Returned (Some (slice (sorted Qltb hybrid_key true scored) 0 top_n))
  end.

(** ** Because you liked *)

(** [self.movies_df[self.movies_df['id'] == source_id].iloc[0]['title']] *)
Definition title_of (E : Engine) (source_id : Z) : result string :=
  match filter (λ m, movie_id m = source_id) (movies_df E) with
  | m :: _ => Returned (title m)
  | [] => Raised
  end.

(** [random.choice(seq)]: [draw] is the outcome of the underlying
    random draw, reduced to a position of [seq]; an empty [seq] raises
    [IndexError]. *)
Definition random_choice {A} (seq : list A) (draw : nat) : result A :=
  match seq !! (draw `mod` length seq) with
  | Some x => Returned x
  | None => Raised
  end.

Definition because_you_liked (E : Engine) (movie_ids : list Z) (top_n : Z)
    (draw : nat) : result (option string * option (list Rec)) :=
  let valid := List.filter (in_index (indices E)) movie_ids in
  match valid with
  | [] => Returned (None, None)
  | _ =>
      source_id ← random_choice valid draw;
      let recs := get_recommendations E source_id top_n in
      source_title ← title_of E source_id;
      Returned (Some source_title, recs)
  end.

(** ** Regular expressions

    [Series.str.contains(pat, case=False, na=False)] compiles [pat]
    as a regular expression with [re.IGNORECASE] and keeps the cells
    for which [regex.search] succeeds. The search is written out for
    patterns made of ordinary characters and dots, over ASCII
    strings; for every other pattern and every other string it is
    the library's, a given function. *)

Module Re.

Inductive atom : Type :=
  | Lit (c : ascii)
  | AnyChar.

(** The characters with a special meaning in a pattern. *)
Definition special : list ascii :=
  list_ascii_of_string ".^$*+?{}[]\|()".

(** The atoms of a pattern of ordinary characters and dots; [None]
    for a pattern with another special character. *)
Definition compile (pat : string) : option (list atom) :=
  mapM (λ c, if bool_decide (c = "."%char) then Some AnyChar
             else if bool_decide (c ∈ special) then None
             else Some (Lit c))
       (list_ascii_of_string pat).

(** Case folding of an ASCII character. *)
Definition lower (c : ascii) : ascii :=
  let n := nat_of_ascii c in
  if bool_decide (65 ≤ n ≤ 90) then ascii_of_nat (n + 32) else c.

(** Every character of [s] is an ASCII character. *)
Definition is_ascii (s : string) : bool :=
  forallb (λ c, nat_of_ascii c <? 128) (list_ascii_of_string s).

Definition newline : ascii := ascii_of_nat 10.

Definition atom_matches (a : atom) (c : ascii) : bool :=
  match a with
  | Lit x => bool_decide (lower x = lower c)
  | AnyChar => bool_decide (c ≠ newline)
  end.

(** The pattern matches a prefix of [s]. *)
Fixpoint match_here (pat : list atom) (s : list ascii) : bool :=
  match pat, s with
  | [], _ => true
  | _ :: _, [] => false
  | a :: pat', c :: s' => atom_matches a c && match_here pat' s'
  end.

(** A match starts somewhere in [s]. *)
Fixpoint search (pat : list atom) (s : list ascii) : bool :=
  match_here pat s ||
  match s with
  | [] => false
  | _ :: s' => search pat s'
  end.

Section Library.
(** [re.compile(pat, re.IGNORECASE)] of the library, as the test
    [regex.search(s) is not None]; [None] is [re.error]. *)
Variable re_library : string → option (string → bool).

(** The test [regex.search(s) is not None] of the compiled [pat]:
    an ASCII pattern of ordinary characters and dots always compiles
    and is searched for as above in an ASCII string; anything else is
    left to the library. [None] is [re.error]. *)
Definition contains (pat : string) : option (string → bool) :=
  match (if is_ascii pat then compile pat else None) with
  | Some atoms =>
      Some (λ s, if is_ascii s then search atoms (list_ascii_of_string s)
                 else from_option (λ found, found s) false (re_library pat))
  | None => re_library pat
  end.
End Library.

End Re.

(** ** Catalog queries *)

(** [int(x)] of a float: truncation toward zero. *)
Definition Qtrunc (q : Q) : Z :=
  if Qltb q 0 then Qceiling q else Qfloor q.

Definition _format_single (movie : Movie) : Card :=
  {| card_id := movie_id movie;
     card_title := title movie;
     card_overview := ellipsis 150 (overview movie);
     card_genres := genres_display movie;
     card_vote_average := vote_average movie;
     card_vote_count := vote_count movie;
     card_popularity := popularity movie;
     card_release_date := str_cell (release_date movie);
     card_runtime := Qtrunc <$> runtime movie |}.

Definition _format_movies (df : list Movie) : list Card :=
  _format_single <$> df.

(** [df.nlargest(n, column)]: the first [n] rows in descending order
    of the column, ties in frame order; nothing when [n <= 0]. *)
Definition nlargest {A} (n : Z) (column : A → Q) (df : list A) : list A :=
  if (n <=? 0)%Z then [] else take (Z.to_nat n) (sorted Qltb column true df).

Definition get_popular_movies (E : Engine) (limit offset : Z)
  : list Card * nat :=
  let popular :=
    slice (nlargest (offset + limit) popularity (movies_df E))
          offset (offset + limit) in
  let total := length (movies_df E) in
  (_format_movies popular, total).

Definition get_top_rated_movies (E : Engine) (limit min_votes offset : Z)
  : list Card * nat :=
  let qualified :=
    List.filter (λ m, (min_votes <=? vote_count m)%Z) (movies_df E) in
  let top_rated :=
    slice (nlargest (offset + limit) vote_average qualified)
          offset (offset + limit) in
  (_format_movies top_rated, length qualified).

Section Catalog.
(** [re.compile(pat, re.IGNORECASE)] of the library, see [Re.contains]. *)
Variable re_library : string → option (string → bool).

(** The mask [column.str.contains(pat, case=False, na=False)] applied
    to a frame; [None] when compiling [pat] raises [re.error]. *)
Definition str_contains (pat : string) (column : Movie → string)
    (df : list Movie) : option (list Movie) :=
  found ← Re.contains re_library pat;
  Some (List.filter (λ m, found (column m)) df).

(** [search_movies]; [None] when the call does not return a page:
    the query does not compile. *)
Definition search_movies (E : Engine) (query : string) (limit offset : Z)
  : option (list Card * nat) :=
  all_results ← str_contains query title (movies_df E);
  let total := length all_results in
  let results := slice all_results offset (offset + limit) in
  Some (_format_movies results, total).

(** A request argument as the route hands it over: absent, an
    integer, or the raw query-string text. *)
Inductive arg : Type :=
  | ANone
  | AInt (z : Z)
  | AStr (s : string).

(** Truth value of an argument in [if x:]. *)
Definition truthy (a : arg) : bool :=
  match a with
  | ANone => false
  | AInt z => negb (z =? 0)%Z
  | AStr s => negb (String.eqb s "")
  end.

(** The cells of a column as [sort_values] compares them. *)
Inductive cell : Type :=
  | CNum (q : Q)
  | CStr (s : string)
  | CNaN.

Definition cell_ltb (a b : cell) : bool :=
  match a, b with
  | CNum x, CNum y => Qltb x y
  | CStr x, CStr y => String.ltb x y
  | _, _ => false
  end.

Definition is_nan (c : cell) : bool :=
  match c with CNaN => true | _ => false end.

(** The sort behind [sort_values] is numpy's [argsort] with
    [kind='quicksort'], which is not stable: where it leaves the
    positions of equal cells depends on the whole array. For the
    array [values], [tie_rank values i] is the rank the sort gives
    position [i] among the positions that hold an equal cell. *)
Variable tie_rank : list cell → nat → nat.

(** A cell with its rank among equal cells. *)
Definition tied_ltb (a b : cell * nat) : bool :=
  cell_ltb a.1 b.1 || (negb (cell_ltb b.1 a.1) && (a.2 <? b.2)%nat).

(** The rows in the order [values.argsort(kind='quicksort')] gives
    them: ascending cells, equal cells by their rank. *)
Definition argsort {A} (column : A → cell) (rows : list A) : list A :=
  let values := column <$> rows in
  (sorted tied_ltb (λ p, (column p.2, tie_rank values p.1)) false
          (enumerate rows)).*2.

(** [df.sort_values(column, ascending=ascending)]: the rows without a
    missing cell are sorted, for a descending order reversed before
    and after the sort; missing cells go last in both directions. *)
Definition sort_values {A} (column : A → cell) (ascending : bool)
    (df : list A) : list A :=
  let present := List.filter (λ m, negb (is_nan (column m))) df in
  (if ascending then argsort column present
   else reverse (argsort column (reverse present)))
  ++ List.filter (λ m, is_nan (column m)) df.

(** The dict lookup [{...}.get(sort_by, 'popularity')] followed by the
    column it names. *)
Definition sort_col (sort_by : string) : Movie → cell :=
  if String.eqb sort_by "rating" then λ m, CNum (vote_average m)
  else if String.eqb sort_by "release_date" then
    λ m, match release_date m with Some s => CStr s | None => CNaN end
  else if String.eqb sort_by "revenue" then λ m, CNum (inject_Z (revenue m))
  else if String.eqb sort_by "title" then λ m, CStr (title m)
  else λ m, CNum (popularity m).

Section Parsers.
(** The two library parsers [filter_movies] relies on, and the JSON
    decoding behind the genre catalogue. *)

(** [int(s)] for a string; [None] is [ValueError]. *)
Variable py_int : string → option Z.
(** [pd.to_numeric(s, errors='coerce')]; [None] is NaN. *)
Variable to_numeric : string → option Q.
(** The names [all_genres.add] receives while one [genres] cell is
    decoded, up to the point where the [try] body ends or raises. *)
Variable genre_names : string → list string.

Definition int_arg (a : arg) : option Z :=
  match a with
  | ANone => None
  | AInt z => Some z
  | AStr s => py_int s
  end.

(** The [_year] column: [to_numeric(release_date.str[:4])]. *)
Definition _year (m : Movie) : option Q :=
  release_date m ≫= λ s, to_numeric (String.substring 0 4 s).

(** [if a: filtered = filtered[column <cmp> int(a)]] with a
    comparison that is false on NaN. *)
Definition bound_filter (a : arg) (column : Movie → option Q)
    (cmp : Q → Q → bool) (filtered : list Movie) : option (list Movie) :=
  if truthy a then
    n ← int_arg a;
    Some (List.filter
            (λ m, from_option (λ x, cmp x (inject_Z n)) false (column m))
            filtered)
  else Some filtered.

Definition Qgeb (x y : Q) : bool := Qle_bool y x.

(** The frame [filter_movies] holds when it reaches [total]. *)
Definition filter_frame (E : Engine) (genre : option string)
    (min_rating max_rating : Q)
    (year_from year_to min_runtime max_runtime : arg)
  : option (list Movie) :=
  let filtered :=
    List.filter (λ m, Qle_bool min_rating (vote_average m)
                      && Qle_bool (vote_average m) max_rating)
                (movies_df E) in
  filtered ← match genre with
             | None | Some EmptyString => Some filtered
             | Some g => str_contains g genres filtered
             end;
  filtered ← bound_filter year_from _year Qgeb filtered;
  filtered ← bound_filter year_to _year Qle_bool filtered;
  filtered ← bound_filter min_runtime runtime Qgeb filtered;
  bound_filter max_runtime runtime Qle_bool filtered.

(** [filter_movies]; [None] when the call does not return a page:
    [int] raised, or the genre pattern does not compile. *)
Definition filter_movies (E : Engine) (genre : option string)
    (min_rating max_rating : Q)
    (year_from year_to min_runtime max_runtime : arg)
    (sort_by order : string) (limit offset : Z)
  : option (list Card * nat) :=
  filtered ← filter_frame E genre min_rating max_rating
               year_from year_to min_runtime max_runtime;
  let total := length filtered in
  let ascending := String.eqb order "asc" in
  let filtered := sort_values (sort_col sort_by) ascending filtered in
  let page := slice filtered offset (offset + limit) in
  Some (_format_movies page, total).

(** [get_all_genres]: the set is rebuilt from every cell, then
    listed in ascending order. *)
Definition get_all_genres (E : Engine) : list string :=
  let all_genres : gset string :=
    foldl (λ s genres_str, s ∪ list_to_set (genre_names genres_str))
          ∅ (genres <$> movies_df E) in
  sorted String.ltb (λ s, s) false (elements all_genres).
End Parsers.
End Catalog.

(** [get_movies_by_ids] *)
Definition get_movies_by_ids (E : Engine) (movie_ids : list Z) : list Card :=
  let subset := filter (λ m, movie_id m ∈ movie_ids) (movies_df E) in
  let movie_map : gmap Z Card :=
    foldl (λ mp movie, <[movie_id movie := _format_single movie]> mp)
          ∅ subset in
  omap (λ mid, movie_map !! mid) movie_ids.

(** * The query methods as procedures on the object heap

    The methods are written once more with the objects they touch held
    in a heap: the attributes of [self] are references, a method
    allocates the frames, lists and dicts it creates, and an
    assignment through a reference overwrites the object it points
    to. *)

Module Heap.

Abbreviation loc := nat.

(** A row of a DataFrame object: the movie and, once
    [df['_year'] = ...] has run on that object, its [_year] cell. *)
Abbreviation row := (Movie * option (option Q))%type.

Inductive object : Type :=
  | DataFrame (rows : list row)
  | Ndarray (values : list (list Q))
  | Series (entries : list (Z * nat))
  | SparseMatrix
  | PyDict (rec : Rec)
  | PyList (items : list loc)
  | PySet (names : gset string)
  | PyMap (cards : gmap Z Card).

Abbreviation heap := (list object).

(** A computation reads and writes the heap and returns or raises. *)
Definition M (A : Type) : Type := heap → result A * heap.

#[export] Instance M_ret : MRet M := λ A a h, (Returned a, h).
#[export] Instance M_bind : MBind M := λ A B f m h,
  match m h with
  | (Returned a, h') => f a h'
  | (Raised, h') => (Raised, h')
  end.

#[export] Instance M_fmap : FMap M := λ A B f m, a ← m; mret (f a).

Definition raise {A} : M A := λ h, (Raised, h).

(** [try: body except Exception: handler] *)
Definition try_except {A} (body handler : M A) : M A := λ h,
  match body h with
  | (Returned a, h') => (Returned a, h')
  | (Raised, h') => handler h'
  end.

Definition lift {A} (r : result A) : M A := λ h, (r, h).

Definition lift_option {A} (o : option A) : M A :=
  match o with Some a => mret a | None => raise end.

(** A new object, at a location no reference points to yet. *)
Definition alloc (o : object) : M loc := λ h, (Returned (length h), h ++ [o]).

Definition load (l : loc) : M object := λ h,
  (from_option Returned Raised (h !! l), h).

(** Overwrite the object a reference points to. *)
Definition store (l : loc) (o : object) : M unit := λ h,
  if decide (l < length h) then (Returned (), <[l := o]> h) else (Raised, h).

Definition load_frame (l : loc) : M (list row) :=
  o ← load l; match o with DataFrame rows => mret rows | _ => raise end.
Definition load_ndarray (l : loc) : M (list (list Q)) :=
  o ← load l; match o with Ndarray v => mret v | _ => raise end.
Definition load_series (l : loc) : M (list (Z * nat)) :=
  o ← load l; match o with Series e => mret e | _ => raise end.
Definition load_dict (l : loc) : M Rec :=
  o ← load l; match o with PyDict r => mret r | _ => raise end.
Definition load_list (l : loc) : M (list loc) :=
  o ← load l; match o with PyList items => mret items | _ => raise end.
Definition load_set (l : loc) : M (gset string) :=
  o ← load l; match o with PySet s => mret s | _ => raise end.
Definition load_map (l : loc) : M (gmap Z Card) :=
  o ← load l; match o with PyMap m => mret m | _ => raise end.

(** [for x in xs: body] *)
Fixpoint for_each {A} (body : A → M unit) (xs : list A) : M unit :=
  match xs with
  | [] => mret ()
  | x :: xs' => body x;; for_each body xs'
  end.

(** The attributes of a [MovieRecommender] instance. *)
Record self : Type := mkSelf {
  self_movies_df : loc;
  self_cosine_sim : loc;
  self_indices : loc;
  self_tfidf_matrix : loc
}.

(** The engine state: what the four attributes point to. *)
Definition engine_state (s : self) (h : heap)
  : option object * option object * option object * option object :=
  (h !! self_movies_df s, h !! self_cosine_sim s,
   h !! self_indices s, h !! self_tfidf_matrix s).

(** The attributes of [s] hold the engine [E] in the heap [h]. *)
Definition holds (s : self) (E : Engine) (h : heap) : Prop :=
  engine_state s h
  = (Some (DataFrame ((λ m, (m, None)) <$> movies_df E)),
     Some (Ndarray (cosine_sim E)),
     Some (Series (indices E)),
     Some SparseMatrix).

(** Reading [self.movies_df], [self.cosine_sim] and [self.indices]. *)
Definition load_engine (s : self) : M Engine :=
  rows ← load_frame (self_movies_df s);
  sim ← load_ndarray (self_cosine_sim s);
  ix ← load_series (self_indices s);
  mret {| movies_df := rows.*1; cosine_sim := sim; indices := ix |}.

(** *** Recommendations *)

(** [get_recommendations]: the dicts and the list that holds them are
    new objects; the method returns a reference to the list. *)
Definition get_recommendations_m (s : self) (mid top_n : Z) : M (option loc) :=
  try_except
    (E ← load_engine s;
     recs ← lift_option (get_recommendations E mid top_n);
     dicts ← mapM (λ r, alloc (PyDict r)) recs;
     recommendations ← alloc (PyList dicts);
     mret (Some recommendations))
    (mret None).

(** The body of [for rec in content_recs]: [rec['hybrid_score'] = ...]
    writes into the dict [rec] refers to. *)
Definition score_dict (s : self) (alpha : Q) (liked disliked : list Z)
    (rec : loc) : M unit :=
  r ← load_dict rec;
  E ← load_engine s;
  b ← lift (collab_boost E liked disliked (rec_id r));
  store rec (PyDict (set_hybrid_score r (round2 (hybrid alpha r b * 100)))).

(** [content_recs.sort(key=lambda r: r['hybrid_score'], reverse=True)]
    reorders the references inside the list object. *)
Definition sort_by_hybrid_score (content_recs : loc) : M unit :=
  items ← load_list content_recs;
  dicts ← mapM load_dict items;
  store content_recs
        (PyList (sorted Qltb (λ p, hybrid_key p.2) true (zip items dicts)).*1).

Definition hybrid_recommendations_m (s : self) (mid : Z)
    (user_ratings : list (Z * Q)) (top_n : Z) (alpha : Q) : M (option loc) :=
  content_recs ← get_recommendations_m s mid (top_n * 3);
  match content_recs with
  | None => mret None
  | Some content_recs =>
      items ← load_list content_recs;
      match items with
      | [] => mret None
      | _ =>
          for_each (score_dict s alpha (liked_ids user_ratings)
                               (disliked_ids user_ratings)) items;;
          sort_by_hybrid_score content_recs;;
          items ← load_list content_recs;
          top ← alloc (PyList (slice items 0 top_n));
          mret (Some top)
      end
  end.

(** The dicts a returned list refers to. *)
Definition read_recs (l : option loc) : M (option (list Rec)) :=
  match l with
  | None => mret None
  | Some l => items ← load_list l; recs ← mapM load_dict items; mret (Some recs)
  end.

Definition because_you_liked_m (s : self) (movie_ids : list Z) (top_n : Z)
    (draw : nat) : M (option string * option loc) :=
  E ← load_engine s;
  let valid := List.filter (in_index (indices E)) movie_ids in
  match valid with
  | [] => mret (None, None)
  | _ =>
      source_id ← lift (random_choice valid draw);
      recs ← get_recommendations_m s source_id top_n;
      E ← load_engine s;
      source_title ← lift (title_of E source_id);
      mret (Some source_title, recs)
  end.

(** *** Catalog queries *)

Section Catalog.
Variable re_library : string → option (string → bool).
Variable tie_rank : list cell → nat → nat.

Definition df_len (df : loc) : M nat :=
  rows ← load_frame df; mret (length rows).

(** [df.copy()] *)
Definition df_copy (df : loc) : M loc :=
  rows ← load_frame df; alloc (DataFrame rows).

(** [df[mask]]: the selected rows form a new frame. *)
Definition df_where (df : loc) (keep : row → bool) : M loc :=
  rows ← load_frame df; alloc (DataFrame (List.filter keep rows)).

(** [df.nlargest(n, column)] *)
Definition df_nlargest (df : loc) (n : Z) (column : Movie → Q) : M loc :=
  rows ← load_frame df; alloc (DataFrame (nlargest n (λ r, column r.1) rows)).

(** [df.iloc[start:stop]] *)
Definition df_iloc (df : loc) (start stop : Z) : M loc :=
  rows ← load_frame df; alloc (DataFrame (slice rows start stop)).

(** [df.sort_values(column, ascending=ascending)] *)
Definition df_sort_values (df : loc) (column : Movie → cell)
    (ascending : bool) : M loc :=
  rows ← load_frame df;
  alloc (DataFrame (sort_values tie_rank (λ r, column r.1) ascending rows)).

(** [self._format_movies(df)] *)
Definition _format_movies_m (df : loc) : M (list Card) :=
  rows ← load_frame df; mret (_format_movies rows.*1).

Definition get_popular_movies_m (s : self) (limit offset : Z)
  : M (list Card * nat) :=
  largest ← df_nlargest (self_movies_df s) (offset + limit) popularity;
  popular ← df_iloc largest offset (offset + limit);
  total ← df_len (self_movies_df s);
  cards ← _format_movies_m popular;
  mret (cards, total).

Definition get_top_rated_movies_m (s : self) (limit min_votes offset : Z)
  : M (list Card * nat) :=
  qualified ← df_where (self_movies_df s)
                       (λ r, (min_votes <=? vote_count r.1)%Z);
  largest ← df_nlargest qualified (offset + limit) vote_average;
  top_rated ← df_iloc largest offset (offset + limit);
  cards ← _format_movies_m top_rated;
  total ← df_len qualified;
  mret (cards, total).

(** [df[df[column].str.contains(pat, case=False, na=False)]] *)
Definition df_str_contains (df : loc) (pat : string)
    (column : Movie → string) : M loc :=
  found ← lift_option (Re.contains re_library pat);
  df_where df (λ r, found (column r.1)).

Definition search_movies_m (s : self) (query : string) (limit offset : Z)
  : M (list Card * nat) :=
  all_results ← df_str_contains (self_movies_df s) query title;
  total ← df_len all_results;
  results ← df_iloc all_results offset (offset + limit);
  cards ← _format_movies_m results;
  mret (cards, total).

Section Parsers.
Variable py_int : string → option Z.
Variable to_numeric : string → option Q.
Variable genre_names : string → list string.

(** [filtered['_year'] = pd.to_numeric(...)]: the column is written
    into the frame object [filtered] refers to. *)
Definition df_set_year (filtered : loc) : M unit :=
  rows ← load_frame filtered;
  store filtered
        (DataFrame ((λ r : row, (r.1, Some (_year to_numeric r.1))) <$> rows)).

(** [if a: filtered = filtered[column <cmp> int(a)]] *)
Definition df_bound (a : arg) (column : row → option Q) (cmp : Q → Q → bool)
    (filtered : loc) : M loc :=
  if truthy a then
    n ← lift_option (int_arg py_int a);
    df_where filtered
             (λ r, from_option (λ x, cmp x (inject_Z n)) false (column r))
  else mret filtered.

(** The cell [filtered['_year']] of a row; the column exists when the
    year bounds are applied. *)
Definition year_cell (r : row) : option Q := default None r.2.

(** The statements of [filter_movies] up to [total = len(filtered)]:
    the reference to the frame [filtered] is bound to at that point. *)
Definition filter_frame_m (s : self) (genre : option string)
    (min_rating max_rating : Q)
    (year_from year_to min_runtime max_runtime : arg) : M loc :=
  filtered ← df_copy (self_movies_df s);
  filtered ← df_where filtered
                (λ r, Qle_bool min_rating (vote_average r.1)
                      && Qle_bool (vote_average r.1) max_rating);
  filtered ← match genre with
             | None | Some EmptyString => mret filtered
             | Some g => df_str_contains filtered g genres
             end;
  filtered ← (if truthy year_from || truthy year_to then
                df_set_year filtered;;
                filtered ← df_bound year_from year_cell Qgeb filtered;
                df_bound year_to year_cell Qle_bool filtered
              else mret filtered);
  filtered ← df_bound min_runtime (λ r, runtime r.1) Qgeb filtered;
  df_bound max_runtime (λ r, runtime r.1) Qle_bool filtered.

Definition filter_movies_m (s : self) (genre : option string)
    (min_rating max_rating : Q)
    (year_from year_to min_runtime max_runtime : arg)
    (sort_by order : string) (limit offset : Z) : M (list Card * nat) :=
  filtered ← filter_frame_m s genre min_rating max_rating
               year_from year_to min_runtime max_runtime;
  total ← df_len filtered;
  filtered ← df_sort_values filtered (sort_col sort_by) (String.eqb order "asc");
  page ← df_iloc filtered offset (offset + limit);
  cards ← _format_movies_m page;
  mret (cards, total).

(** [all_genres.add(name)] *)
Definition set_add (all_genres : loc) (name : string) : M unit :=
  names ← load_set all_genres; store all_genres (PySet (names ∪ {[name]})).

Definition get_all_genres_m (s : self) : M (list string) :=
  all_genres ← alloc (PySet ∅);
  rows ← load_frame (self_movies_df s);
  for_each (λ r : row, for_each (set_add all_genres) (genre_names (genres r.1)))
           rows;;
  names ← load_set all_genres;
  mret (sorted String.ltb (λ x, x) false (elements names)).
End Parsers.
End Catalog.

(** [movie_map[int(movie['id'])] = self._format_single(movie)] *)
Definition map_setitem (movie_map : loc) (r : row) : M unit :=
  cards ← load_map movie_map;
  store movie_map (PyMap (<[movie_id r.1 := _format_single r.1]> cards)).

Definition get_movies_by_ids_m (s : self) (movie_ids : list Z) : M (list Card) :=
  subset ← df_where (self_movies_df s)
                    (λ r, bool_decide (movie_id r.1 ∈ movie_ids));
  movie_map ← alloc (PyMap ∅);
  rows ← load_frame subset;
  for_each (map_setitem movie_map) rows;;
  cards ← load_map movie_map;
  mret (omap (λ mid, cards !! mid) movie_ids).

(** *** Every query of the engine *)

Inductive query : Type :=
  | Recommend (mid top_n : Z)
  | Hybrid (mid : Z) (user_ratings : list (Z * Q)) (top_n : Z) (alpha : Q)
  | BecauseYouLiked (movie_ids : list Z) (top_n : Z) (draw : nat)
  | Popular (limit offset : Z)
  | TopRated (limit min_votes offset : Z)
  | Search (text : string) (limit offset : Z)
  | Filter (genre : option string) (min_rating max_rating : Q)
           (year_from year_to min_runtime max_runtime : arg)
           (sort_by order : string) (limit offset : Z)
  | AllGenres
  | ByIds (movie_ids : list Z).

Inductive answer : Type :=
  | Recs (recs : option (list Rec))
  | Sourced (source_title : option string) (recs : option (list Rec))
  | Page (cards : list Card) (total : nat)
  | Names (names : list string)
  | Cards (cards : list Card).

Definition page_answer (p : list Card * nat) : answer := Page p.1 p.2.

(** Run one query on the engine [s] and read the answer back. *)
Definition run (re_library : string → option (string → bool))
    (tie_rank : list cell → nat → nat)
    (py_int : string → option Z) (to_numeric : string → option Q)
    (genre_names : string → list string) (s : self) (q : query) : M answer :=
  match q with
  | Recommend mid top_n =>
      l ← get_recommendations_m s mid top_n; Recs <$> read_recs l
  | Hybrid mid user_ratings top_n alpha =>
      l ← hybrid_recommendations_m s mid user_ratings top_n alpha;
      Recs <$> read_recs l
  | BecauseYouLiked movie_ids top_n draw =>
      '(source_title, l) ← because_you_liked_m s movie_ids top_n draw;
      Sourced source_title <$> read_recs l
  | Popular limit offset => page_answer <$> get_popular_movies_m s limit offset
  | TopRated limit min_votes offset =>
      page_answer <$> get_top_rated_movies_m s limit min_votes offset
  | Search text limit offset =>
      page_answer <$> search_movies_m re_library s text limit offset
  | Filter genre min_rating max_rating year_from year_to min_runtime max_runtime
           sort_by order limit offset =>
      page_answer <$> filter_movies_m re_library tie_rank py_int to_numeric
                        s genre
                        min_rating max_rating year_from year_to
                        min_runtime max_runtime sort_by order limit offset
  | AllGenres => Names <$> get_all_genres_m genre_names s
  | ByIds movie_ids => Cards <$> get_movies_by_ids_m s movie_ids
  end.

End Heap.

(** ** The answers of the pure functions

    The reference point for the heap procedures. *)

#[export] Instance result_fmap : FMap result := λ A B f r,
  match r with Returned a => Returned (f a) | Raised => Raised end.

(** The answer to a query according to the pure functions. *)
Definition answer_of (re_library : string → option (string → bool))
    (tie_rank : list cell → nat → nat) (py_int : string → option Z)
    (to_numeric : string → option Q) (genre_names : string → list string)
    (E : Engine) (q : Heap.query) : result Heap.answer :=
  match q with
  | Heap.Recommend mid top_n =>
      Returned (Heap.Recs (get_recommendations E mid top_n))
  | Heap.Hybrid mid user_ratings top_n alpha =>
      Heap.Recs <$> hybrid_recommendations E mid user_ratings top_n alpha
  | Heap.BecauseYouLiked movie_ids top_n draw =>
      (λ p, Heap.Sourced p.1 p.2) <$> because_you_liked E movie_ids top_n draw
  | Heap.Popular limit offset =>
      Returned (Heap.page_answer (get_popular_movies E limit offset))
  | Heap.TopRated limit min_votes offset =>
      Returned (Heap.page_answer (get_top_rated_movies E limit min_votes offset))
  | Heap.Search text limit offset =>
      match search_movies re_library E text limit offset with
      | Some p => Returned (Heap.page_answer p)
      | None => Raised
      end
  | Heap.Filter genre min_rating max_rating year_from year_to min_runtime
                max_runtime sort_by order limit offset =>
      match filter_movies re_library tie_rank py_int to_numeric E genre
              min_rating max_rating year_from year_to min_runtime max_runtime
              sort_by order limit offset with
      | Some p => Returned (Heap.page_answer p)
      | None => Raised
      end
  | Heap.AllGenres => Returned (Heap.Names (get_all_genres genre_names E))
  | Heap.ByIds movie_ids => Returned (Heap.Cards (get_movies_by_ids E movie_ids))
  end.

(** * Metadata cells

    The columns [genres], [keywords], [cast] and [crew] hold JSON
    text. [_preprocess_data] runs the four parsers below over them,
    cell by cell, to fill the columns [genres_parsed],
    [keywords_parsed], [cast_parsed] (the first five names),
    [director], [genres_display], [keywords_display] and
    [cast_display] (the first five names); [get_movie_details]
    decodes [genres] once more. *)

(** A decoded JSON document; the entries of an object are the items
    of the Python dict, one per key. *)
#[warnings="-register-all"] Inductive json : Type :=
  | JNull
  | JBool (b : bool)
  | JNum (q : Q)
  | JStr (s : string)
  | JList (items : list json)
  | JDict (entries : list (string * json)).

(** [d[key]] and [d.get(key)] on the items of a dict. *)
Definition dict_get (entries : list (string * json)) (key : string)
  : option json :=
  snd <$> List.find (λ p, String.eqb p.1 key) entries.

(** [item['name']]; [None] is the [KeyError] of a dict without the
    key, or the [TypeError] of anything that is not a dict. *)
Definition getitem_name (item : json) : option json :=
  match item with
  | JDict entries => dict_get entries "name"
  | _ => None
  end.

(** The items a [for] loop sees: the elements of a list, the keys of
    a dict, the characters of a string; [None] is the [TypeError] of
    a value that is not iterable. *)
Definition json_iter (data : json) : option (list json) :=
  match data with
  | JList items => Some items
  | JDict entries => Some (JStr <$> entries.*1)
  | JStr s => Some ((λ c, JStr (String c "")) <$> list_ascii_of_string s)
  | _ => None
  end.

(** [data[:n]]: lists and strings can be sliced. *)
Definition json_slice (data : json) (n : Z) : option json :=
  match data with
  | JList items => Some (JList (slice items 0 n))
  | JStr s =>
      Some (JStr (string_of_list_ascii (slice (list_ascii_of_string s) 0 n)))
  | _ => None
  end.

(** [sep.join(names)]: every name has to be a string. *)
Definition str_join (sep : string) (names : list json) : option string :=
  String.concat sep
    <$> mapM (λ j, match j with JStr s => Some s | _ => None end) names.

(** [s.replace(old, new)] for one-character strings. *)
Fixpoint str_replace (old new : ascii) (s : string) : string :=
  match s with
  | EmptyString => EmptyString
  | String c s' =>
      String (if Ascii.eqb c old then new else c) (str_replace old new s')
  end.

Definition apostrophe : ascii := ascii_of_nat 39.
Definition double_quote : ascii := ascii_of_nat 34.

Section Json.
(** [json.loads] on a string; [None] is [JSONDecodeError]. *)
Variable json_loads : string → option json.

(** [json.loads] of the cell once every apostrophe is replaced by a
    double quote. The cell is a string or NaN, and NaN has no
    [replace]. *)
Definition decode (json_str : option string) : option json :=
  s ← json_str; json_loads (str_replace apostrophe double_quote s).

(** [[item['name'] for item in data]] *)
Definition names_of (data : json) : option (list json) :=
  json_iter data ≫= mapM getitem_name.

Definition _parse_json_list (json_str : option string) : string :=
  default ""%string
    (data ← decode json_str; names_of data ≫= str_join " ").

Definition _parse_json_list_top_n (json_str : option string) (n : Z)
  : string :=
  default ""%string
    (data ← decode json_str;
     head ← json_slice data n;
     names_of head ≫= str_join " ").

(** [limit] is [None] or an integer; [if limit:] skips both [None]
    and zero. *)
Definition _parse_json_names (json_str : option string) (limit : option Z)
  : string :=
  default ""%string
    (data ← decode json_str;
     names ← names_of data;
     let names :=
       match limit with
       | Some n => if (n =? 0)%Z then names else slice names 0 n
       | None => names
       end in
     str_join ", " names).

(** The loop of [_get_director] over the crew: [None] is the
    [AttributeError] of an entry without [get]. *)
Fixpoint first_director (crew : list json) : option json :=
  match crew with
  | [] => Some (JStr "")
  | JDict person :: rest =>
      match dict_get person "job" with
      | Some (JStr job) =>
          if String.eqb job "Director"
          then Some (default (JStr "") (dict_get person "name"))
          else first_director rest
      | _ => first_director rest
      end
  | _ :: _ => None
  end.

Definition _get_director (json_str : option string) : json :=
  default (JStr "")
    (data ← decode json_str; json_iter data ≫= first_director).

(** A row of [movies_df] with the further columns
    [get_movie_details] reads. *)
Record DetailRow : Type := mkDetailRow {
  row_movie : Movie;
  original_title : string;
  keywords_display : string;
  cast_display : string;
  director : json;
  budget : Z;
  tagline : option string;
  homepage : option string
}.

(** The dict [get_movie_details] returns. *)
Record Details : Type := mkDetails {
  details_id : Z;
  details_title : string;
  details_original_title : string;
  details_overview : string;
  details_genres : string;
  details_keywords : string;
  details_cast : string;
  details_director : json;
  details_vote_average : Q;
  details_vote_count : Z;
  details_popularity : Q;
  details_budget : Z;
  details_revenue : Z;
  details_runtime : option Z;
  details_release_date : string;
  details_tagline : string;
  details_homepage : string
}.

(** [get_movie_details]: the first row with the id. A missing row
    raises [IndexError] and names that are not strings make [join]
    raise, both inside the outer [try]. *)
Definition get_movie_details (df : list DetailRow) (mid : Z)
  : option Details :=
  match filter (λ r, movie_id (row_movie r) = mid) df with
  | [] => None
  | r :: _ =>
      let movie := row_movie r in
      let genres_list :=
        default [] (decode (Some (genres movie)) ≫= names_of) in
      genres_joined ← str_join ", " genres_list;
      Some {| details_id := movie_id movie;
              details_title := title movie;
              details_original_title := original_title r;
              details_overview := overview movie;
              details_genres := genres_joined;
              details_keywords := keywords_display r;
              details_cast := cast_display r;
              details_director := director r;
              details_vote_average := vote_average movie;
              details_vote_count := vote_count movie;
              details_popularity := popularity movie;
              details_budget := budget r;
              details_revenue := revenue movie;
              details_runtime := Qtrunc <$> runtime movie;
              details_release_date := str_cell (release_date movie);
              details_tagline := default ""%string (tagline r);
              details_homepage := default ""%string (homepage r) |}
  end.
End Json.

(** * The user database

    [backend/database.py]: the tables the methods of [Database] read
    and write, as the lists of their rows in insertion order, with
    the columns the methods use. A query without [order_by] returns
    rows in insertion order; [order_by] is the stable sort. The
    clock, the random salt and SHA-256 are supplied by the caller.
    The database is the SQLite file the module opens when
    [DATABASE_URL] is not set. *)

Record User : Type := mkUser {
  user_id : Z;
  username : string;
  email : string;
  password_hash : string;
  salt : string
}.

Record Watchlist : Type := mkWatchlist {
  watchlist_user_id : Z;
  watchlist_movie_id : Z;
  added_at : Z
}.

Record Rating : Type := mkRating {
  rating_user_id : Z;
  rating_movie_id : Z;
  score : Q;
  updated_at : Z
}.

Record UserView : Type := mkUserView {
  view_user_id : Z;
  view_movie_id : Z;
  viewed_at : Z
}.

Record Database : Type := mkDatabase {
  users : list User;
  watchlist : list Watchlist;
  ratings : list Rating;
  user_views : list UserView
}.

(** The tables right after [create_all] on a new database. *)
Definition empty_database : Database :=
  {| users := []; watchlist := []; ratings := []; user_views := [] |}.

Section Accounts.
(** [hashlib.sha256(s.encode()).hexdigest()] *)
Variable sha256_hex : string → string.

(** [user.check_password(password)] *)
Definition check_password (user : User) (password : string) : bool :=
  String.eqb (sha256_hex (password +:+ salt user)) (password_hash user).

(** The key an autoincrement column gives the next row. *)
Definition next_user_id (db : Database) : Z :=
  (foldr Z.max 0 (user_id <$> users db) + 1)%Z.

(** [create_user]; [token] is the outcome of [secrets.token_hex(32)].
    The answer is the pair [(user, err)]. *)
Definition create_user (db : Database) (name mail password token : string)
  : (option User * option string) * Database :=
  let existing :=
    List.find (λ u, String.eqb (username u) name || String.eqb (email u) mail)
              (users db) in
  match existing with
  | Some _ => ((None, Some "Username or email already exists"%string), db)
  | None =>
      let user := {| user_id := next_user_id db;
                     username := name;
                     email := mail;
                     password_hash := sha256_hex (password +:+ token);
                     salt := token |} in
      ((Some user, None),
       {| users := users db ++ [user];
          watchlist := watchlist db;
          ratings := ratings db;
          user_views := user_views db |})
  end.

Definition authenticate_user (db : Database) (name password : string)
  : option User :=
  match List.find (λ u, String.eqb (username u) name) (users db) with
  | Some user => if check_password user password then Some user else None
  | None => None
  end.
End Accounts.

Definition get_user_by_id (db : Database) (uid : Z) : option User :=
  List.find (λ u, (user_id u =? uid)%Z) (users db).

(** An [int] that SQLite can hold, in 64 bits. Binding any other
    [int] to a parameter of a statement raises [OverflowError]
    before the statement runs. *)
Definition sqlite_int (z : Z) : bool :=
  (- 2 ^ 63 <=? z)%Z && (z <? 2 ^ 63)%Z.

(** [filter_by(user_id=..., movie_id=...)] on the watchlist. *)
Definition watchlist_entry (uid mid : Z) (e : Watchlist) : bool :=
  (watchlist_user_id e =? uid)%Z && (watchlist_movie_id e =? mid)%Z.

(** [add_to_watchlist]: the query for the existing row binds both
    ids. *)
Definition add_to_watchlist (db : Database) (uid mid now : Z)
  : result bool * Database :=
  if sqlite_int uid && sqlite_int mid then
    match List.find (watchlist_entry uid mid) (watchlist db) with
    | Some _ => (Returned false, db)
    | None =>
        (Returned true,
         {| users := users db;
            watchlist := watchlist db
                         ++ [{| watchlist_user_id := uid;
                                watchlist_movie_id := mid;
                                added_at := now |}];
            ratings := ratings db;
            user_views := user_views db |})
    end
  else (Raised, db).

(** [session.delete(entry)] for the first row that satisfies [p]. *)
Fixpoint delete_first {A} (p : A → bool) (rows : list A) : list A :=
  match rows with
  | [] => []
  | r :: rest => if p r then rest else r :: delete_first p rest
  end.

Definition remove_from_watchlist (db : Database) (uid mid : Z)
  : result bool * Database :=
  if sqlite_int uid && sqlite_int mid then
    match List.find (watchlist_entry uid mid) (watchlist db) with
    | Some _ =>
        (Returned true,
         {| users := users db;
            watchlist := delete_first (watchlist_entry uid mid) (watchlist db);
            ratings := ratings db;
            user_views := user_views db |})
    | None => (Returned false, db)
    end
  else (Raised, db).


Definition is_in_watchlist (db : Database) (uid mid : Z) : bool :=
  bool_decide (is_Some (List.find (watchlist_entry uid mid) (watchlist db))).

(** [max(1.0, min(5.0, x))] *)
Definition clamp_score (x : Q) : Q :=
  let m := if Qltb x 5 then x else 5%Q in
  if Qltb 1 m then m else 1%Q.

Definition rating_entry (uid mid : Z) (r : Rating) : bool :=
  (rating_user_id r =? uid)%Z && (rating_movie_id r =? mid)%Z.

(** The assignment to the first row that satisfies [p]. *)
Fixpoint update_first {A} (p : A → bool) (f : A → A) (rows : list A)
  : list A :=
  match rows with
  | [] => []
  | r :: rest => if p r then f r :: rest else r :: update_first p f rest
  end.

(** [rate_movie] for a [score] that is a float already, so that
    [float(score)] is the score; the answer is the row. The query for
    the existing row binds both ids. *)
Definition rate_movie (db : Database) (uid mid : Z) (new_score : Q) (now : Z)
  : result Rating * Database :=
  let new_score := clamp_score new_score in
  if sqlite_int uid && sqlite_int mid then
    match List.find (rating_entry uid mid) (ratings db) with
    | Some existing =>
        let set r := {| rating_user_id := rating_user_id r;
                        rating_movie_id := rating_movie_id r;
                        score := new_score;
                        updated_at := now |} in
        (Returned (set existing),
         {| users := users db;
            watchlist := watchlist db;
            ratings := update_first (rating_entry uid mid) set (ratings db);
            user_views := user_views db |})
    | None =>
        let existing := {| rating_user_id := uid;
                           rating_movie_id := mid;
                           score := new_score;
                           updated_at := now |} in
        (Returned existing,
         {| users := users db;
            watchlist := watchlist db;
            ratings := ratings db ++ [existing];
            user_views := user_views db |})
    end
  else (Raised, db).

Definition get_user_rating (db : Database) (uid mid : Z) : option Q :=
  score <$> List.find (rating_entry uid mid) (ratings db).

(** [d[k] = v] on the items of a dict: a known key keeps its place. *)
Fixpoint dict_setitem {K V} `{EqDecision K} (items : list (K * V)) (k : K)
    (v : V) : list (K * V) :=
  match items with
  | [] => [(k, v)]
  | (k', v') :: rest =>
      if decide (k' = k) then (k, v) :: rest
      else (k', v') :: dict_setitem rest k v
  end.

(** [{r.movie_id: r.score for r in ratings}], as its items. *)
Definition get_user_ratings (db : Database) (uid : Z) : list (Z * Q) :=
  foldl (λ items r, dict_setitem items (rating_movie_id r) (score r)) []
        (List.filter (λ r, (rating_user_id r =? uid)%Z) (ratings db)).

Definition get_all_ratings (db : Database) : list (Z * Z * Q) :=
  (λ r, (rating_user_id r, rating_movie_id r, score r)) <$> ratings db.

Definition track_view (db : Database) (uid mid now : Z) : Database :=
  {| users := users db;
     watchlist := watchlist db;
     ratings := ratings db;
     user_views := user_views db
                   ++ [{| view_user_id := uid;
                          view_movie_id := mid;
                          viewed_at := now |}] |}.

(** The loop of [get_recent_views] over the remaining [views]. *)
Fixpoint recent_loop (limit : nat) (views : list UserView) (seen : gset Z)
    (result : list Z) : list Z :=
  match views with
  | [] => result
  | v :: rest =>
      let fresh := bool_decide (view_movie_id v ∉ seen) in
      let seen := if fresh then seen ∪ {[view_movie_id v]} else seen in
      let result := if fresh then result ++ [view_movie_id v] else result in
      if (limit <=? length result)%nat then result
      else recent_loop limit rest seen result
  end.

(** [get_recent_views] for a limit that is not negative. *)
Definition get_recent_views (db : Database) (uid : Z) (limit : nat)
  : list Z :=
  let views :=
    take (limit * 2)
         (sorted Z.ltb viewed_at true
                 (List.filter (λ v, (view_user_id v =? uid)%Z)
                              (user_views db))) in
  recent_loop limit views ∅ [].

(** * The routes

    The handlers of [backend/app.py] that call the engine with what
    the user database holds. A handler gets the request arguments as
    the route parsed them and [g.user_id] as the decorator set it;
    its reply is the JSON body of a success or the status of a
    failure (the error text is not modelled). *)

Inductive reply (A : Type) : Type :=
  | Success (body : A)
  | Failure (status : Z).
Arguments Success {A} body.
Arguments Failure {A} status.




(** The body of [POST /api/ratings/<id>]. *)
Record RatingBody : Type := mkRatingBody {
  rated_movie_id : Z;
  rated_score : Q
}.

(** A number of a JSON body as [json.loads] returns it: an [int], or
    a float with a finite value. *)
Inductive number : Type :=
  | NInt (z : Z)
  | NFloat (x : Q).

Section Routes.
(** [int(s)] for a string; [None] is [ValueError]. *)
Variable py_int : string → option Z.
(** [tmdb.get_poster_url(title, id)]; it catches its own errors. *)
Variable get_poster_url : string → Z → string.
(** [float(n)] for an [int]: the nearest float; [None] is the
    [OverflowError] of an [int] beyond the range of floats. *)
Variable float_of_int : Z → option Q.







(** [float(x)] for a number. *)
Definition py_float (x : number) : option Q :=
  match x with
  | NInt z => float_of_int z
  | NFloat x => Some x
  end.

(** [rate_movie] of the app, for a JSON body whose [score] is a
    number or missing. An exception the handler does not catch, from
    [float] or from the database, is answered with 500. *)
Definition rate_movie_route (db : Database) (uid mid : Z)
    (new_score : option number) (now : Z) : reply RatingBody * Database :=
  match new_score with
  | None => (Failure 400, db)
  | Some sent =>
      match py_float sent with
      | None => (Failure 500, db)
      | Some x =>
          match rate_movie db uid mid x now with
          | (Raised, db) => (Failure 500, db)
          | (Returned _, db) =>
              (Success {| rated_movie_id := mid; rated_score := x |}, db)
          end
      end
  end.
End Routes.

(** * Vocabulary of the properties

    The definitions below are not part of the program: they state
    what the properties are about, in the words of the
    specification where it has some. *)

(** [a] is ranked before [b]: a larger similarity, or the same
    similarity and a smaller row position. *)
Definition ranks_before (a b : nat * Q) : Prop :=
  (b.2 < a.2)%Q ∨ ((a.2 == b.2)%Q ∧ a.1 < b.1).

Definition Qsum (l : list Q) : Q := foldr Qplus 0%Q l.

(** Cosine similarity between the movies with ids [a] and [b]. *)
Definition spec_similarity (E : Engine) (a b : Z) : Q :=
  match indices_getitem (indices E) a, indices_getitem (indices E) b with
  | Scalar i, Scalar j => default 0%Q (cosine_sim E !! i ≫= (.!! j))
  | _, _ => 0%Q
  end.

(** Sum of the similarity to [c] over the preference entries that
    satisfy [cond] and whose id is in the corpus. *)
Definition spec_sum (E : Engine) (user_ratings : list (Z * Q))
    (cond : Q → bool) (c : Z) : Q :=
  Qsum ((λ p, spec_similarity E c p.1)
          <$> List.filter (λ p, cond p.2 && in_index (indices E) p.1)
                          user_ratings).

(** Liked sum minus half the disliked sum. *)
Definition spec_boost (E : Engine) (user_ratings : list (Z * Q)) (c : Z) : Q :=
  (spec_sum E user_ratings (λ score, Qle_bool (7 # 2) score) c
   - (1 # 2) * spec_sum E user_ratings (λ score, Qltb score 3) c)%Q.

(** [alpha * contentScore + (1 - alpha) * max(0, boost)] *)
Definition spec_final_score (E : Engine) (user_ratings : list (Z * Q))
    (alpha : Q) (c : Rec) : Q :=
  (alpha * (similarity_score c / 100)
   + (1 - alpha) * Qmax 0 (spec_boost E user_ratings (rec_id c)))%Q.

(** The key [hybrid_score] set to the content score itself. *)
Definition with_content_score (r : Rec) : Rec :=
  set_hybrid_score r (similarity_score r).

(** The dict without the key [hybrid_score]. *)
Definition content_view (r : Rec) : Rec :=
  {| rec_id := rec_id r;
     rec_title := rec_title r;
     rec_overview := rec_overview r;
     rec_genres := rec_genres r;
     rec_vote_average := rec_vote_average r;
     rec_popularity := rec_popularity r;
     rec_release_date := rec_release_date r;
     similarity_score := similarity_score r;
     hybrid_score := None |}.

(** "Same items, same order, same rounded scores": the hybrid result
    and the content result agree once [hybrid_score] is set aside. *)
Definition reproduces_content (h : result (option (list Rec)))
    (c : option (list Rec)) : Prop :=
  match h, c with
  | Returned (Some out), Some recs => content_view <$> out = recs
  | Returned None, None => True
  | _, _ => False
  end.

(** The list [hybrid_recommendations] returns, or the empty list. *)
Definition returned_list (h : result (option (list Rec))) : list Rec :=
  match h with Returned (Some out) => out | _ => [] end.

(** [q] occurs in [t] as a substring once both are case-folded. This
    follows the words of the specification, not the code. *)
Definition ci_substring (q t : string) : Prop :=
  ∃ pre suf,
    Re.lower <$> list_ascii_of_string t
    = pre ++ (Re.lower <$> list_ascii_of_string q) ++ suf.

Fixpoint infixb (q t : list ascii) : bool :=
  bool_decide (q `prefix_of` t)
  || match t with
     | [] => false
     | _ :: t' => infixb q t'
     end.


(** The cards of a response, none when the call did not return. *)
Definition page_cards (r : option (list Card * nat)) : list Card :=
  match r with Some (cards, _) => cards | None => [] end.







Section HeapVocabulary.
Import Heap.

(** Objects that exist when a query starts are below the boundary
    [n]; a location at or above it is fresh. A list object is fine
    when it only refers to fresh objects. *)
Definition object_ok (n : nat) (o : object) : Prop :=
  match o with
  | PyList items => Forall (λ d, n ≤ d) items
  | _ => True
  end.

Definition fresh_ok (n : nat) (h : heap) : Prop :=
  ∀ l o, n ≤ l → h !! l = Some o → object_ok n o.

(** [keeps n m Q]: run on a heap with at least [n] objects, [m]
    leaves the first [n] objects as they are whether it returns or
    raises, never shrinks the heap, and returns only values that
    satisfy [Q]. *)
Definition keeps {A} (n : nat) (m : M A) (Q : A → Prop) : Prop :=
  ∀ h, n ≤ length h → fresh_ok n h →
    take n (m h).2 = take n h
    ∧ length h ≤ length (m h).2
    ∧ fresh_ok n (m h).2
    ∧ ∀ a, (m h).1 = Returned a → Q a.

(** A returned reference, if any, is fresh. *)
Definition fresh_ref (n : nat) (o : option loc) : Prop :=
  ∀ l, o = Some l → n ≤ l.

(** [m] run on [h] returns [a] and leaves the heap [h']. *)
Definition runs {A} (m : M A) (h : heap) (a : A) (h' : heap) : Prop :=
  m h = (Returned a, h').

(** [m] run on [h] raises. *)
Definition fails {A} (m : M A) (h : heap) : Prop := (m h).1 = Raised.

(** [m] run on [h] raises and leaves the heap [h']. *)
Definition raises {A} (m : M A) (h h' : heap) : Prop := m h = (Raised, h').

(** [m] does on the heap what the optional pure result [o] says: it
    returns a value related to the result, or raises when there is
    none. *)
Definition simulates {A B} (m : M A) (h : heap) (o : option B)
    (R : A → heap → B → Prop) : Prop :=
  match o with
  | Some b => ∃ a h', runs m h a h' ∧ R a h' b
  | None => fails m h
  end.

(** The frame object at [l] has the rows [ms]; with [yr] set, its
    [_year] column has been assigned. *)
Definition frame_at (to_numeric : string → option Q) (yr : bool) (l : loc)
    (h : heap) (ms : list Movie) : Prop :=
  ∃ rows, h !! l = Some (DataFrame rows) ∧ rows.*1 = ms
          ∧ (yr = true → Forall (λ r : row, r.2 = Some (_year to_numeric r.1)) rows).

(** Every attribute of [s] points below [n]. *)
Definition engine_below (s : self) (n : nat) : Prop :=
  self_movies_df s < n ∧ self_cosine_sim s < n
  ∧ self_indices s < n ∧ self_tfidf_matrix s < n.

(** The list [items] refers to dicts holding [recs]. *)
Definition dicts_at (h : heap) (items : list loc) (recs : list Rec) : Prop :=
  Forall2 (λ d r, h !! d = Some (PyDict r)) items recs.

End HeapVocabulary.

(** ** Metadata cells and the user database *)

(** The name an entry of a metadata list carries: the entry is a
    dict whose [name] is a string. *)
Definition entry_name (item : json) : option string :=
  match getitem_name item with
  | Some (JStr s) => Some s
  | _ => None
  end.

(** The states of the database a run of the server can reach: one
    mutating method of [Database] after another, from empty tables,
    with whatever arguments, clock readings and salts. *)
Inductive db_step (sha256_hex : string → string) (db : Database)
  : Database → Prop :=
  | step_create_user name mail password token :
      db_step sha256_hex db
              (create_user sha256_hex db name mail password token).2
  | step_add_to_watchlist uid mid now :
      db_step sha256_hex db (add_to_watchlist db uid mid now).2
  | step_remove_from_watchlist uid mid :
      db_step sha256_hex db (remove_from_watchlist db uid mid).2
  | step_rate_movie uid mid new_score now :
      db_step sha256_hex db (rate_movie db uid mid new_score now).2
  | step_track_view uid mid now :
      db_step sha256_hex db (track_view db uid mid now).

Definition reachable (sha256_hex : string → string) (db : Database) : Prop :=
  rtc (db_step sha256_hex) empty_database db.

(** What the unique constraints of the tables and the clamp of
    [rate_movie] promise. *)
Definition rating_key (r : Rating) : Z * Z :=
  (rating_user_id r, rating_movie_id r).

Definition watchlist_key (e : Watchlist) : Z * Z :=
  (watchlist_user_id e, watchlist_movie_id e).

Record db_ok (db : Database) : Prop := mk_db_ok {
  ok_usernames : NoDup (username <$> users db);
  ok_emails : NoDup (email <$> users db);
  ok_user_ids : NoDup (user_id <$> users db);
  ok_user_ids_positive : Forall (λ u, (0 < user_id u)%Z) (users db);
  ok_watchlist : NoDup (watchlist_key <$> watchlist db);
  ok_ratings : NoDup (rating_key <$> ratings db);
  ok_scores : Forall (λ r, 1 <= score r <= 5)%Q (ratings db)
}.

(** * Example corpora *)

Definition demo_movie (mid : Z) (name : string) (votes : Z) (rating pop : Q)
  : Movie :=
  {| movie_id := mid; title := name; overview := "A film.";
     genres := "[{'id': 18, 'name': 'Drama'}]"; genres_display := "Drama";
     vote_average := rating; vote_count := votes; popularity := pop;
     release_date := Some "2009-12-10"; revenue := 1000;
     runtime := Some 120%Q |}.

(** Two movies with the same soup: every similarity is 1. *)
Definition twin_engine : Engine :=
  _build_model [demo_movie 10 "Up" 900 (79 # 10) 50;
                demo_movie 20 "Heat" 700 (77 # 10) 40]
               [[1; 1]; [1; 1]]%Q.

(** A corpus of one movie. *)
Definition single_engine : Engine :=
  _build_model [demo_movie 10 "Up" 900 (79 # 10) 50] [[1%Q]].

(** Three movies with pairwise different similarities. *)
Definition trio_engine : Engine :=
  _build_model [demo_movie 10 "Up" 900 (79 # 10) 50;
                demo_movie 20 "Heat" 700 (77 # 10) 40;
                demo_movie 30 "Ran" 300 (81 # 10) 20]
               [[1; 1 # 2; 1 # 4]; [1 # 2; 1; 1 # 3]; [1 # 4; 1 # 3; 1]]%Q.

(** Ratings: one liked neighbour, one disliked, one id not in the
    corpus. *)
Definition demo_ratings : list (Z * Q) :=
  [(20%Z, 5%Q); (30%Z, 1%Q); (99%Z, 4%Q)].

(** The four attributes of the demo instance and a heap that holds an
    engine behind them. *)
Definition demo_self : Heap.self := Heap.mkSelf 0 1 2 3.

Definition demo_heap (E : Engine) : list Heap.object :=
  [Heap.DataFrame ((λ m, (m, None)) <$> movies_df E);
   Heap.Ndarray (cosine_sim E);
   Heap.Series (indices E);
   Heap.SparseMatrix].

(** A library that knows one pattern outside the written-out
    fragment, and a sort that leaves equal cells in frame order. *)
Definition demo_re_library (pat : string) : option (string → bool) :=
  if String.eqb pat "^" then Some (λ _, true) else None.

Definition demo_tie_rank (values : list cell) (i : nat) : nat := i.

Definition demo_py_int (s : string) : option Z :=
  if String.eqb s "2009" then Some 2009%Z else None.

Definition demo_to_numeric (s : string) : option Q :=
  if String.eqb s "2009" then Some 2009%Q
  else if String.eqb s "1995" then Some 1995%Q
  else None.

Definition demo_genre_names (s : string) : list string :=
  if String.eqb s "[{'id': 18, 'name': 'Drama'}]" then ["Drama"%string] else [].

(** A filter call that assigns the [_year] column. *)
Definition demo_filter : Heap.query :=
  Heap.Filter (Some "drama"%string) 0 10 (AStr "2009") ANone ANone (AInt 130)
              "title" "asc" 2 0.

(** A corpus in which one id labels two rows, as the merge on the
    title leaves it when the credits file has two rows for a title. *)
Definition reissue_engine : Engine :=
  _build_model [demo_movie 10 "Up" 900 (79 # 10) 50;
                demo_movie 20 "Heat" 700 (77 # 10) 40;
                demo_movie 20 "Heat" 700 (77 # 10) 40]
               [[1; 1 # 2; 1 # 2]; [1 # 2; 1; 1]; [1 # 2; 1; 1]]%Q.

(** A cast cell whose third entry is not a dict, and a decoder that
    knows this cell. *)
Definition demo_cast : string :=
  "[{'name': 'Tom Hanks'}, {'name': 'Tim Allen'}, 7]".

Definition demo_crew : string :=
  "[{'job': 'Producer', 'name': 'A'}, {'job': 'Director', 'name': 'B'}, 7]".

Definition demo_json_loads (s : string) : option json :=
  if String.eqb s (str_replace apostrophe double_quote demo_cast) then
    Some (JList [JDict [("name"%string, JStr "Tom Hanks")];
                 JDict [("name"%string, JStr "Tim Allen")];
                 JNum 7])
  else if String.eqb s (str_replace apostrophe double_quote demo_crew) then
    Some (JList [JDict [("job"%string, JStr "Producer");
                        ("name"%string, JStr "A")];
                 JDict [("job"%string, JStr "Director");
                        ("name"%string, JStr "B")];
                 JNum 7])
  else if String.eqb s
            (str_replace apostrophe double_quote
               "[{'id': 18, 'name': 'Drama'}]") then
    Some (JList [JDict [("id"%string, JNum 18); ("name"%string, JStr "Drama")]])
  else None.

(** Example data for the database. *)
Definition demo_sha256 (s : string) : string := ("h(" +:+ s +:+ ")")%string.

Definition demo_database : Database :=
  (rate_movie
     (track_view
        (add_to_watchlist
           (create_user demo_sha256 empty_database "ann" "ann@example.org"
                        "secret" "salt").2
           1 20 100).2
        1 20 101)
     1 20 (9 # 2) 102).2.


(** * Properties *)

(** ** Slices *)

Section SliceFacts.
Context {A : Type}.
Implicit Types l : list A.

Lemma slice_bound_nonneg len i :
  (0 ≤ i)%Z → slice_bound len i = Z.to_nat i `min` len.
Proof. unfold slice_bound. intros Hi. destruct (Z.ltb_spec i 0); lia. Qed.

(** With bounds that are not negative a slice is [take] after [drop]. *)
Lemma slice_nonneg l start stop :
  (0 ≤ start)%Z → (0 ≤ stop)%Z →
  slice l start stop = take (Z.to_nat stop - Z.to_nat start) (drop (Z.to_nat start) l).
Proof.
  intros Hs He. unfold slice. rewrite !slice_bound_nonneg by done.
  destruct (decide (length l ≤ Z.to_nat start)) as [Hge|Hlt].
  - rewrite !drop_ge by lia. by rewrite !take_nil.
  - rewrite (Nat.min_l (Z.to_nat start)) by lia.
    destruct (decide (Z.to_nat stop ≤ length l)) as [Hle|Hgt].
    + by rewrite Nat.min_l by lia.
    + rewrite Nat.min_r by lia.
      rewrite !take_ge; [done | rewrite length_drop; lia ..].
Qed.

Lemma slice_from_0 l stop : (0 ≤ stop)%Z → slice l 0 stop = take (Z.to_nat stop) l.
Proof.
  intros. rewrite slice_nonneg by lia. simpl. by rewrite Nat.sub_0_r.
Qed.

Lemma slice_length_le l start stop :
  (0 ≤ start)%Z → (start ≤ stop)%Z →
  length (slice l start stop) ≤ Z.to_nat (stop - start).
Proof.
  intros. rewrite slice_nonneg by lia. rewrite length_take. lia.
Qed.

Lemma slice_sublist l start stop : slice l start stop `sublist_of` l.
Proof.
  unfold slice. etrans; [apply sublist_take | apply sublist_drop].
Qed.

End SliceFacts.

(** ** The stable sort *)

Section SortFacts.
Context {A K : Type} (ltb : K → K → bool) (key : A → K).
Implicit Types l : list A.

Lemma insert_stable_perm reverse x l :
  insert_stable ltb key reverse x l ≡ₚ x :: l.
Proof.
  induction l as [|y l IH]; simpl; [done|].
  case_match; [|done]. rewrite IH. apply Permutation_swap.
Qed.

Lemma sorted_perm reverse l : sorted ltb key reverse l ≡ₚ l.
Proof.
  induction l as [|x l IH]; simpl; [done|].
  rewrite insert_stable_perm. by rewrite IH.
Qed.

Lemma sorted_length reverse l : length (sorted ltb key reverse l) = length l.
Proof. by rewrite sorted_perm. Qed.

(** An element that nothing has to precede stays in front. *)
Lemma insert_stable_front reverse x l :
  Forall (λ y, precedes ltb key reverse y x = false) l →
  insert_stable ltb key reverse x l = x :: l.
Proof. destruct 1 as [|y l Hy _]; simpl; [done|]. by rewrite Hy. Qed.

(** Sorting a list that is already in order changes nothing. *)
Lemma sorted_id reverse l :
  StronglySorted (λ x y, precedes ltb key reverse y x = false) l →
  sorted ltb key reverse l = l.
Proof.
  induction 1 as [|x l Hl IH Hx]; simpl; [done|].
  rewrite IH. by apply insert_stable_front.
Qed.

(** Stability: when the input is strictly ordered by [first] (its
    position), the output is ordered by the key and, among equal
    keys, by [first]. *)
Section Stable.
Variable first : relation A.
Variable reverse : bool.
Hypothesis ltb_trans : ∀ a b c, ltb a b = true → ltb b c = true → ltb a c = true.
Hypothesis ltb_neg_trans :
  ∀ a b c, ltb a b = false → ltb b c = false → ltb a c = false.

Lemma precedes_trans a b c :
  precedes ltb key reverse a b = true → precedes ltb key reverse b c = true →
  precedes ltb key reverse a c = true.
Proof. unfold precedes. destruct reverse; eauto. Qed.

Lemma precedes_neg_trans a b c :
  precedes ltb key reverse a b = false → precedes ltb key reverse b c = false →
  precedes ltb key reverse a c = false.
Proof. unfold precedes. destruct reverse; eauto. Qed.

Lemma insert_stable_ranked x l :
  Forall (first x) l →
  StronglySorted (ranked_before ltb key first reverse) l →
  StronglySorted (ranked_before ltb key first reverse) (insert_stable ltb key reverse x l).
Proof.
  intros Hx Hl. induction Hl as [|y l Hl IH Hy]; simpl.
  { repeat constructor. }
  apply Forall_cons in Hx as [Hxy Hxl].
  destruct (precedes ltb key reverse y x) eqn:Hyx.
  - constructor; [by apply IH|].
    rewrite insert_stable_perm. constructor; [by left | done].
  - constructor; [by constructor|].
    constructor; [right; done|].
    rewrite Forall_forall in Hy, Hxl. apply Forall_forall. intros z Hz.
    destruct (Hy z Hz) as [Hyz | [Hzy Hfirst]].
    + destruct (precedes ltb key reverse x z) eqn:Hxz; [by left|].
      right. split; [|by apply Hxl].
      destruct (precedes ltb key reverse z x) eqn:Hzx; [|done].
      by rewrite (precedes_trans _ _ _ Hyz Hzx) in Hyx.
    + right. split; [|by apply Hxl]. by eapply precedes_neg_trans.
Qed.

Lemma sorted_ranked l :
  StronglySorted first l →
  StronglySorted (ranked_before ltb key first reverse) (sorted ltb key reverse l).
Proof.
  induction 1 as [|x l Hl IH Hx]; simpl; [constructor|].
  apply insert_stable_ranked; [|done]. by rewrite sorted_perm.
Qed.
End Stable.
End SortFacts.

(** ** Rational comparisons and rounding *)

Lemma Qltb_lt a b : Qltb a b = true ↔ (a < b)%Q.
Proof.
  unfold Qltb. rewrite negb_true_iff, <- not_true_iff_false, Qle_bool_iff.
  split; [apply Qnot_le_lt | apply Qlt_not_le].
Qed.

Lemma Qltb_ge a b : Qltb a b = false ↔ (b <= a)%Q.
Proof. unfold Qltb. by rewrite negb_false_iff, Qle_bool_iff. Qed.

Lemma Qltb_trans a b c : Qltb a b = true → Qltb b c = true → Qltb a c = true.
Proof. rewrite !Qltb_lt. apply Qlt_trans. Qed.

Lemma Qltb_neg_trans a b c :
  Qltb a b = false → Qltb b c = false → Qltb a c = false.
Proof. rewrite !Qltb_ge. intros. by eapply Qle_trans. Qed.

Lemma round_half_even_range q :
  round_half_even q = Qfloor q ∨ round_half_even q = (Qfloor q + 1)%Z.
Proof. unfold round_half_even. repeat case_match; auto. Qed.

Lemma round_half_even_comp q q' :
  (q == q')%Q → round_half_even q = round_half_even q'.
Proof.
  intros Heq. unfold round_half_even.
  rewrite (Qfloor_comp _ _ Heq).
  assert ((q - inject_Z (Qfloor q') ?= 1 # 2) = (q' - inject_Z (Qfloor q') ?= 1 # 2))%Q
    as -> by (by rewrite Heq).
  done.
Qed.

Lemma round_half_even_mono q q' :
  (q <= q')%Q → (round_half_even q ≤ round_half_even q')%Z.
Proof.
  intros Hle. pose proof (Qfloor_resp_le _ _ Hle) as Hfl.
  destruct (decide (Qfloor q = Qfloor q')) as [Heq|Hne].
  - unfold round_half_even. rewrite <- Heq.
    set (f := inject_Z (Qfloor q)).
    assert (q - f <= q' - f)%Q as Hd.
    { lra. }
    destruct (Qcompare_spec (q - f) (1 # 2)) as [H1|H1|H1];
      destruct (Qcompare_spec (q' - f) (1 # 2)) as [H2|H2|H2];
      try case_match; try lia; exfalso; lra.
  - destruct (round_half_even_range q), (round_half_even_range q'); lia.
Qed.

Lemma round_half_even_inject z : round_half_even (inject_Z z) = z.
Proof.
  unfold round_half_even. rewrite Qfloor_Z.
  assert ((inject_Z z - inject_Z z ?= 1 # 2) = Lt)%Q as ->; [|done].
  apply (proj1 (Qlt_alt _ _)). lra.
Qed.

Lemma round2_comp q q' : (q == q')%Q → round2 q = round2 q'.
Proof.
  intros Heq. unfold round2. f_equal. apply round_half_even_comp.
  by rewrite Heq.
Qed.

Lemma round2_mono q q' : (q <= q')%Q → (round2 q <= round2 q')%Q.
Proof.
  intros Hle. unfold round2, Qle. simpl.
  apply Z.mul_le_mono_nonneg_r; [lia|].
  apply round_half_even_mono. by apply Qmult_le_compat_r.
Qed.

(** A value with two decimals is its own rounding. *)
Lemma round2_hundredths z : round2 (z # 100) = (z # 100)%Q.
Proof.
  unfold round2. f_equal.
  rewrite <- (round_half_even_inject z) at 2.
  apply round_half_even_comp.
  unfold Qeq. simpl. lia.
Qed.

Lemma round2_round2 q : round2 (round2 q) = round2 q.
Proof. apply round2_hundredths. Qed.

(** ** The index built by [_build_model] *)

Lemma build_indices_labels df : (build_indices df).*1 = movie_id <$> df.
Proof.
  unfold build_indices. apply fst_zip.
  by rewrite length_seq, length_fmap.
Qed.

Lemma in_index_build df mid :
  in_index (build_indices df) mid = true ↔ mid ∈ movie_id <$> df.
Proof.
  unfold in_index. by rewrite build_indices_labels, bool_decide_eq_true.
Qed.

Lemma filter_none {A} (P : A → Prop) `{!∀ x, Decision (P x)} (l : list A) :
  (∀ x, x ∈ l → ¬ P x) → filter P l = [].
Proof.
  induction l as [|x l IH]; intros Hl; [done|].
  rewrite filter_cons_False by (apply Hl; left).
  apply IH. intros y Hy. apply Hl. by right.
Qed.

Lemma indices_getitem_absent ix mid :
  mid ∉ ix.*1 → indices_getitem ix mid = KeyError.
Proof.
  intros Hnot. unfold indices_getitem.
  assert (filter (λ p : Z * nat, p.1 = mid) ix = []) as ->; [|done].
  apply filter_none. intros [x i] Hin Heq; simpl in Heq; subst.
  apply Hnot. by apply (list_elem_of_fmap_2 fst) in Hin.
Qed.

Lemma in_index_false_absent ix mid :
  in_index ix mid = false → indices_getitem ix mid = KeyError.
Proof.
  intros H%bool_decide_eq_false. by apply indices_getitem_absent.
Qed.

Lemma filter_zip_absent (ids : list Z) (poss : list nat) mid :
  mid ∉ ids → filter (λ p : Z * nat, p.1 = mid) (zip ids poss) = [].
Proof.
  intros Hnot. apply filter_none. intros [x i] Hin Heq; simpl in Heq; subst.
  apply Hnot. by eapply elem_of_zip_l.
Qed.

Lemma filter_zip_unique (ids : list Z) start i mid :
  NoDup ids → ids !! i = Some mid →
  filter (λ p : Z * nat, p.1 = mid) (zip ids (seq start (length ids)))
  = [(mid, start + i)].
Proof.
  intros Hnd. revert start i.
  induction Hnd as [|y ids Hy Hnd IH]; intros start i Hi; [done|].
  simpl. destruct i as [|i]; simplify_eq/=.
  - rewrite filter_cons_True by done.
    rewrite filter_zip_absent by done. by rewrite Nat.add_0_r.
  - rewrite filter_cons_False.
    + rewrite (IH (S start) i) by done. do 2 f_equal. lia.
    + simpl. intros ->. apply Hy. by eapply list_elem_of_lookup_2.
Qed.

(** With pairwise distinct ids, an id is looked up to the position of
    its row. *)
Lemma indices_getitem_build df i m :
  NoDup (movie_id <$> df) → df !! i = Some m →
  indices_getitem (build_indices df) (movie_id m) = Scalar i.
Proof.
  intros Hnd Hi. unfold indices_getitem, build_indices.
  rewrite <- (length_fmap movie_id df).
  rewrite (filter_zip_unique _ 0 i) by (by rewrite ?list_lookup_fmap, ?Hi).
  done.
Qed.

Lemma indices_getitem_present df mid :
  NoDup (movie_id <$> df) → in_index (build_indices df) mid = true →
  ∃ i m, df !! i = Some m ∧ movie_id m = mid
         ∧ indices_getitem (build_indices df) mid = Scalar i.
Proof.
  intros Hnd Hin%in_index_build.
  apply list_elem_of_fmap in Hin as (m & -> & Hm).
  apply list_elem_of_lookup in Hm as [i Hi].
  exists i, m. split_and!; [done..|]. by apply indices_getitem_build.
Qed.

(** ** Ranking a row of the similarity matrix *)

Lemma StronglySorted_impl {A} (R1 R2 : relation A) l :
  (∀ x y, R1 x y → R2 x y) → StronglySorted R1 l → StronglySorted R2 l.
Proof.
  intros HR. induction 1 as [|x l _ IH Hx]; constructor; [done|].
  eapply Forall_impl; eauto.
Qed.

Lemma StronglySorted_take {A} (R : relation A) n l :
  StronglySorted R l → StronglySorted R (take n l).
Proof.
  rewrite <- (take_drop n l) at 1. apply StronglySorted_app_1_l.
Qed.

Lemma StronglySorted_drop {A} (R : relation A) n l :
  StronglySorted R l → StronglySorted R (drop n l).
Proof.
  rewrite <- (take_drop n l) at 1. apply StronglySorted_app_1_r.
Qed.

Lemma StronglySorted_slice {A} (R : relation A) (l : list A) start stop :
  StronglySorted R l → StronglySorted R (slice l start stop).
Proof. intros. unfold slice. by apply StronglySorted_take, StronglySorted_drop. Qed.

Lemma enumerate_from_sorted {A} (l : list A) start :
  StronglySorted (λ a b : nat * A, a.1 < b.1) (zip (seq start (length l)) l).
Proof.
  revert start. induction l as [|x l IH]; intros start; simpl; constructor.
  - apply IH.
  - apply Forall_forall. intros [j y] Hin. simpl.
    apply elem_of_zip_l, elem_of_seq in Hin. lia.
Qed.

Lemma enumerate_sorted {A} (l : list A) :
  StronglySorted (λ a b : nat * A, a.1 < b.1) (enumerate l).
Proof. apply enumerate_from_sorted. Qed.

Lemma enumerate_length {A} (l : list A) : length (enumerate l) = length l.
Proof. unfold enumerate. rewrite length_zip, length_seq. lia. Qed.

Lemma enumerate_elem_of {A} (l : list A) i x :
  (i, x) ∈ enumerate l → l !! i = Some x.
Proof.
  unfold enumerate. intros Hin.
  apply list_elem_of_lookup in Hin as [j Hj].
  apply lookup_zip_with_Some in Hj as (i' & x' & [= <- <-] & Hseq & Hl).
  apply lookup_seq in Hseq as [-> _]. done.
Qed.

Lemma sorted_enumerate_ranks row :
  StronglySorted ranks_before (sorted Qltb snd true (enumerate row)).
Proof.
  eapply StronglySorted_impl;
    [|apply (sorted_ranked Qltb snd (λ a b, a.1 < b.1) true);
      [apply Qltb_trans | apply Qltb_neg_trans | apply enumerate_sorted]].
  intros a b [Hlt | [Hge Hidx]]; unfold precedes in *.
  - left. by apply Qltb_lt.
  - apply Qltb_ge in Hge. destruct (Qle_lt_or_eq _ _ Hge) as [Hlt | Heq].
    + by left.
    + right. split; [by symmetry | done].
Qed.

(** The ranked pairs are in descending order of similarity, ties in
    ascending order of row position. *)
Lemma ranked_sorted row top_n : StronglySorted ranks_before (ranked row top_n).
Proof. apply StronglySorted_slice, sorted_enumerate_ranks. Qed.

Lemma ranked_take row top_n :
  (0 ≤ top_n)%Z →
  ranked row top_n
  = take (Z.to_nat top_n) (drop 1 (sorted Qltb snd true (enumerate row))).
Proof.
  intros. unfold ranked. rewrite slice_nonneg by lia. f_equal. lia.
Qed.

(** At most [top_n] pairs, and all but one of the row when the row is
    short. *)
Lemma ranked_length row top_n :
  (0 ≤ top_n)%Z →
  length (ranked row top_n) = Z.to_nat top_n `min` (length row - 1).
Proof.
  intros. rewrite ranked_take by done.
  by rewrite length_take, length_drop, sorted_length, enumerate_length.
Qed.

Lemma ranked_prefix row top_n :
  (0 ≤ top_n)%Z →
  ranked row top_n = take (Z.to_nat top_n) (ranked row (top_n * 3)).
Proof.
  intros. rewrite !ranked_take by lia. rewrite take_take. f_equal. lia.
Qed.

Lemma ranked_in_row row top_n i s :
  (i, s) ∈ ranked row top_n → row !! i = Some s.
Proof.
  intros Hin. apply enumerate_elem_of.
  rewrite <- (sorted_perm Qltb snd true).
  eapply elem_of_sublist; [done | apply slice_sublist].
Qed.

Lemma enumerate_fst {A} (l : list A) : (enumerate l).*1 = seq 0 (length l).
Proof. unfold enumerate. apply fst_zip. by rewrite length_seq. Qed.

Lemma enumerate_lookup {A} (l : list A) i x :
  l !! i = Some x → (i, x) ∈ enumerate l.
Proof.
  intros Hi. unfold enumerate. apply list_elem_of_lookup. exists i.
  apply lookup_zip_with_Some. exists i, x. split_and!; [done| |done].
  apply lookup_seq. split; [done|]. by eapply lookup_lt_Some.
Qed.

(** When the similarity of the query row to itself is strictly the
    largest of its row, the dropped first entry is the query row and
    no ranked pair names it. *)
Lemma ranked_excludes_strict_max row idx s top_n :
  row !! idx = Some s →
  (∀ j t, j ≠ idx → row !! j = Some t → (t < s)%Q) →
  ∀ e, e ∈ ranked row top_n → e.1 ≠ idx.
Proof.
  intros Hidx Hmax [j t] He. simpl. intros ->.
  pose proof (sorted_enumerate_ranks row) as Hsorted.
  pose proof (sorted_perm Qltb snd true (enumerate row)) as Hperm.
  assert (NoDup (sorted Qltb snd true (enumerate row)).*1) as Hnd.
  { rewrite Hperm, enumerate_fst. apply NoDup_seq. }
  assert ((idx, s) ∈ sorted Qltb snd true (enumerate row)) as Hin.
  { rewrite Hperm. by apply enumerate_lookup. }
  unfold ranked, slice in He.
  eapply elem_of_sublist in He; [|apply sublist_take].
  destruct (sorted Qltb snd true (enumerate row)) as [|[j' t'] S] eqn:HS;
    [by apply elem_of_nil in Hin|].
  assert (slice_bound (length ((j', t') :: S)) 1 = 1) as Hb.
  { unfold slice_bound. simpl. lia. }
  rewrite Hb in He. simpl in He.
  apply StronglySorted_inv in Hsorted as [_ Hhead].
  apply NoDup_cons in Hnd as [Hnot _]. simpl in Hnot.
  assert (row !! j' = Some t') as Hj'.
  { apply enumerate_elem_of. rewrite <- Hperm. left. }
  destruct (decide (j' = idx)) as [->|Hne].
  - apply Hnot. by apply (list_elem_of_fmap_2 fst) in He.
  - apply elem_of_cons in Hin as [[= -> ->] | Hin]; [done|].
    rewrite Forall_forall in Hhead. specialize (Hhead _ Hin).
    pose proof (Hmax j' t' Hne Hj') as Hlt.
    destruct Hhead as [Hgt | [Heq _]]; simpl in *.
    + by apply (Qlt_irrefl s), (Qlt_trans _ t').
    + rewrite Heq in Hlt. by apply Qlt_irrefl in Hlt.
Qed.

(** ** Content recommendations *)

Lemma get_recommendations_Some E mid top_n recs :
  get_recommendations E mid top_n = Some recs →
  ∃ idx row,
    indices_getitem (indices E) mid = Scalar idx
    ∧ cosine_sim E !! idx = Some row
    ∧ mapM (recommendation_at E) (ranked row top_n) = Some recs.
Proof.
  unfold get_recommendations. intros H.
  destruct (indices_getitem (indices E) mid) as [|idx|]; try done.
  destruct (cosine_sim E !! idx) as [row|] eqn:Hrow; [|done].
  by exists idx, row.
Qed.

Lemma mapM_take {A B} (f : A → option B) n l k :
  mapM f l = Some k → mapM f (take n l) = Some (take n k).
Proof. rewrite !mapM_Some. apply Forall2_take. Qed.

(** The list for [top_n] is the head of the list for [top_n * 3]. *)
Lemma get_recommendations_prefix E mid top_n pool :
  (0 ≤ top_n)%Z →
  get_recommendations E mid (top_n * 3) = Some pool →
  get_recommendations E mid top_n = Some (take (Z.to_nat top_n) pool).
Proof.
  intros Hk (idx & row & Hidx & Hrow & Hpool)%get_recommendations_Some.
  unfold get_recommendations. rewrite Hidx, Hrow. simpl.
  rewrite ranked_prefix by done. by apply mapM_take.
Qed.

(** What holds of every returned list: its entries are the ranked
    pairs of the row of the query, in descending order of similarity
    with ties in ascending order of row position; there are at most
    [top_n] of them, and as many as the row has entries besides the
    dropped first one when that is fewer. *)
Lemma get_recommendations_order E mid top_n recs :
  (1 ≤ top_n)%Z →
  get_recommendations E mid top_n = Some recs →
  ∃ idx row entries,
    indices_getitem (indices E) mid = Scalar idx
    ∧ cosine_sim E !! idx = Some row
    ∧ Forall2 (λ e r, recommendation_at E e = Some r) entries recs
    ∧ StronglySorted ranks_before entries
    ∧ (∀ i s, (i, s) ∈ entries → row !! i = Some s)
    ∧ length recs = Z.to_nat top_n `min` (length row - 1)
    ∧ length recs ≤ Z.to_nat top_n.
Proof.
  intros Hk (idx & row & Hidx & Hrow & Hm%mapM_Some)%get_recommendations_Some.
  exists idx, row, (ranked row top_n).
  assert (length recs = Z.to_nat top_n `min` (length row - 1)) as Hlen.
  { rewrite <- (Forall2_length _ _ _ Hm). apply ranked_length. lia. }
  split_and!; [done | done | done | apply ranked_sorted | | done | lia].
  intros i s. apply ranked_in_row.
Qed.

(** In a built engine with a square matrix every ranked pair names a
    row of the frame, so the call returns a list. *)
Lemma get_recommendations_build df sim idx m top_n :
  NoDup (movie_id <$> df) → square (length df) sim → df !! idx = Some m →
  ∃ row recs,
    sim !! idx = Some row
    ∧ mapM (recommendation_at (_build_model df sim)) (ranked row top_n) = Some recs
    ∧ get_recommendations (_build_model df sim) (movie_id m) top_n = Some recs.
Proof.
  intros Hnd [Hrows Hcols] Hidx.
  destruct (sim !! idx) as [row|] eqn:Hrow.
  2: { apply lookup_ge_None in Hrow. apply lookup_lt_Some in Hidx. lia. }
  assert (length row = length df) as Hlen.
  { rewrite Forall_forall in Hcols. eapply Hcols, list_elem_of_lookup_2, Hrow. }
  assert (is_Some (mapM (recommendation_at (_build_model df sim))
                        (ranked row top_n))) as [recs Hrecs].
  { apply mapM_is_Some, Forall_forall. intros [i s] Hin. simpl.
    apply ranked_in_row, lookup_lt_Some in Hin.
    unfold recommendation_at. simpl.
    destruct (lookup_lt_is_Some_2 df i) as [m' ->]; [lia|]. by eexists. }
  exists row, recs. split_and!; [done..|].
  unfold get_recommendations. simpl.
  rewrite (indices_getitem_build df idx m) by done. simpl.
  by rewrite Hrow.
Qed.

(** A known id in a corpus of one movie has no neighbour. *)
Lemma single_engine_empty top_n :
  get_recommendations single_engine 10 top_n = Some [].
Proof.
  unfold get_recommendations.
  change (indices_getitem (indices single_engine) 10) with (Scalar 0).
  change (cosine_sim single_engine !! 0) with (Some [1%Q]).
  simpl. unfold ranked.
  change (sorted Qltb snd true (enumerate [1%Q])) with [(0, 1%Q)].
  unfold slice. change (slice_bound (length [(0, 1%Q)]) 1) with 1. simpl.
  by rewrite take_nil.
Qed.

(** C1 (the code departs from the claim). The first entry of the
    sorted row is dropped, whichever row it belongs to: asking for
    the neighbours of the second twin (id 20) drops the first twin,
    which ties with it and comes earlier, and recommends movie 20 to
    itself. *)
Theorem get_recommendations_returns_query_item :
  ∃ recs, get_recommendations twin_engine 20 1 = Some recs
          ∧ rec_id <$> recs = [20%Z].
Proof. eexists. split; [vm_compute; reflexivity | reflexivity]. Qed.

(** C2 (the code departs from the claim). With two movies and
    [top_n = 2] the corpus has fewer than [top_n + 1] items, yet the
    only neighbour of movie 20, movie 10, is not returned: it is the
    dropped first entry, and movie 20 is returned in its place. *)
Theorem get_recommendations_misses_neighbour :
  ∃ recs, get_recommendations twin_engine 20 2 = Some recs
          ∧ 10%Z ∉ rec_id <$> recs.
Proof.
  eexists. split; [vm_compute; reflexivity|].
  simpl. intros Hin. apply list_elem_of_singleton in Hin. discriminate.
Qed.

(** C3. An id that is not a label of the index makes
    [get_recommendations] return [None], which differs from every
    returned list, the empty one included; and an empty list is what
    a known id with no neighbour gets. *)
Theorem get_recommendations_unknown_id E mid top_n :
  mid ∉ (indices E).*1 →
  get_recommendations E mid top_n = None
  ∧ (∀ recs, get_recommendations E mid top_n ≠ Some recs)
  ∧ get_recommendations single_engine 10 top_n = Some [].
Proof.
  intros Hnot. unfold get_recommendations at 1 2.
  rewrite indices_getitem_absent by done. split_and!; [done..|].
  apply single_engine_empty.
Qed.

Lemma get_recommendations_unknown_id_witness :
  get_recommendations trio_engine 40 5 = None
  ∧ (∀ recs, get_recommendations trio_engine 40 5 ≠ Some recs)
  ∧ get_recommendations single_engine 10 5 = Some [].
Proof.
  apply (get_recommendations_unknown_id trio_engine 40 5).
  vm_compute. intros Hin.
  repeat (apply elem_of_cons in Hin as [Hin | Hin]; [discriminate|]).
  by apply elem_of_nil in Hin.
Defined.

(** ** Hybrid recommendations *)

Lemma mapM_Returned_fmap {A B} (f : A → result B) (g : A → B) (l : list A) :
  (∀ x, x ∈ l → f x = Returned (g x)) → mapM f l = Returned (g <$> l).
Proof.
  induction l as [|x l IH]; intros Hf; [done|].
  simpl. rewrite (Hf x) by left. simpl.
  rewrite IH; [done|]. intros y Hy. apply Hf. by right.
Qed.

Lemma mapM_Returned_Forall2 {A B} (f : A → result B) (l : list A) (k : list B) :
  mapM f l = Returned k → Forall2 (λ x y, f x = Returned y) l k.
Proof.
  revert k. induction l as [|x l IH]; intros k Hk; simpl in Hk.
  - injection Hk as <-. constructor.
  - destruct (f x) as [y|] eqn:Hy; [|done]. simpl in Hk.
    destruct (mapM f l) as [k'|]; [|done]. simpl in Hk.
    injection Hk as <-. constructor; [done | by apply IH].
Qed.

(** Scoring a candidate only fills in its [hybrid_score]. *)
Lemma score_rec_Returned E alpha liked disliked c r :
  score_rec E alpha liked disliked c = Returned r →
  ∃ s, r = set_hybrid_score c s.
Proof.
  unfold score_rec. destruct (collab_boost _ _ _ _) as [b|]; [|done].
  simpl. intros [= <-]. by eexists.
Qed.

(** What [hybrid_recommendations] returns is cut out of the scored
    candidate pool. *)
Lemma hybrid_recommendations_Some E mid user_ratings top_n alpha out :
  hybrid_recommendations E mid user_ratings top_n alpha = Returned (Some out) →
  ∃ pool scored,
    get_recommendations E mid (top_n * 3) = Some pool
    ∧ Forall2 (λ c r, score_rec E alpha (liked_ids user_ratings)
                        (disliked_ids user_ratings) c = Returned r) pool scored
    ∧ out = slice (sorted Qltb hybrid_key true scored) 0 top_n.
Proof.
  unfold hybrid_recommendations.
  destruct (get_recommendations E mid (top_n * 3)) as [[|c pool]|]; try done.
  destruct (mapM _ (c :: pool)) as [scored|] eqn:Hscored; [|done].
  simpl. intros [= <-]. exists (c :: pool), scored.
  split_and!; [done | by apply mapM_Returned_Forall2 | done].
Qed.

(** C10. Whatever the ratings and the weight, a list returned by
    [hybrid_recommendations] has at most [top_n] entries, and each is
    a member of the content list for [top_n * 3] with a hybrid score
    attached; no other movie can appear. *)
Theorem hybrid_recommendations_within_pool E mid user_ratings top_n alpha out :
  (1 ≤ top_n)%Z →
  hybrid_recommendations E mid user_ratings top_n alpha = Returned (Some out) →
  length out ≤ Z.to_nat top_n
  ∧ ∃ pool, get_recommendations E mid (top_n * 3) = Some pool
            ∧ length pool ≤ Z.to_nat (top_n * 3)
            ∧ ∀ r, r ∈ out →
                   ∃ c s, c ∈ pool ∧ r = set_hybrid_score c s
                          ∧ rec_id r = rec_id c.
Proof.
  intros Hk (pool & scored & Hpool & Hscored & ->)%hybrid_recommendations_Some.
  split.
  { rewrite slice_from_0 by lia. rewrite length_take. lia. }
  exists pool. split; [done|]. split.
  { apply get_recommendations_Some in Hpool as (idx & row & _ & _ & Hm).
    apply mapM_Some, Forall2_length in Hm.
    rewrite <- Hm, ranked_length by lia. lia. }
  intros r Hr.
  eapply elem_of_sublist in Hr; [|apply slice_sublist].
  rewrite sorted_perm in Hr.
  apply list_elem_of_lookup in Hr as [i Hi].
  destruct (Forall2_lookup_r _ _ _ _ _ Hscored Hi) as (c & Hc & Hcr).
  apply score_rec_Returned in Hcr as [s ->].
  exists c, s. split_and!; [by eapply list_elem_of_lookup_2 | done | done].
Qed.

Lemma max0_Qmax b : (max0 b == Qmax 0 b)%Q.
Proof.
  unfold max0. destruct (Qltb 0 b) eqn:Hb.
  - apply Qltb_lt in Hb. symmetry. apply Q.max_r. by apply Qlt_le_weak.
  - apply Qltb_ge in Hb. symmetry. by apply Q.max_l.
Qed.

Section BuiltEngine.
(** An engine as [_build_model] leaves it: pairwise distinct ids and
    a matrix with one row and one column per movie. *)
Variable df : list Movie.
Variable sim : list (list Q).
Hypothesis ids_distinct : NoDup (movie_id <$> df).
Hypothesis sim_square : square (length df) sim.

Local Abbreviation E := (_build_model df sim).

Lemma sim_lookup i j :
  i < length df → j < length df → is_Some (sim !! i ≫= (.!! j)).
Proof using sim_square.
  destruct sim_square as [Hrows Hcols]. intros Hi Hj.
  destruct (lookup_lt_is_Some_2 sim i) as [row Hrow]; [lia|].
  rewrite Hrow. simpl. apply lookup_lt_is_Some_2.
  rewrite Forall_forall in Hcols.
  rewrite (Hcols row); [done|]. by eapply list_elem_of_lookup_2.
Qed.

(** One loop over preference ids adds [w] times each similarity. *)
Lemma boost_loop_spec i c step (w : Q) ids acc :
  i < length df →
  indices_getitem (indices E) c = Scalar i →
  (∀ b s, step b s == b + w * s)%Q →
  ∃ b, boost_loop E (Scalar i) step ids acc = Returned b
       ∧ (b == acc + w * Qsum (spec_similarity E c
                                 <$> List.filter (in_index (indices E)) ids))%Q.
Proof using ids_distinct sim_square.
  intros Hi Hc Hstep. revert acc.
  induction ids as [|mid ids IH]; intros acc; simpl.
  { eexists. split; [done|]. simpl. lra. }
  destruct (in_index (build_indices df) mid) eqn:Hin; [|apply IH].
  destruct (indices_getitem_present df mid ids_distinct Hin)
    as (j & m & Hj & <- & Hget).
  rewrite Hget.
  destruct (sim_lookup i j) as [s Hs]; [done | by eapply lookup_lt_Some|].
  unfold sim_at. simpl. rewrite Hs. simpl.
  destruct (IH (step acc s)) as (b & -> & Hb).
  exists b. split; [done|].
  rewrite Hb, Hstep. simpl.
  assert (spec_similarity E c (movie_id m) = s) as ->; [|unfold fmap; ring].
  unfold spec_similarity. rewrite Hc. simpl. by rewrite Hget, Hs.
Qed.

Lemma spec_sum_filter user_ratings cond c :
  spec_similarity E c
    <$> List.filter (in_index (indices E))
                    (List.filter (λ p, cond p.2) user_ratings).*1
  = (λ p, spec_similarity E c p.1)
      <$> List.filter (λ p : Z * Q, cond p.2 && in_index (indices E) p.1)
                      user_ratings.
Proof.
  induction user_ratings as [|[mid score] l IH]; [done|]. simpl.
  destruct (cond score); simpl; [|exact IH].
  destruct (in_index (build_indices df) mid); simpl; [|exact IH].
  f_equal. exact IH.
Qed.

(** The two loops of the body compute the boost of the
    specification, for every candidate that is a row of the frame. *)
Lemma collab_boost_spec user_ratings c :
  in_index (indices E) c = true →
  ∃ b, collab_boost E (liked_ids user_ratings) (disliked_ids user_ratings) c
       = Returned b
       ∧ (b == spec_boost E user_ratings c)%Q.
Proof using ids_distinct sim_square.
  intros Hin. unfold collab_boost. rewrite Hin.
  destruct (indices_getitem_present df c ids_distinct Hin)
    as (i & m & Hi & <- & Hget).
  apply lookup_lt_Some in Hi. simpl. rewrite Hget.
  destruct (boost_loop_spec i (movie_id m) (λ b s, b + s)%Q 1
              (liked_ids user_ratings) 0%Q) as (b1 & -> & Hb1);
    [done | done | intros; ring |].
  simpl.
  destruct (boost_loop_spec i (movie_id m) (λ b s, b - s * (1 # 2))%Q (- (1 # 2))
              (disliked_ids user_ratings) b1) as (b2 & -> & Hb2);
    [done | done | intros; ring |].
  exists b2. split; [done|].
  rewrite Hb2, Hb1. unfold spec_boost, spec_sum, liked_ids, disliked_ids.
  pose proof (spec_sum_filter user_ratings (λ s, Qle_bool (7 # 2) s)
                (movie_id m)) as H1.
  pose proof (spec_sum_filter user_ratings (λ s, Qltb s 3) (movie_id m)) as H2.
  cbv beta in H1, H2. rewrite <- H1, <- H2. ring.
Qed.

Lemma score_rec_spec user_ratings alpha c :
  in_index (indices E) (rec_id c) = true →
  score_rec E alpha (liked_ids user_ratings) (disliked_ids user_ratings) c
  = Returned (set_hybrid_score c
                (round2 (spec_final_score E user_ratings alpha c * 100))).
Proof using ids_distinct sim_square.
  intros Hin. unfold score_rec.
  destruct (collab_boost_spec user_ratings (rec_id c) Hin) as (b & -> & Hb).
  simpl. do 2 f_equal. apply round2_comp.
  unfold hybrid, spec_final_score. by rewrite max0_Qmax, Hb.
Qed.

Lemma recommendation_at_present e r :
  recommendation_at E e = Some r → in_index (indices E) (rec_id r) = true.
Proof.
  unfold recommendation_at. simpl.
  destruct (df !! e.1) as [m|] eqn:Hm; [|done]. simpl. intros [= <-].
  apply in_index_build. simpl.
  apply list_elem_of_fmap_2. by eapply list_elem_of_lookup_2.
Qed.

Lemma pool_present mid top_n pool c :
  get_recommendations E mid top_n = Some pool → c ∈ pool →
  in_index (indices E) (rec_id c) = true.
Proof.
  intros (idx & row & _ & _ & Hm)%get_recommendations_Some Hc.
  apply mapM_Some in Hm. apply list_elem_of_lookup in Hc as [i Hi].
  destruct (Forall2_lookup_r _ _ _ _ _ Hm Hi) as (e & _ & He).
  by eapply recommendation_at_present.
Qed.

(** The call never raises, and scores every candidate of the pool
    by the formula of the specification. *)
Lemma hybrid_recommendations_build mid user_ratings top_n alpha :
  hybrid_recommendations E mid user_ratings top_n alpha
  = Returned
      match get_recommendations E mid (top_n * 3) with
      | None | Some [] => None
      | Some pool =>
          Some (slice
                  (sorted Qltb hybrid_key true
                     ((λ c, set_hybrid_score c
                              (round2 (spec_final_score E user_ratings alpha c
                                       * 100)))
                        <$> pool))
                  0 top_n)
      end.
Proof using ids_distinct sim_square.
  unfold hybrid_recommendations.
  destruct (get_recommendations E mid (top_n * 3)) as [[|c pool]|] eqn:Hpool;
    [done| |done].
  rewrite (mapM_Returned_fmap _
             (λ c, set_hybrid_score c
                     (round2 (spec_final_score E user_ratings alpha c * 100))));
    [done|].
  intros c' Hc'. apply score_rec_spec. by eapply pool_present.
Qed.
End BuiltEngine.

Lemma StronglySorted_Forall2 {A B} (R : A → B → Prop) (P : relation A)
    (Q : relation B) l k :
  (∀ a b a' b', R a a' → R b b' → P a b → Q a' b') →
  Forall2 R l k → StronglySorted P l → StronglySorted Q k.
Proof.
  intros HPQ HF. induction HF as [|a a' l k Ha HF IH]; intros Hs; [constructor|].
  apply StronglySorted_inv in Hs as [Hs Hall]. constructor; [by apply IH|].
  clear IH Hs. induction HF as [|b b' l k Hb HF IH]; [constructor|].
  apply Forall_cons in Hall as [Hab Hall]. constructor; eauto.
Qed.

(** A returned content list is in descending order of its rounded
    scores, and every score has two decimals. *)
Lemma get_recommendations_scores E mid top_n pool :
  get_recommendations E mid top_n = Some pool →
  StronglySorted (λ a b, similarity_score b <= similarity_score a)%Q pool
  ∧ Forall (λ c, round2 (similarity_score c) = similarity_score c) pool.
Proof.
  intros (idx & row & _ & _ & Hm%mapM_Some)%get_recommendations_Some.
  assert (∀ e r, recommendation_at E e = Some r →
                 similarity_score r = round2 (e.2 * 100)) as Hscore.
  { intros e r. unfold recommendation_at.
    destruct (movies_df E !! e.1); [|done]. by intros [= <-]. }
  split.
  - eapply StronglySorted_Forall2; [|done|apply (ranked_sorted row top_n)].
    intros a b a' b' Ha Hb Hab. simpl in *.
    rewrite (Hscore _ _ Ha), (Hscore _ _ Hb). apply round2_mono.
    apply Qmult_le_compat_r; [|done].
    destruct Hab as [Hlt | [Heq _]]; [by apply Qlt_le_weak|].
    rewrite Heq. apply Qle_refl.
  - apply Forall_forall. intros c Hc.
    apply list_elem_of_lookup in Hc as [i Hi].
    destruct (Forall2_lookup_r _ _ _ _ _ Hm Hi) as (e & _ & He).
    rewrite (Hscore _ _ He). apply round2_round2.
Qed.

(** C4, as stated, fails: for the only movie of a one-movie corpus
    the content list is empty, and [hybrid_recommendations] answers
    [None] instead of the empty list. *)
Lemma hybrid_alpha_one_empty_pool :
  get_recommendations single_engine 10 1 = Some []
  ∧ hybrid_recommendations single_engine 10 [] 1 1 = Returned None
  ∧ ¬ reproduces_content (hybrid_recommendations single_engine 10 [] 1 1)
                         (get_recommendations single_engine 10 1).
Proof.
  assert (hybrid_recommendations single_engine 10 [] 1 1 = Returned None) as Hh.
  { unfold hybrid_recommendations. by rewrite single_engine_empty. }
  rewrite Hh, single_engine_empty. split_and!; [done..|]. by intros [].
Qed.

(** C4, amended. In a built engine, with [alpha = 1] and
    [top_n >= 1]: when the content list is not empty the hybrid list
    is that list, in the same order, each entry carrying its content
    score as hybrid score; when the content list is empty or the id
    is unknown the hybrid call returns [None]. *)
Theorem hybrid_alpha_one df sim mid user_ratings top_n :
  NoDup (movie_id <$> df) → square (length df) sim → (1 ≤ top_n)%Z →
  hybrid_recommendations (_build_model df sim) mid user_ratings top_n 1
  = Returned
      match get_recommendations (_build_model df sim) mid top_n with
      | None | Some [] => None
      | Some recs => Some (with_content_score <$> recs)
      end.
Proof.
  intros Hnd Hsq Hk. rewrite hybrid_recommendations_build by done.
  destruct (get_recommendations (_build_model df sim) mid (top_n * 3))
    as [pool|] eqn:Hpool.
  - rewrite (get_recommendations_prefix _ _ _ pool) by (done || lia).
    destruct pool as [|c pool]; [by rewrite take_nil|].
    assert (take (Z.to_nat top_n) (c :: pool)
            = c :: take (Z.to_nat top_n - 1) pool) as Htake.
    { destruct (Z.to_nat top_n) eqn:Hn; [lia|]. simpl. by rewrite Nat.sub_0_r. }
    rewrite Htake. cbv iota. rewrite <- Htake. do 2 f_equal.
    destruct (get_recommendations_scores _ _ _ _ Hpool) as [Hsorted Hround].
    assert ((λ c0, set_hybrid_score c0
                     (round2 (spec_final_score (_build_model df sim)
                                user_ratings 1 c0 * 100))) <$> c :: pool
            = with_content_score <$> c :: pool) as ->.
    { apply Forall_fmap_ext_1. eapply Forall_impl; [exact Hround|].
      intros r Hr. simpl. unfold with_content_score. f_equal.
      etrans; [|exact Hr]. apply round2_comp.
      unfold spec_final_score. field. }
    rewrite sorted_id.
    + rewrite slice_from_0 by lia. by rewrite fmap_take.
    + eapply StronglySorted_fmap; [|exact Hsorted].
      intros x y Hxy. unfold precedes. simpl. by apply Qltb_ge.
  - destruct (in_index (build_indices df) mid) eqn:Hin.
    + destruct (indices_getitem_present df mid Hnd Hin)
        as (i & m & Hi & <- & _).
      destruct (get_recommendations_build df sim i m (top_n * 3))
        as (? & ? & _ & _ & Hsome); [done..|]. congruence.
    + unfold get_recommendations. simpl.
      by rewrite in_index_false_absent.
Qed.

Lemma hybrid_alpha_one_witness :
  hybrid_recommendations trio_engine 10 demo_ratings 2 1
  = Returned
      match get_recommendations trio_engine 10 2 with
      | None | Some [] => None
      | Some recs => Some (with_content_score <$> recs)
      end.
Proof.
  apply (hybrid_alpha_one (movies_df trio_engine) (cosine_sim trio_engine)).
  - apply (bool_decide_unpack _). vm_compute. exact I.
  - split; [reflexivity | repeat constructor].
  - lia.
Defined.

(** C5. On a frame in which an id labels two rows the claim fails.
    Movie 10 of [reissue_engine] has the two rows of id 20 as its
    candidates; with a rating of a movie of the corpus, liked or
    disliked, [hybrid_recommendations] raises instead of scoring
    them. With a rating of an absent movie only, the id is skipped
    and the call returns. *)
Theorem hybrid_score_duplicate_id :
  rec_id <$> default [] (get_recommendations reissue_engine 10 3) = [20; 20]%Z
  ∧ hybrid_recommendations reissue_engine 10 [(10%Z, 4%Q)] 1 (7 # 10) = Raised
  ∧ hybrid_recommendations reissue_engine 10 [(10%Z, 2%Q)] 1 (7 # 10) = Raised
  ∧ ∃ out,
      hybrid_recommendations reissue_engine 10 [(99%Z, 4%Q)] 1 (7 # 10)
      = Returned (Some out)
      ∧ rec_id <$> out = [20%Z]
      ∧ Forall (λ r, is_Some (hybrid_score r)) out.
Proof.
  split_and!; [by vm_compute | by vm_compute | by vm_compute |].
  eexists. split_and!; [vm_compute; reflexivity | by vm_compute |].
  repeat constructor; by eexists.
Qed.

Lemma hybrid_recommendations_within_pool_witness :
  let out := returned_list
               (hybrid_recommendations trio_engine 10 demo_ratings 1 (7 # 10)) in
  length out ≤ Z.to_nat 1
  ∧ ∃ pool, get_recommendations trio_engine 10 (1 * 3) = Some pool
            ∧ length pool ≤ Z.to_nat (1 * 3)
            ∧ ∀ r, r ∈ out →
                   ∃ c s, c ∈ pool ∧ r = set_hybrid_score c s
                          ∧ rec_id r = rec_id c.
Proof.
  apply (hybrid_recommendations_within_pool trio_engine 10 demo_ratings 1 (7 # 10)).
  - lia.
  - vm_compute. reflexivity.
Defined.

(** ** Title search *)

Lemma infixb_spec q t : infixb q t = true ↔ ∃ pre suf, t = pre ++ q ++ suf.
Proof.
  induction t as [|c t IH]; simpl.
  - rewrite orb_false_r, bool_decide_eq_true. split.
    + intros [suf ->]. by exists [], suf.
    + intros (pre & suf & H). symmetry in H.
      apply app_eq_nil in H as [-> H]. apply app_eq_nil in H as [-> ->].
      by exists [].
  - rewrite orb_true_iff, bool_decide_eq_true, IH. split.
    + intros [[suf ->] | (pre & suf & ->)].
      * by exists [], suf.
      * by exists (c :: pre), suf.
    + intros (pre & suf & H). destruct pre as [|c' pre]; simpl in H.
      * left. by exists suf.
      * right. injection H as -> ->. by exists pre, suf.
Qed.

#[export] Instance ci_substring_dec q t : Decision (ci_substring q t).
Proof.
  refine (cast_if (decide (infixb (Re.lower <$> list_ascii_of_string q)
                                  (Re.lower <$> list_ascii_of_string t) = true)));
    unfold ci_substring; by rewrite <- infixb_spec.
Defined.





Lemma filter_bool {A} (f : A → bool) (P : A → Prop) `{!∀ x, Decision (P x)}
    (l : list A) :
  (∀ x, f x = true ↔ P x) → List.filter f l = filter P l.
Proof.
  intros Hf. induction l as [|x l IH]; [done|]. simpl.
  destruct (f x) eqn:Hx.
  - rewrite filter_cons_True by (by apply Hf). by rewrite IH.
  - rewrite filter_cons_False; [done|]. intros HP%Hf. congruence.
Qed.





(** ** Because you liked *)

Lemma random_choice_elem_of {A} (seq : list A) draw :
  seq ≠ [] → ∃ x, random_choice seq draw = Returned x ∧ x ∈ seq.
Proof.
  intros Hne. unfold random_choice.
  destruct (lookup_lt_is_Some_2 seq (draw `mod` length seq)) as [x Hx].
  { apply Nat.mod_upper_bound. by destruct seq. }
  rewrite Hx. exists x. split; [done|]. by eapply list_elem_of_lookup_2.
Qed.

Lemma title_of_build df sim source_id :
  source_id ∈ movie_id <$> df →
  ∃ m, title_of (_build_model df sim) source_id = Returned (title m)
       ∧ m ∈ df ∧ movie_id m = source_id.
Proof.
  intros (m & -> & Hm)%list_elem_of_fmap. unfold title_of. simpl.
  destruct (filter (λ m0, movie_id m0 = movie_id m) df) as [|m' ms] eqn:Hf.
  - assert (m ∈ filter (λ m0, movie_id m0 = movie_id m) df) as Hin
      by (by apply list_elem_of_filter).
    rewrite Hf in Hin. by apply elem_of_nil in Hin.
  - assert (m' ∈ filter (λ m0, movie_id m0 = movie_id m) df) as Hin
      by (rewrite Hf; left).
    apply list_elem_of_filter in Hin as [Hid Hin]. by exists m'.
Qed.

(** C8. [because_you_liked] keeps the ids that are in the corpus.
    When none is left it returns the pair of [None]s; otherwise the
    source is one of the kept ids, whatever the random draw, the
    reported title is the title of a row with that id, and the list
    is [get_recommendations] of that id. *)
Theorem because_you_liked_source df sim movie_ids top_n draw :
  match filter (λ mid, mid ∈ movie_id <$> df) movie_ids with
  | [] =>
      because_you_liked (_build_model df sim) movie_ids top_n draw
      = Returned (None, None)
  | valid =>
      ∃ source_id m,
        source_id ∈ valid ∧ m ∈ df ∧ movie_id m = source_id
        ∧ because_you_liked (_build_model df sim) movie_ids top_n draw
          = Returned (Some (title m),
                      get_recommendations (_build_model df sim) source_id top_n)
  end.
Proof.
  unfold because_you_liked.
  rewrite (filter_bool _ (λ mid, mid ∈ movie_id <$> df))
    by (intros; apply in_index_build).
  destruct (filter (λ mid, mid ∈ movie_id <$> df) movie_ids)
    as [|v valid] eqn:Hvalid; [done|].
  destruct (random_choice_elem_of (v :: valid) draw) as (x & -> & Hx); [done|].
  assert (x ∈ movie_id <$> df) as Hdf.
  { rewrite <- Hvalid in Hx. by apply list_elem_of_filter in Hx as [? _]. }
  destruct (title_of_build df sim x Hdf) as (m & Ht & Hm & Hid).
  exists x, m. simpl. rewrite Ht. done.
Qed.

(** ** Pagination *)

Lemma slice_fmap {A B} (f : A → B) (l : list A) start stop :
  slice (f <$> l) start stop = f <$> slice l start stop.
Proof. unfold slice. by rewrite length_fmap, fmap_take, fmap_drop. Qed.





Lemma filter_split_length {A} (f : A → bool) (l : list A) :
  length (List.filter f l) + length (List.filter (λ x, negb (f x)) l) = length l.
Proof.
  induction l as [|x l IH]; [done|]. simpl. destruct (f x); simpl; lia.
Qed.

Lemma enumerate_snd {A} (l : list A) : (enumerate l).*2 = l.
Proof.
  unfold enumerate. apply snd_zip. by rewrite length_seq.
Qed.

Section SortValues.
Variable tie_rank : list cell → nat → nat.

Lemma argsort_perm {A} (column : A → cell) (rows : list A) :
  argsort tie_rank column rows ≡ₚ rows.
Proof.
  unfold argsort. rewrite sorted_perm. by rewrite enumerate_snd.
Qed.

Lemma sort_values_perm {A} (column : A → cell) ascending (df : list A) :
  sort_values tie_rank column ascending df ≡ₚ df.
Proof.
  unfold sort_values.
  assert ((if ascending
           then argsort tie_rank column
                        (List.filter (λ m, negb (is_nan (column m))) df)
           else reverse (argsort tie_rank column
                           (reverse (List.filter
                                       (λ m, negb (is_nan (column m))) df))))
          ≡ₚ List.filter (λ m, negb (is_nan (column m))) df) as ->.
  { destruct ascending; [apply argsort_perm|].
    by rewrite reverse_Permutation, argsort_perm, reverse_Permutation. }
  induction df as [|x df IH]; [done|]. simpl.
  destruct (is_nan (column x)); simpl.
  - by rewrite <- Permutation_middle, IH.
  - by rewrite IH.
Qed.

Lemma sort_values_length {A} (column : A → cell) ascending (df : list A) :
  length (sort_values tie_rank column ascending df) = length df.
Proof. by rewrite sort_values_perm. Qed.
End SortValues.




Section FilterResult.
Variable re_library : string → option (string → bool).
Variable py_int : string → option Z.
Variable to_numeric : string → option Q.


End FilterResult.


(** ** The query methods do not write the engine state *)

Section Frame.
Import Heap.

Lemma keeps_ret {A} n (a : A) (Q : A → Prop) : Q a → keeps n (mret a) Q.
Proof. intros Ha h Hn Hok. split_and!; [done..|]. by intros ? [= <-]. Qed.

Lemma keeps_raise {A} n (Q : A → Prop) : keeps n raise Q.
Proof. intros h Hn Hok. split_and!; done. Qed.

Lemma keeps_bind {A B} n (m : M A) (f : A → M B) P Q :
  keeps n m P → (∀ a, P a → keeps n (f a) Q) → keeps n (m ≫= f) Q.
Proof.
  intros Hm Hf h Hn Hok. unfold mbind, M_bind.
  destruct (Hm h Hn Hok) as (Ht & Hl & Hok' & HP).
  destruct (m h) as [[a|] h1]; simpl in *; [|by split_and!].
  destruct (Hf a (HP a eq_refl) h1) as (Ht' & Hl' & Hok'' & HQ); [lia | done|].
  split_and!; [congruence | lia | done | done].
Qed.

Lemma keeps_weaken {A} n (m : M A) (P Q : A → Prop) :
  keeps n m P → (∀ a, P a → Q a) → keeps n m Q.
Proof.
  intros Hm HPQ h Hn Hok. destruct (Hm h Hn Hok) as (? & ? & ? & HP).
  split_and!; [done..|]. eauto.
Qed.

Lemma keeps_fmap {A B} n (g : A → B) (m : M A) P :
  keeps n m P → keeps n (g <$> m) (λ _, True).
Proof.
  intros Hm. unfold fmap, M_fmap.
  eapply keeps_bind; [exact Hm|]. intros a _. by apply keeps_ret.
Qed.

Lemma keeps_try_except {A} n (body handler : M A) Q :
  keeps n body Q → keeps n handler Q → keeps n (try_except body handler) Q.
Proof.
  intros Hb Hh h Hn Hok. unfold try_except.
  destruct (Hb h Hn Hok) as (Ht & Hl & Hok' & HQ).
  destruct (body h) as [[a|] h1]; simpl in *; [by split_and!|].
  destruct (Hh h1) as (Ht' & Hl' & Hok'' & HQ'); [lia | done|].
  split_and!; [congruence | lia | done | done].
Qed.

Lemma keeps_lift {A} n (r : result A) : keeps n (lift r) (λ _, True).
Proof. intros h Hn Hok. by split_and!. Qed.

Lemma keeps_lift_option {A} n (o : option A) : keeps n (lift_option o) (λ _, True).
Proof. destruct o; [by apply keeps_ret | apply keeps_raise]. Qed.

Lemma keeps_alloc n o : object_ok n o → keeps n (alloc o) (λ l, n ≤ l).
Proof.
  intros Ho h Hn Hok. unfold alloc. simpl. split_and!.
  - by rewrite take_app_le.
  - rewrite length_app. lia.
  - intros l o' Hl Hlook.
    apply lookup_app_Some in Hlook as [Hlook | [_ Hlook]]; [by eapply Hok|].
    apply list_lookup_singleton_Some in Hlook as [_ <-]. done.
  - by intros ? [= <-].
Qed.

Lemma keeps_load n l : keeps n (load l) (λ _, True).
Proof. intros h Hn Hok. by split_and!. Qed.

(** What is read through a fresh reference is fine. *)
Lemma keeps_load_fresh n l : n ≤ l → keeps n (load l) (object_ok n).
Proof.
  intros Hl h Hn Hok. unfold load. simpl. split_and!; [done..|].
  intros o Ho. destruct (h !! l) as [o'|] eqn:Hlook; simpl in Ho;
    [|discriminate].
  injection Ho as <-. by apply (Hok l).
Qed.

(** Only a fresh reference is written through. *)
Lemma keeps_store n l o : n ≤ l → object_ok n o → keeps n (store l o) (λ _, True).
Proof.
  intros Hl Ho h Hn Hok. unfold store.
  destruct (decide (l < length h)); simpl; [|by split_and!].
  split_and!; [|by rewrite length_insert| |done].
  - by rewrite take_insert_ge.
  - intros l' o' Hl' Hlook.
    destruct (decide (l = l')) as [<-|Hne].
    + rewrite list_lookup_insert_eq in Hlook by done. by injection Hlook as <-.
    + rewrite list_lookup_insert_ne in Hlook by done. by eapply Hok.
Qed.

Lemma keeps_for_each {A} n (body : A → M unit) (xs : list A) :
  (∀ x, x ∈ xs → keeps n (body x) (λ _, True)) →
  keeps n (for_each body xs) (λ _, True).
Proof.
  induction xs as [|x xs IH]; intros Hbody; simpl; [by apply keeps_ret|].
  eapply keeps_bind; [apply Hbody; left|].
  intros _ _. apply IH. intros y Hy. apply Hbody. by right.
Qed.

Lemma keeps_mapM {A B} n (f : A → M B) (xs : list A) (Q : B → Prop) :
  (∀ x, x ∈ xs → keeps n (f x) Q) → keeps n (mapM f xs) (Forall Q).
Proof.
  induction xs as [|x xs IH]; intros Hf; simpl; [by apply keeps_ret|].
  eapply keeps_bind; [apply Hf; left|]. intros y Hy.
  eapply keeps_bind; [apply IH; intros z Hz; apply Hf; by right|].
  intros ys Hys. apply keeps_ret. by constructor.
Qed.

(** One step of a proof that a procedure keeps the heap below [n]. *)
Ltac keeps_step :=
  first
    [ apply keeps_ret
    | apply keeps_raise
    | apply keeps_lift
    | apply keeps_lift_option
    | apply keeps_load
    | eapply keeps_bind; [|intros ? ?] ].

Lemma keeps_load_frame n l : keeps n (load_frame l) (λ _, True).
Proof.
  unfold load_frame. eapply keeps_bind; [apply keeps_load|].
  intros [] _; by keeps_step.
Qed.

Lemma keeps_load_ndarray n l : keeps n (load_ndarray l) (λ _, True).
Proof.
  unfold load_ndarray. eapply keeps_bind; [apply keeps_load|].
  intros [] _; by keeps_step.
Qed.

Lemma keeps_load_series n l : keeps n (load_series l) (λ _, True).
Proof.
  unfold load_series. eapply keeps_bind; [apply keeps_load|].
  intros [] _; by keeps_step.
Qed.

Lemma keeps_load_dict n l : keeps n (load_dict l) (λ _, True).
Proof.
  unfold load_dict. eapply keeps_bind; [apply keeps_load|].
  intros [] _; by keeps_step.
Qed.

Lemma keeps_load_set n l : keeps n (load_set l) (λ _, True).
Proof.
  unfold load_set. eapply keeps_bind; [apply keeps_load|].
  intros [] _; by keeps_step.
Qed.

Lemma keeps_load_map n l : keeps n (load_map l) (λ _, True).
Proof.
  unfold load_map. eapply keeps_bind; [apply keeps_load|].
  intros [] _; by keeps_step.
Qed.

(** A fresh list only refers to fresh objects. *)
Lemma keeps_load_list n l :
  n ≤ l → keeps n (load_list l) (Forall (λ d, n ≤ d)).
Proof.
  intros Hl. unfold load_list.
  eapply keeps_bind; [by apply keeps_load_fresh|].
  intros [] Ho; by keeps_step.
Qed.

Lemma keeps_load_engine n s : keeps n (load_engine s) (λ _, True).
Proof.
  unfold load_engine.
  eapply keeps_bind; [apply keeps_load_frame|]. intros rows _.
  eapply keeps_bind; [apply keeps_load_ndarray|]. intros sim _.
  eapply keeps_bind; [apply keeps_load_series|]. intros ix _.
  by apply keeps_ret.
Qed.

Lemma keeps_get_recommendations n s mid top_n :
  keeps n (get_recommendations_m s mid top_n) (fresh_ref n).
Proof.
  unfold get_recommendations_m. apply keeps_try_except.
  2: { apply keeps_ret. by intros ? [=]. }
  eapply keeps_bind; [apply keeps_load_engine|]. intros E _.
  eapply keeps_bind; [apply keeps_lift_option|]. intros recs _.
  eapply keeps_bind.
  { apply keeps_mapM. intros r _. by apply keeps_alloc. }
  intros dicts Hdicts. simpl in Hdicts.
  eapply keeps_bind; [by apply keeps_alloc|]. intros l Hl.
  apply keeps_ret. by intros ? [= <-].
Qed.

Lemma keeps_score_dict n s alpha liked disliked rec :
  n ≤ rec → keeps n (score_dict s alpha liked disliked rec) (λ _, True).
Proof.
  intros Hrec. unfold score_dict.
  eapply keeps_bind; [apply keeps_load_dict|]. intros r _.
  eapply keeps_bind; [apply keeps_load_engine|]. intros E _.
  eapply keeps_bind; [apply keeps_lift|]. intros b _.
  by apply keeps_store.
Qed.

Lemma keeps_sort_by_hybrid_score n content_recs :
  n ≤ content_recs → keeps n (sort_by_hybrid_score content_recs) (λ _, True).
Proof.
  intros Hl. unfold sort_by_hybrid_score.
  eapply keeps_bind; [by apply keeps_load_list|]. intros items Hitems.
  eapply keeps_bind.
  { apply keeps_mapM. intros d _. apply keeps_load_dict. }
  intros dicts _. apply keeps_store; [done|]. simpl.
  apply Forall_forall. intros d Hd.
  apply list_elem_of_fmap in Hd as ([d' r] & -> & Hd). simpl.
  rewrite sorted_perm in Hd. apply elem_of_zip_l in Hd.
  rewrite Forall_forall in Hitems. by apply Hitems.
Qed.

Lemma keeps_hybrid_recommendations n s mid user_ratings top_n alpha :
  keeps n (hybrid_recommendations_m s mid user_ratings top_n alpha)
        (fresh_ref n).
Proof.
  unfold hybrid_recommendations_m.
  eapply keeps_bind; [apply keeps_get_recommendations|].
  intros [content_recs|] Hfresh; [|apply keeps_ret; by intros ? [=]].
  specialize (Hfresh _ eq_refl).
  eapply keeps_bind; [by apply keeps_load_list|].
  intros [|d items] Hitems; [apply keeps_ret; by intros ? [=]|].
  eapply keeps_bind.
  { apply keeps_for_each. intros d' Hd'. apply keeps_score_dict.
    rewrite Forall_forall in Hitems. by apply Hitems. }
  intros _ _.
  eapply keeps_bind; [by apply keeps_sort_by_hybrid_score|]. intros _ _.
  eapply keeps_bind; [by apply keeps_load_list|]. intros sorted_items Hsorted.
  eapply keeps_bind.
  { apply keeps_alloc. simpl. unfold slice.
    by apply Forall_take, Forall_drop. }
  intros top Htop. apply keeps_ret. by intros ? [= <-].
Qed.

Lemma keeps_load_list_any n l : keeps n (load_list l) (λ _, True).
Proof.
  unfold load_list. eapply keeps_bind; [apply keeps_load|].
  intros [] _; by keeps_step.
Qed.

Lemma keeps_read_recs n o : keeps n (read_recs o) (λ _, True).
Proof.
  destruct o as [l|]; simpl; [|by apply keeps_ret].
  eapply keeps_bind; [apply keeps_load_list_any|]. intros items _.
  eapply keeps_bind.
  { apply keeps_mapM. intros d _. apply keeps_load_dict. }
  intros recs _. by apply keeps_ret.
Qed.

Lemma keeps_because_you_liked n s movie_ids top_n draw :
  keeps n (because_you_liked_m s movie_ids top_n draw) (λ _, True).
Proof.
  unfold because_you_liked_m.
  eapply keeps_bind; [apply keeps_load_engine|]. intros E _.
  destruct (List.filter _ movie_ids); [by apply keeps_ret|].
  eapply keeps_bind; [apply keeps_lift|]. intros source_id _.
  eapply keeps_bind; [apply keeps_get_recommendations|]. intros recs _.
  eapply keeps_bind; [apply keeps_load_engine|]. intros E' _.
  eapply keeps_bind; [apply keeps_lift|]. intros source_title _.
  by apply keeps_ret.
Qed.

(** Every frame operation returns a new frame. *)
Lemma keeps_new_frame n df (f : list row → list row) :
  keeps n (rows ← load_frame df; alloc (DataFrame (f rows))) (λ l, n ≤ l).
Proof.
  eapply keeps_bind; [apply keeps_load_frame|]. intros rows _.
  by apply keeps_alloc.
Qed.

Lemma keeps_df_len n df : keeps n (df_len df) (λ _, True).
Proof.
  unfold df_len. eapply keeps_bind; [apply keeps_load_frame|].
  intros rows _. by apply keeps_ret.
Qed.

Lemma keeps_format_movies n df : keeps n (_format_movies_m df) (λ _, True).
Proof.
  unfold _format_movies_m. eapply keeps_bind; [apply keeps_load_frame|].
  intros rows _. by apply keeps_ret.
Qed.

Lemma keeps_df_where n df keep : keeps n (df_where df keep) (λ l, n ≤ l).
Proof. apply (keeps_new_frame n df (List.filter keep)). Qed.

Lemma keeps_df_str_contains n re_library df pat column :
  keeps n (df_str_contains re_library df pat column) (λ l, n ≤ l).
Proof.
  unfold df_str_contains.
  eapply keeps_bind; [apply keeps_lift_option|]. intros re _.
  apply keeps_df_where.
Qed.

Lemma keeps_get_popular_movies n s limit offset :
  keeps n (get_popular_movies_m s limit offset) (λ _, True).
Proof.
  unfold get_popular_movies_m.
  eapply keeps_bind; [apply (keeps_new_frame n _ (nlargest _ _))|]. intros ? _.
  eapply keeps_bind; [apply (keeps_new_frame n _ (λ r, slice r _ _))|].
  intros ? _.
  eapply keeps_bind; [apply keeps_df_len|]. intros ? _.
  eapply keeps_bind; [apply keeps_format_movies|]. intros ? _.
  by apply keeps_ret.
Qed.

Lemma keeps_get_top_rated_movies n s limit min_votes offset :
  keeps n (get_top_rated_movies_m s limit min_votes offset) (λ _, True).
Proof.
  unfold get_top_rated_movies_m.
  eapply keeps_bind; [apply keeps_df_where|]. intros ? _.
  eapply keeps_bind; [apply (keeps_new_frame n _ (nlargest _ _))|]. intros ? _.
  eapply keeps_bind; [apply (keeps_new_frame n _ (λ r, slice r _ _))|].
  intros ? _.
  eapply keeps_bind; [apply keeps_format_movies|]. intros ? _.
  eapply keeps_bind; [apply keeps_df_len|]. intros ? _.
  by apply keeps_ret.
Qed.

Lemma keeps_search_movies n re_library s query limit offset :
  keeps n (search_movies_m re_library s query limit offset) (λ _, True).
Proof.
  unfold search_movies_m.
  eapply keeps_bind; [apply keeps_df_str_contains|]. intros ? _.
  eapply keeps_bind; [apply keeps_df_len|]. intros ? _.
  eapply keeps_bind; [apply (keeps_new_frame n _ (λ r, slice r _ _))|].
  intros ? _.
  eapply keeps_bind; [apply keeps_format_movies|]. intros ? _.
  by apply keeps_ret.
Qed.

(** The [_year] column is written into a frame the method created. *)
Lemma keeps_df_set_year n to_numeric filtered :
  n ≤ filtered → keeps n (df_set_year to_numeric filtered) (λ _, True).
Proof.
  intros Hl. unfold df_set_year.
  eapply keeps_bind; [apply keeps_load_frame|]. intros rows _.
  by apply keeps_store.
Qed.

Lemma keeps_df_bound n py_int a column cmp filtered :
  n ≤ filtered → keeps n (df_bound py_int a column cmp filtered) (λ l, n ≤ l).
Proof.
  intros Hl. unfold df_bound. destruct (truthy a); [|by apply keeps_ret].
  eapply keeps_bind; [apply keeps_lift_option|]. intros k _.
  apply keeps_df_where.
Qed.

Lemma keeps_filter_frame n re_library py_int to_numeric s genre
    min_rating max_rating year_from year_to min_runtime max_runtime :
  keeps n (filter_frame_m re_library py_int to_numeric s genre
             min_rating max_rating year_from year_to min_runtime max_runtime)
        (λ l, n ≤ l).
Proof.
  unfold filter_frame_m.
  eapply keeps_bind; [apply (keeps_new_frame n _ (λ r, r))|]. intros l0 Hl0.
  eapply keeps_bind; [apply keeps_df_where|]. intros l1 Hl1.
  eapply keeps_bind.
  { instantiate (1 := λ l, n ≤ l).
    destruct genre as [[|c g]|];
      [by apply keeps_ret | apply keeps_df_str_contains | by apply keeps_ret]. }
  intros l2 Hl2.
  eapply keeps_bind.
  { instantiate (1 := λ l, n ≤ l).
    destruct (truthy year_from || truthy year_to); [|by apply keeps_ret].
    eapply keeps_bind; [by apply keeps_df_set_year|]. intros _ _.
    eapply keeps_bind; [by apply keeps_df_bound|]. intros l Hl.
    by apply keeps_df_bound. }
  intros l3 Hl3.
  eapply keeps_bind; [by apply keeps_df_bound|]. intros l4 Hl4.
  by apply keeps_df_bound.
Qed.

Lemma keeps_filter_movies n re_library tie_rank py_int to_numeric s genre
    min_rating max_rating year_from year_to min_runtime max_runtime
    sort_by order limit offset :
  keeps n (filter_movies_m re_library tie_rank py_int to_numeric s genre
             min_rating max_rating year_from year_to min_runtime max_runtime
             sort_by order limit offset)
        (λ _, True).
Proof.
  unfold filter_movies_m.
  eapply keeps_bind; [apply keeps_filter_frame|]. intros l5 Hl5.
  eapply keeps_bind; [apply keeps_df_len|]. intros total _.
  eapply keeps_bind; [apply (keeps_new_frame n _ (sort_values tie_rank _ _))|].
  intros l6 _.
  eapply keeps_bind; [apply (keeps_new_frame n _ (λ r, slice r _ _))|].
  intros l7 _.
  eapply keeps_bind; [apply keeps_format_movies|]. intros cards _.
  by apply keeps_ret.
Qed.

Lemma keeps_set_add n all_genres name :
  n ≤ all_genres → keeps n (set_add all_genres name) (λ _, True).
Proof.
  intros Hl. unfold set_add.
  eapply keeps_bind; [apply keeps_load_set|]. intros names _.
  by apply keeps_store.
Qed.

Lemma keeps_get_all_genres n genre_names s :
  keeps n (get_all_genres_m genre_names s) (λ _, True).
Proof.
  unfold get_all_genres_m.
  eapply keeps_bind; [by apply keeps_alloc|]. intros all_genres Hl.
  eapply keeps_bind; [apply keeps_load_frame|]. intros rows _.
  eapply keeps_bind.
  { apply keeps_for_each. intros r _.
    apply keeps_for_each. intros name _. by apply keeps_set_add. }
  intros _ _.
  eapply keeps_bind; [apply keeps_load_set|]. intros names _.
  by apply keeps_ret.
Qed.

Lemma keeps_map_setitem n movie_map r :
  n ≤ movie_map → keeps n (map_setitem movie_map r) (λ _, True).
Proof.
  intros Hl. unfold map_setitem.
  eapply keeps_bind; [apply keeps_load_map|]. intros cards _.
  by apply keeps_store.
Qed.

Lemma keeps_get_movies_by_ids n s movie_ids :
  keeps n (get_movies_by_ids_m s movie_ids) (λ _, True).
Proof.
  unfold get_movies_by_ids_m.
  eapply keeps_bind; [apply keeps_df_where|]. intros subset _.
  eapply keeps_bind; [by apply keeps_alloc|]. intros movie_map Hl.
  eapply keeps_bind; [apply keeps_load_frame|]. intros rows _.
  eapply keeps_bind.
  { apply keeps_for_each. intros r _. by apply keeps_map_setitem. }
  intros _ _.
  eapply keeps_bind; [apply keeps_load_map|]. intros cards _.
  by apply keeps_ret.
Qed.

Lemma keeps_run n re_library tie_rank py_int to_numeric genre_names s q :
  keeps n (run re_library tie_rank py_int to_numeric genre_names s q)
        (λ _, True).
Proof.
  destruct q; simpl.
  - eapply keeps_bind; [apply keeps_get_recommendations|]. intros l _.
    eapply keeps_fmap, keeps_read_recs.
  - eapply keeps_bind; [apply keeps_hybrid_recommendations|]. intros l _.
    eapply keeps_fmap, keeps_read_recs.
  - eapply keeps_bind; [apply keeps_because_you_liked|]. intros [t l] _.
    eapply keeps_fmap, keeps_read_recs.
  - eapply keeps_fmap, keeps_get_popular_movies.
  - eapply keeps_fmap, keeps_get_top_rated_movies.
  - eapply keeps_fmap, keeps_search_movies.
  - eapply keeps_fmap, keeps_filter_movies.
  - eapply keeps_fmap, keeps_get_all_genres.
  - eapply keeps_fmap, keeps_get_movies_by_ids.
Qed.
End Frame.

(** An object that exists when a query starts is still there, the
    same, when the query ends. *)
Lemma run_keeps_old re_library tie_rank py_int to_numeric genre_names
    (s : Heap.self) (q : Heap.query) (h : list Heap.object) l :
  l < length h →
  (Heap.run re_library tie_rank py_int to_numeric genre_names s q h).2 !! l
  = h !! l.
Proof.
  intros Hl.
  destruct (keeps_run (length h) re_library tie_rank py_int to_numeric
              genre_names s q h)
    as (Htake & _); [done | |].
  { intros l' o Hl' Hlook. apply lookup_lt_Some in Hlook. lia. }
  rewrite <- (lookup_take_lt _ (length h) l) by done.
  by rewrite Htake, take_ge.
Qed.

(** C9. Every query, with any arguments, run on any heap in which
    the four attributes of the engine point to existing objects,
    leaves every object that existed before the call as it was,
    whether the call returns or raises: the data frame, the
    similarity matrix, the index and the TF-IDF matrix after the call
    are those before it. What a query writes (the [_year] column, the
    hybrid scores, the order of the candidate list, the genre set,
    the id map) is written into objects it created itself. *)
Theorem queries_leave_engine_state re_library tie_rank py_int to_numeric
    genre_names (s : Heap.self) (q : Heap.query) (h : list Heap.object) :
  Heap.self_movies_df s < length h →
  Heap.self_cosine_sim s < length h →
  Heap.self_indices s < length h →
  Heap.self_tfidf_matrix s < length h →
  Heap.engine_state s
    (Heap.run re_library tie_rank py_int to_numeric genre_names s q h).2
  = Heap.engine_state s h
  ∧ ∀ l, l < length h →
         (Heap.run re_library tie_rank py_int to_numeric genre_names s q h).2
           !! l
         = h !! l.
Proof.
  intros H1 H2 H3 H4. split; [|apply run_keeps_old].
  unfold Heap.engine_state. by rewrite !run_keeps_old.
Qed.

Lemma queries_leave_engine_state_witness :
  Heap.engine_state demo_self
    (Heap.run demo_re_library demo_tie_rank demo_py_int demo_to_numeric
              demo_genre_names demo_self demo_filter
              (demo_heap trio_engine)).2
  = Heap.engine_state demo_self (demo_heap trio_engine)
  ∧ ∀ l, l < length (demo_heap trio_engine) →
         (Heap.run demo_re_library demo_tie_rank demo_py_int demo_to_numeric
                   demo_genre_names demo_self demo_filter
                   (demo_heap trio_engine)).2 !! l
         = demo_heap trio_engine !! l.
Proof.
  apply (queries_leave_engine_state demo_re_library demo_tie_rank
           demo_py_int demo_to_numeric demo_genre_names demo_self
           demo_filter (demo_heap trio_engine));
    simpl; lia.
Defined.

(** ** The heap procedures compute the answers of the pure model *)

Lemma lookup_last {A} (l : list A) (x : A) : (l ++ [x]) !! length l = Some x.
Proof. by apply list_lookup_middle. Qed.

(** Find an object in a heap built by appending. *)
Ltac solve_lookup :=
  first [ eassumption
        | apply lookup_last
        | apply lookup_app_l_Some; solve_lookup ].

Section Runs.
Import Heap.
Variable re_library : string → option (string → bool).
Variable tie_rank : list cell → nat → nat.

Lemma runs_ret {A} (a : A) h : runs (mret a) h a h.
Proof. done. Qed.

Lemma runs_bind {A B} (m : M A) (f : A → M B) h a h1 b h2 :
  runs m h a h1 → runs (f a) h1 b h2 → runs (m ≫= f) h b h2.
Proof. unfold runs, mbind, M_bind. by intros -> ->. Qed.

Lemma fails_bind_l {A B} (m : M A) (f : A → M B) h :
  fails m h → fails (m ≫= f) h.
Proof.
  unfold fails, mbind, M_bind. destruct (m h) as [[a|] h1]; simpl; [done|].
  done.
Qed.

Lemma fails_bind_r {A B} (m : M A) (f : A → M B) h a h1 :
  runs m h a h1 → fails (f a) h1 → fails (m ≫= f) h.
Proof. unfold runs, fails, mbind, M_bind. by intros ->. Qed.

Lemma runs_fmap {A B} (g : A → B) (m : M A) h a h1 :
  runs m h a h1 → runs (g <$> m) h (g a) h1.
Proof. intros Hm. unfold fmap, M_fmap. by eapply runs_bind. Qed.

Lemma fails_fmap {A B} (g : A → B) (m : M A) h :
  fails m h → fails (g <$> m) h.
Proof. intros Hm. unfold fmap, M_fmap. by apply fails_bind_l. Qed.

Lemma runs_alloc o h : runs (alloc o) h (length h) (h ++ [o]).
Proof. done. Qed.

Lemma runs_load l o h : h !! l = Some o → runs (load l) h o h.
Proof. unfold runs, load. by intros ->. Qed.

Lemma runs_store l o h :
  l < length h → runs (store l o) h () (<[l := o]> h).
Proof. intros Hl. unfold runs, store. by rewrite decide_True. Qed.

Lemma runs_load_frame l rows h :
  h !! l = Some (DataFrame rows) → runs (load_frame l) h rows h.
Proof. intros Hl. eapply runs_bind; [by apply runs_load|]. done. Qed.

Lemma runs_load_dict l r h :
  h !! l = Some (PyDict r) → runs (load_dict l) h r h.
Proof. intros Hl. eapply runs_bind; [by apply runs_load|]. done. Qed.

Lemma runs_load_list l items h :
  h !! l = Some (PyList items) → runs (load_list l) h items h.
Proof. intros Hl. eapply runs_bind; [by apply runs_load|]. done. Qed.

Lemma runs_load_set l names h :
  h !! l = Some (PySet names) → runs (load_set l) h names h.
Proof. intros Hl. eapply runs_bind; [by apply runs_load|]. done. Qed.

Lemma runs_load_map l cards h :
  h !! l = Some (PyMap cards) → runs (load_map l) h cards h.
Proof. intros Hl. eapply runs_bind; [by apply runs_load|]. done. Qed.

(** The engine is read back from any heap that extends one holding it. *)
Lemma holds_app s E h ext : holds s E h → holds s E (h ++ ext).
Proof.
  unfold holds, engine_state. intros [= H1 H2 H3 H4].
  by rewrite (lookup_app_l_Some _ _ _ _ H1), (lookup_app_l_Some _ _ _ _ H2),
    (lookup_app_l_Some _ _ _ _ H3), (lookup_app_l_Some _ _ _ _ H4).
Qed.

Lemma fmap_fst_pair {A B} (b : B) (l : list A) : ((λ a, (a, b)) <$> l).*1 = l.
Proof. induction l as [|a l IH]; simpl; [done | by f_equal]. Qed.

Lemma runs_load_engine s E h : holds s E h → runs (load_engine s) h E h.
Proof.
  unfold holds, engine_state. intros [= H1 H2 H3 H4]. unfold load_engine.
  eapply runs_bind; [by apply runs_load_frame|].
  eapply runs_bind; [eapply runs_bind; [by apply runs_load|done]|].
  eapply runs_bind; [eapply runs_bind; [by apply runs_load|done]|].
  unfold runs. destruct E as [df sim ix]. simpl.
  by rewrite fmap_fst_pair.
Qed.

Lemma runs_new_frame df (f : list row → list row) rows h :
  h !! df = Some (DataFrame rows) →
  runs (rows ← load_frame df; alloc (DataFrame (f rows))) h
       (length h) (h ++ [DataFrame (f rows)]).
Proof.
  intros Hdf. eapply runs_bind; [by apply runs_load_frame|]. apply runs_alloc.
Qed.

Lemma runs_df_len df rows h :
  h !! df = Some (DataFrame rows) → runs (df_len df) h (length rows) h.
Proof. intros Hdf. eapply runs_bind; [by apply runs_load_frame|]. done. Qed.

Lemma runs_format_movies df rows h :
  h !! df = Some (DataFrame rows) →
  runs (_format_movies_m df) h (_format_movies rows.*1) h.
Proof. intros Hdf. eapply runs_bind; [by apply runs_load_frame|]. done. Qed.

(** Sorting and selecting rows commutes with forgetting the extra
    column. *)
Lemma insert_stable_fmap {A B K} (ltb : K → K → bool) (key : B → K)
    (f : A → B) reverse x l :
  f <$> insert_stable ltb (λ a, key (f a)) reverse x l
  = insert_stable ltb key reverse (f x) (f <$> l).
Proof.
  induction l as [|y l IH]; [done|]. simpl.
  change (precedes ltb (λ a, key (f a)) reverse y x)
    with (precedes ltb key reverse (f y) (f x)).
  destruct (precedes ltb key reverse (f y) (f x)); simpl; [|done].
  f_equal. exact IH.
Qed.

Lemma sorted_fmap {A B K} (ltb : K → K → bool) (key : B → K) (f : A → B)
    reverse l :
  f <$> sorted ltb (λ a, key (f a)) reverse l = sorted ltb key reverse (f <$> l).
Proof.
  induction l as [|x l IH]; [done|]. simpl.
  etrans; [apply insert_stable_fmap|]. f_equal. exact IH.
Qed.

Lemma filter_fmap {A B} (p : B → bool) (f : A → B) l :
  f <$> List.filter (λ a, p (f a)) l = List.filter p (f <$> l).
Proof.
  induction l as [|x l IH]; [done|]. simpl.
  destruct (p (f x)); simpl; [f_equal|]; exact IH.
Qed.

Lemma nlargest_fmap {A B} (f : A → B) n (column : B → Q) l :
  f <$> nlargest n (λ a, column (f a)) l = nlargest n column (f <$> l).
Proof.
  unfold nlargest. case_match; [done|]. by rewrite fmap_take, sorted_fmap.
Qed.

Lemma enumerate_fmap {A B} (f : A → B) (l : list A) :
  enumerate (f <$> l) = prod_map id f <$> enumerate l.
Proof.
  unfold enumerate. rewrite length_fmap. generalize (seq 0 (length l)) as k.
  induction l as [|x l IH]; intros [|i k]; try done.
  simpl. f_equal. apply IH.
Qed.

Lemma argsort_fmap {A B} (f : A → B) (column : B → cell) l :
  f <$> argsort tie_rank (λ a, column (f a)) l
  = argsort tie_rank column (f <$> l).
Proof.
  unfold argsort.
  rewrite enumerate_fmap, <- (list_fmap_compose f column l).
  rewrite <- (sorted_fmap tied_ltb
                (λ p : nat * B,
                   (column p.2, tie_rank ((column ∘ f) <$> l) p.1))
                (prod_map id f)).
  rewrite <- !list_fmap_compose. reflexivity.
Qed.

Lemma sort_values_fmap {A B} (f : A → B) (column : B → cell) ascending l :
  f <$> sort_values tie_rank (λ a, column (f a)) ascending l
  = sort_values tie_rank column ascending (f <$> l).
Proof.
  unfold sort_values. rewrite fmap_app.
  rewrite <- !(filter_fmap (λ b, negb (is_nan (column b)))),
    <- !(filter_fmap (λ b, is_nan (column b))).
  f_equal. destruct ascending; [apply argsort_fmap|].
  by rewrite fmap_reverse, argsort_fmap, fmap_reverse.
Qed.

Lemma runs_get_popular_movies s E h limit offset :
  holds s E h →
  ∃ h', runs (get_popular_movies_m s limit offset) h
             (get_popular_movies E limit offset) h'.
Proof.
  intros Hholds. pose proof Hholds as [= H1 _ _ _]. eexists.
  unfold get_popular_movies_m.
  eapply runs_bind; [by apply (runs_new_frame _ (nlargest _ _))|].
  eapply runs_bind; [apply (runs_new_frame _ (λ r, slice r _ _)); solve_lookup|].
  eapply runs_bind; [apply runs_df_len; solve_lookup|].
  eapply runs_bind; [apply runs_format_movies; solve_lookup|].
  unfold runs, get_popular_movies.
  rewrite <- slice_fmap, (nlargest_fmap fst _ popularity), fmap_fst_pair.
  by rewrite length_fmap.
Qed.

Lemma runs_get_top_rated_movies s E h limit min_votes offset :
  holds s E h →
  ∃ h', runs (get_top_rated_movies_m s limit min_votes offset) h
             (get_top_rated_movies E limit min_votes offset) h'.
Proof.
  intros Hholds. pose proof Hholds as [= H1 _ _ _]. eexists.
  unfold get_top_rated_movies_m.
  eapply runs_bind; [by apply (runs_new_frame _ (List.filter _))|].
  eapply runs_bind; [apply (runs_new_frame _ (nlargest _ _)); solve_lookup|].
  eapply runs_bind; [apply (runs_new_frame _ (λ r, slice r _ _)); solve_lookup|].
  eapply runs_bind; [apply runs_format_movies; solve_lookup|].
  eapply runs_bind; [apply runs_df_len; solve_lookup|].
  unfold runs, get_top_rated_movies.
  rewrite <- slice_fmap, (nlargest_fmap fst _ vote_average).
  rewrite <- (length_fmap fst (List.filter _ _)).
  rewrite !(filter_fmap (λ m, (min_votes <=? vote_count m)%Z) fst).
  by rewrite fmap_fst_pair.
Qed.

Lemma simulates_bind {A A' B B'} (m : M A) (f : A → M A') h
    (o : option B) (g : B → option B') R R' :
  simulates m h o R →
  (∀ a h' b, R a h' b → simulates (f a) h' (g b) R') →
  simulates (m ≫= f) h (o ≫= g) R'.
Proof.
  intros Hm Hf. destruct o as [b|]; simpl in *; [|by apply fails_bind_l].
  destruct Hm as (a & h' & Hrun & HR). specialize (Hf a h' b HR).
  destruct (g b) as [b'|]; simpl in *.
  - destruct Hf as (a' & h'' & Hrun' & HR'). exists a', h''.
    split; [by eapply runs_bind | done].
  - by eapply fails_bind_r.
Qed.

Lemma simulates_runs {A A' B} (m : M A) (f : A → M A') h a h'
    (o : option B) R :
  runs m h a h' → simulates (f a) h' o R → simulates (m ≫= f) h o R.
Proof.
  intros Hm Hf. destruct o as [b|]; simpl in *.
  - destruct Hf as (a' & h'' & Hrun' & HR'). exists a', h''.
    split; [by eapply runs_bind | done].
  - by eapply fails_bind_r.
Qed.

Lemma simulates_ret {A B} (a : A) h (b : B) (R : A → heap → B → Prop) :
  R a h b → simulates (mret a) h (Some b) R.
Proof. intros HR. exists a, h. by split. Qed.

Lemma simulates_lift_option {A} (o : option A) h :
  simulates (lift_option o) h o (λ a h' b, a = b ∧ h' = h).
Proof. destruct o as [a|]; simpl; [|done]. by exists a, h. Qed.

Section FilterFrames.
Variable py_int : string → option Z.
Variable to_numeric : string → option Q.

Local Abbreviation frame := (frame_at to_numeric).

Lemma filter_ext_Forall {A} (p q : A → bool) (P : A → Prop) l :
  Forall P l → (∀ x, P x → p x = q x) → List.filter p l = List.filter q l.
Proof.
  intros Hl Hpq. induction Hl as [|x l Hx Hl IH]; [done|]. simpl.
  by rewrite (Hpq x Hx), IH.
Qed.

Lemma Forall_list_filter {A} (p : A → bool) (P : A → Prop) l :
  Forall P l → Forall P (List.filter p l).
Proof.
  induction 1 as [|x l Hx Hl IH]; [done|]. simpl.
  destruct (p x); [by constructor | done].
Qed.

Lemma frame_at_where yr l h ms (keep : row → bool) (p : Movie → bool) :
  frame yr l h ms →
  (∀ r : row, (yr = true → r.2 = Some (_year to_numeric r.1)) → keep r = p r.1) →
  ∃ h', runs (df_where l keep) h (length h) h'
        ∧ frame yr (length h) h' (List.filter p ms).
Proof.
  intros (rows & Hl & <- & Hyr) Hkeep. eexists. split.
  { by apply (runs_new_frame _ (List.filter keep)). }
  exists (List.filter keep rows). split_and!; [apply lookup_last| |].
  - rewrite <- (filter_fmap p fst).
    f_equal. destruct yr.
    + eapply filter_ext_Forall; [by apply Hyr|]. intros r Hr. by apply Hkeep.
    + apply (filter_ext_Forall _ _ (λ _, True)); [by apply Forall_true|].
      intros r _. by apply Hkeep.
  - intros ->. by apply Forall_list_filter, Hyr.
Qed.

Lemma simulates_str_contains yr l h ms pat (column : Movie → string) :
  frame yr l h ms →
  simulates (df_str_contains re_library l pat column) h
            (str_contains re_library pat column ms) (frame yr).
Proof.
  intros Hl. unfold df_str_contains, str_contains.
  eapply simulates_bind; [apply simulates_lift_option|].
  intros re h' ? [<- ->]. simpl.
  destruct (frame_at_where yr l h ms
              (λ r, re (column r.1)) (λ m, re (column m)) Hl)
    as (h' & Hrun & Hframe); [done|].
  by exists (length h), h'.
Qed.

Lemma simulates_bound yr a (column : row → option Q) (col : Movie → option Q)
    cmp l h ms :
  frame yr l h ms →
  (∀ r : row, (yr = true → r.2 = Some (_year to_numeric r.1)) →
              column r = col r.1) →
  simulates (df_bound py_int a column cmp l) h
            (bound_filter py_int a col cmp ms) (frame yr).
Proof.
  intros Hl Hcol. unfold df_bound, bound_filter.
  destruct (truthy a); [|by apply simulates_ret].
  eapply simulates_bind; [apply simulates_lift_option|].
  intros n h' ? [<- ->]. simpl.
  destruct (frame_at_where yr l h ms
              (λ r, from_option (λ x, cmp x (inject_Z n)) false (column r))
              (λ m, from_option (λ x, cmp x (inject_Z n)) false (col m)) Hl)
    as (h' & Hrun & Hframe).
  { intros r Hr. by rewrite Hcol. }
  by exists (length h), h'.
Qed.

Lemma simulates_bind_assoc {A A' B B1 B'} (m : M A) (f : A → M A') h
    (o : option B) (f1 : B → option B1) (g : B1 → option B') R R' :
  simulates m h (o ≫= f1) R →
  (∀ a h' b, R a h' b → simulates (f a) h' (g b) R') →
  simulates (m ≫= f) h (o ≫= λ x, f1 x ≫= g) R'.
Proof.
  intros Hm Hf.
  assert ((o ≫= λ x, f1 x ≫= g) = (o ≫= f1) ≫= g) as -> by (by destruct o).
  by eapply simulates_bind.
Qed.

Lemma simulates_weaken {A B} (m : M A) h (o : option B)
    (R R' : A → heap → B → Prop) :
  simulates m h o R → (∀ a h' b, R a h' b → R' a h' b) → simulates m h o R'.
Proof.
  intros Hm HR. destruct o as [b|]; simpl in *; [|done].
  destruct Hm as (a & h' & ? & ?). exists a, h'. eauto.
Qed.

Lemma frame_at_forget_year yr l h ms : frame yr l h ms → frame false l h ms.
Proof. intros (rows & ? & ? & _). exists rows. by split_and!. Qed.

(** Assigning [_year] rewrites the frame in place and keeps its rows. *)
Lemma runs_df_set_year l h ms :
  frame false l h ms →
  ∃ h', runs (df_set_year to_numeric l) h () h' ∧ frame true l h' ms.
Proof.
  intros (rows & Hl & <- & _). eexists. split.
  { unfold df_set_year. eapply runs_bind; [by apply runs_load_frame|].
    apply runs_store. by eapply lookup_lt_Some. }
  eexists. split_and!.
  - apply list_lookup_insert_eq. by eapply lookup_lt_Some.
  - rewrite <- list_fmap_compose. by apply list_fmap_ext.
  - intros _. apply Forall_fmap, Forall_true. done.
Qed.

Lemma simulates_year_block year_from year_to l h ms :
  frame false l h ms →
  simulates
    (if truthy year_from || truthy year_to then
       df_set_year to_numeric l;;
       filtered ← df_bound py_int year_from year_cell Qgeb l;
       df_bound py_int year_to year_cell Qle_bool filtered
     else mret l)
    h
    (bound_filter py_int year_from (_year to_numeric) Qgeb ms
     ≫= bound_filter py_int year_to (_year to_numeric) Qle_bool)
    (frame false).
Proof.
  intros Hl. destruct (truthy year_from || truthy year_to) eqn:Hany.
  - destruct (runs_df_set_year l h ms Hl) as (h' & Hrun & Hyr).
    eapply simulates_runs; [exact Hrun|].
    eapply simulates_bind.
    { apply (simulates_bound true); [exact Hyr|].
      intros r Hr. unfold year_cell. by rewrite Hr. }
    intros l1 h1 ms1 Hl1. eapply simulates_weaken.
    { apply (simulates_bound true); [exact Hl1|].
      intros r Hr. unfold year_cell. by rewrite Hr. }
    intros ????. by eapply frame_at_forget_year.
  - apply orb_false_iff in Hany as [Hf Ht]. unfold bound_filter.
    rewrite Hf. simpl. rewrite Ht. by apply simulates_ret.
Qed.

Lemma frame_at_engine s E h :
  holds s E h → frame false (self_movies_df s) h (movies_df E).
Proof.
  intros [= H1 _ _ _]. eexists. split_and!; [done | |done].
  apply fmap_fst_pair.
Qed.

Lemma simulates_filter_frame s E h genre min_rating max_rating
    year_from year_to min_runtime max_runtime :
  holds s E h →
  simulates (filter_frame_m re_library py_int to_numeric s genre
               min_rating max_rating year_from year_to min_runtime
               max_runtime) h
            (filter_frame re_library py_int to_numeric E genre
               min_rating max_rating year_from year_to min_runtime
               max_runtime)
            (frame false).
Proof.
  intros Hholds. apply frame_at_engine in Hholds as Hdf.
  unfold filter_frame_m, filter_frame.
  destruct Hdf as (rows0 & Hrows0 & Hfst & _).
  eapply simulates_runs.
  { unfold df_copy. by apply (runs_new_frame _ (λ r, r)). }
  assert (frame false (length h) (h ++ [DataFrame rows0]) (movies_df E))
    as Hcopy.
  { exists rows0. split_and!; [apply lookup_last | done | done]. }
  destruct (frame_at_where false _ _ _
              (λ r : row, Qle_bool min_rating (vote_average r.1)
                          && Qle_bool (vote_average r.1) max_rating)
              (λ m, Qle_bool min_rating (vote_average m)
                    && Qle_bool (vote_average m) max_rating) Hcopy)
    as (h1 & Hrun1 & Hl1); [done|].
  eapply simulates_runs; [exact Hrun1|].
  eapply simulates_bind.
  { instantiate (1 := frame false).
    destruct genre as [[|c g]|];
      [by apply simulates_ret | by apply simulates_str_contains
      | by apply simulates_ret]. }
  intros l2 h2 ms2 Hl2.
  eapply (simulates_bind_assoc _ _ _ _
            (bound_filter py_int year_to (_year to_numeric) Qle_bool)).
  { by apply simulates_year_block. }
  intros l3 h3 ms3 Hl3.
  eapply simulates_bind; [by apply (simulates_bound false)|].
  intros l4 h4 ms4 Hl4.
  by apply (simulates_bound false).
Qed.

Lemma simulates_filter_movies s E h genre min_rating max_rating
    year_from year_to min_runtime max_runtime sort_by order limit offset :
  holds s E h →
  simulates (filter_movies_m re_library tie_rank py_int to_numeric s genre
               min_rating max_rating year_from year_to min_runtime
               max_runtime sort_by order limit offset) h
            (filter_movies re_library tie_rank py_int to_numeric E genre
               min_rating max_rating year_from year_to min_runtime
               max_runtime sort_by order limit offset)
            (λ a _ b, a = b).
Proof.
  intros Hholds. unfold filter_movies_m, filter_movies.
  eapply simulates_bind; [by apply simulates_filter_frame|].
  intros l h1 ms (rows & Hl & <- & _).
  eapply simulates_runs; [by apply runs_df_len|].
  eapply simulates_runs;
    [by apply (runs_new_frame _ (sort_values tie_rank _ _))|].
  eapply simulates_runs;
    [apply (runs_new_frame _ (λ r, slice r _ _)); solve_lookup|].
  eapply simulates_runs; [apply runs_format_movies; solve_lookup|].
  apply simulates_ret.
  rewrite <- slice_fmap, (sort_values_fmap fst (sort_col sort_by)).
  by rewrite length_fmap.
Qed.
End FilterFrames.

Lemma simulates_search_movies s E h query limit offset :
  holds s E h →
  simulates (search_movies_m re_library s query limit offset) h
            (search_movies re_library E query limit offset) (λ a _ b, a = b).
Proof.
  intros Hholds. unfold search_movies_m, search_movies.
  eapply simulates_bind.
  { apply (simulates_str_contains (λ _, None) false).
    by apply frame_at_engine. }
  intros l h1 ms (rows & Hl & <- & _).
  eapply simulates_runs; [by apply runs_df_len|].
  eapply simulates_runs;
    [by apply (runs_new_frame _ (λ r, slice r _ _))|].
  eapply simulates_runs; [apply runs_format_movies; solve_lookup|].
  apply simulates_ret.
  by rewrite <- slice_fmap, length_fmap.
Qed.
End Runs.

Section RunsRecs.
Import Heap.

Lemma holds_below s E h : holds s E h → engine_below s (length h).
Proof.
  intros [= H1 H2 H3 H4]. repeat split; by eapply lookup_lt_Some.
Qed.

Lemma holds_insert s E h n d o :
  holds s E h → engine_below s n → n ≤ d → holds s E (<[d := o]> h).
Proof.
  unfold holds, engine_state. intros Hh (? & ? & ? & ?) Hd.
  by rewrite !list_lookup_insert_ne by lia.
Qed.

Lemma raises_bind_l {A B} (m : M A) (f : A → M B) h h' :
  raises m h h' → raises (m ≫= f) h h'.
Proof. unfold raises, mbind, M_bind. by intros ->. Qed.

Lemma raises_bind_r {A B} (m : M A) (f : A → M B) h a h1 h2 :
  runs m h a h1 → raises (f a) h1 h2 → raises (m ≫= f) h h2.
Proof. unfold runs, raises, mbind, M_bind. by intros -> ->. Qed.

Lemma runs_try_ok {A} (body handler : M A) h a h' :
  runs body h a h' → runs (try_except body handler) h a h'.
Proof. unfold runs, try_except. by intros ->. Qed.

Lemma runs_try_handler {A} (body handler : M A) h h1 a h2 :
  raises body h h1 → runs handler h1 a h2 →
  runs (try_except body handler) h a h2.
Proof. unfold runs, raises, try_except. by intros -> ->. Qed.

Lemma runs_alloc_dicts recs h :
  runs (mapM (λ r, alloc (PyDict r)) recs) h
       (seq (length h) (length recs)) (h ++ (PyDict <$> recs)).
Proof.
  revert h. induction recs as [|r recs IH]; intros h.
  { unfold runs. simpl. by rewrite app_nil_r. }
  cbn [mapM]. eapply runs_bind; [apply runs_alloc|].
  eapply runs_bind; [apply IH|].
  unfold runs. simpl. rewrite length_app, <- app_assoc. simpl.
  by rewrite Nat.add_1_r.
Qed.

Lemma runs_load_dicts items recs h :
  dicts_at h items recs → runs (mapM load_dict items) h recs h.
Proof.
  induction 1 as [|d r items recs Hd _ IH]; [done|].
  cbn [mapM]. eapply runs_bind; [by apply runs_load_dict|].
  eapply runs_bind; [apply IH|]. done.
Qed.

Lemma dicts_at_seq h recs post :
  dicts_at (h ++ (PyDict <$> recs) ++ post) (seq (length h) (length recs)) recs.
Proof.
  revert h. induction recs as [|r recs IH]; intros h; [constructor|].
  simpl. constructor.
  - by apply list_lookup_middle.
  - specialize (IH (h ++ [PyDict r])).
    rewrite length_app, Nat.add_1_r, <- app_assoc in IH. exact IH.
Qed.

(** Where [get_recommendations] leaves its dicts and its list. *)
Lemma runs_get_recommendations s E h mid top_n :
  holds s E h →
  match get_recommendations E mid top_n with
  | None => runs (get_recommendations_m s mid top_n) h None h
  | Some recs =>
      runs (get_recommendations_m s mid top_n) h
           (Some (length h + length recs))
           (h ++ (PyDict <$> recs) ++ [PyList (seq (length h) (length recs))])
  end.
Proof.
  intros Hholds. unfold get_recommendations_m.
  destruct (get_recommendations E mid top_n) as [recs|] eqn:Hrecs.
  - apply runs_try_ok.
    eapply runs_bind; [by apply runs_load_engine|]. rewrite Hrecs.
    eapply runs_bind; [apply runs_ret|].
    eapply runs_bind; [apply runs_alloc_dicts|].
    eapply runs_bind; [apply runs_alloc|].
    unfold runs. simpl. by rewrite length_app, length_fmap, <- app_assoc.
  - eapply runs_try_handler; [|apply runs_ret].
    eapply raises_bind_r; [by apply runs_load_engine|]. rewrite Hrecs.
    by apply raises_bind_l.
Qed.

Lemma Forall_zip_Forall2 {A B} (R : A → B → Prop) l k :
  Forall2 R l k → Forall (λ p, R p.1 p.2) (zip l k).
Proof. induction 1; constructor; done. Qed.

Lemma Forall2_fst_snd {A B} (R : A → B → Prop) (s : list (A * B)) :
  Forall (λ p, R p.1 p.2) s → Forall2 R s.*1 s.*2.
Proof. induction 1; constructor; done. Qed.

(** Sorting references by the key of what they refer to lists the
    referents in sorted order. *)
Lemma sorted_refs {A B} (R : A → B → Prop) (key : B → Q) reverse
    (items : list A) (recs : list B) :
  Forall2 R items recs →
  Forall2 R (sorted Qltb (λ p, key p.2) reverse (zip items recs)).*1
            (sorted Qltb key reverse recs).
Proof.
  intros HF.
  rewrite <- (snd_zip items recs) at 2 by (by rewrite (Forall2_length _ _ _ HF)).
  rewrite <- (sorted_fmap Qltb key snd).
  apply Forall2_fst_snd. rewrite sorted_perm. by apply Forall_zip_Forall2.
Qed.

Lemma dicts_at_slice h items recs start stop :
  dicts_at h items recs → dicts_at h (slice items start stop) (slice recs start stop).
Proof.
  intros HF. unfold slice. rewrite (Forall2_length _ _ _ HF).
  by apply Forall2_take, Forall2_drop.
Qed.

Lemma dicts_at_mono (h h' : heap) items recs :
  dicts_at h items recs →
  (∀ d, d ∈ items → h' !! d = h !! d) → dicts_at h' items recs.
Proof.
  intros HF Hsame. induction HF as [|d r items recs Hd _ IH]; [constructor|].
  constructor.
  - rewrite Hsame; [done | left].
  - apply IH. intros d' Hd'. apply Hsame. by right.
Qed.

Lemma fails_lift_Raised {A} h : fails (lift (@Raised A)) h.
Proof. done. Qed.

(** The loop over the candidates scores the dicts in place, one
    after the other, as [mapM score_rec] scores the records. *)
Lemma runs_score_dicts s E n alpha liked disliked items pool H :
  holds s E H → engine_below s n → Forall (λ d, n ≤ d) items → NoDup items →
  dicts_at H items pool →
  match mapM (score_rec E alpha liked disliked) pool with
  | Returned scored =>
      ∃ H', runs (for_each (score_dict s alpha liked disliked) items) H () H'
            ∧ dicts_at H' items scored
            ∧ (∀ l, l ∉ items → H' !! l = H !! l)
            ∧ length H' = length H
  | Raised => fails (for_each (score_dict s alpha liked disliked) items) H
  end.
Proof.
  intros Hholds Hbelow Hfresh Hnd Hdicts. revert H Hholds Hdicts.
  induction pool as [|r pool IH] in items, Hfresh, Hnd |- *;
    intros H Hholds Hdicts.
  { apply Forall2_nil_inv_r in Hdicts as ->. simpl.
    exists H. split_and!; [done | constructor | done | done]. }
  apply Forall2_cons_inv_r in Hdicts as (d & items' & Hd & Hdicts & ->).
  apply Forall_cons in Hfresh as [Hdn Hfresh].
  apply NoDup_cons in Hnd as [Hdnot Hnd].
  assert (score_rec E alpha liked disliked r
          = match collab_boost E liked disliked (rec_id r) with
            | Returned b =>
                Returned (set_hybrid_score r (round2 (hybrid alpha r b * 100)))
            | Raised => Raised
            end) as Hsr.
  { unfold score_rec. by destruct (collab_boost E liked disliked (rec_id r)). }
  cbn [mapM for_each]. rewrite Hsr. clear Hsr.
  destruct (collab_boost E liked disliked (rec_id r)) as [b|] eqn:Hb.
  2: { apply fails_bind_l. unfold score_dict.
       eapply fails_bind_r; [by apply runs_load_dict|].
       eapply fails_bind_r; [by apply runs_load_engine|].
       rewrite Hb. by apply fails_bind_l. }
  cbn [mbind result_bind].
  set (r' := set_hybrid_score r (round2 (hybrid alpha r b * 100))).
  set (H1 := <[d := PyDict r']> H).
  assert (d < length H) as Hdlt by (by eapply lookup_lt_Some).
  assert (runs (score_dict s alpha liked disliked d) H () H1) as Hstep.
  { unfold score_dict.
    eapply runs_bind; [by apply runs_load_dict|].
    eapply runs_bind; [by apply runs_load_engine|].
    rewrite Hb. eapply runs_bind; [done|]. by apply runs_store. }
  assert (dicts_at H1 items' pool) as Hdicts1.
  { eapply dicts_at_mono; [exact Hdicts|]. intros d' Hd'. unfold H1.
    apply list_lookup_insert_ne. by intros ->. }
  specialize (IH items' Hfresh Hnd H1 (holds_insert _ _ _ _ _ _ Hholds Hbelow Hdn)
                 Hdicts1).
  destruct (mapM (score_rec E alpha liked disliked) pool) as [scored|].
  - destruct IH as (H' & Hrun & Hscored & Hframe & Hlen).
    exists H'. split_and!.
    + by eapply runs_bind.
    + constructor; [|done].
      rewrite Hframe by done. unfold H1. by apply list_lookup_insert_eq.
    + intros l Hl. apply not_elem_of_cons in Hl as [Hld Hl].
      rewrite Hframe by done. unfold H1. by apply list_lookup_insert_ne.
    + rewrite Hlen. unfold H1. by rewrite length_insert.
  - by eapply fails_bind_r.
Qed.

Lemma hybrid_recommendations_agrees s E h mid user_ratings top_n alpha :
  holds s E h →
  match hybrid_recommendations E mid user_ratings top_n alpha with
  | Returned o =>
      ∃ l H, runs (hybrid_recommendations_m s mid user_ratings top_n alpha) h l H
             ∧ runs (read_recs l) H o H
  | Raised => fails (hybrid_recommendations_m s mid user_ratings top_n alpha) h
  end.
Proof.
  intros Hholds. unfold hybrid_recommendations, hybrid_recommendations_m.
  pose proof (runs_get_recommendations s E h mid (top_n * 3) Hholds) as Hget.
  destruct (get_recommendations E mid (top_n * 3)) as [pool|].
  2: { exists None, h. split; [by eapply runs_bind | done]. }
  set (items := seq (length h) (length pool)) in *.
  set (lst := length h + length pool) in *.
  set (H0 := h ++ (PyDict <$> pool) ++ [PyList items]) in *.
  assert (H0 !! lst = Some (PyList items)) as Hlst.
  { unfold H0, lst. rewrite lookup_app_r by lia.
    replace (length h + length pool - length h) with (length (PyDict <$> pool))
      by (rewrite length_fmap; lia).
    apply lookup_last. }
  destruct pool as [|c pool].
  { exists None, H0. split; [|done].
    eapply runs_bind; [exact Hget|].
    eapply runs_bind; [by apply runs_load_list|]. done. }
  assert (Forall (λ d, length h ≤ d) items) as Hfresh.
  { apply Forall_forall. intros d Hd%elem_of_seq. lia. }
  assert (lst ∉ items) as Hlstnot.
  { intros Hin%elem_of_seq. unfold lst in Hin. lia. }
  pose proof (runs_score_dicts s E (length h) alpha (liked_ids user_ratings)
                (disliked_ids user_ratings) items (c :: pool) H0
                (holds_app _ _ _ _ Hholds) (holds_below _ _ _ Hholds) Hfresh
                (NoDup_seq _ _) (dicts_at_seq h (c :: pool) _)) as Hloop.
  destruct (mapM (score_rec E alpha (liked_ids user_ratings)
                            (disliked_ids user_ratings)) (c :: pool))
    as [scored|].
  2: { eapply fails_bind_r; [exact Hget|].
       eapply fails_bind_r; [by apply runs_load_list|].
       by apply fails_bind_l. }
  destruct Hloop as (H' & Hrun & Hscored & Hframe & Hlen).
  set (refs := (sorted Qltb (λ p : loc * Rec, hybrid_key p.2) true
                       (zip items scored)).*1).
  set (H2 := <[lst := PyList refs]> H').
  assert (lst < length H') as Hlt.
  { rewrite Hlen. by eapply lookup_lt_Some. }
  exists (Some (length H2)), (H2 ++ [PyList (slice refs 0 top_n)]).
  split.
  - eapply runs_bind; [exact Hget|].
    eapply runs_bind; [by apply runs_load_list|].
    change (runs (for_each (score_dict s alpha (liked_ids user_ratings)
                              (disliked_ids user_ratings)) items;;
                  sort_by_hybrid_score lst;;
                  items0 ← load_list lst;
                  top ← alloc (PyList (slice items0 0 top_n));
                  mret (Some top)) H0 (Some (length H2))
                 (H2 ++ [PyList (slice refs 0 top_n)])).
    eapply runs_bind; [exact Hrun|].
    eapply runs_bind.
    { unfold sort_by_hybrid_score.
      eapply runs_bind; [apply runs_load_list; by rewrite Hframe|].
      eapply runs_bind; [by apply runs_load_dicts|].
      by apply runs_store. }
    eapply runs_bind.
    { apply runs_load_list. unfold H2. by apply list_lookup_insert_eq. }
    eapply runs_bind; [apply runs_alloc|]. done.
  - simpl. eapply runs_bind; [apply runs_load_list, lookup_last|].
    eapply runs_bind; [|done].
    apply runs_load_dicts, dicts_at_slice.
    eapply dicts_at_mono; [by apply (sorted_refs _ hybrid_key true items scored)|].
    intros d Hd.
    assert (d ∈ items) as Hditems.
    { apply list_elem_of_fmap in Hd as ([d' r] & -> & Hd).
      rewrite sorted_perm in Hd. by apply elem_of_zip_l in Hd. }
    assert (d ≠ lst) as Hne by (by intros ->).
    assert (d < length H') as Hdlt.
    { rewrite Hlen. apply elem_of_seq in Hditems. unfold H0.
      rewrite !length_app, length_fmap. simpl in *. lia. }
    rewrite lookup_app_l by (unfold H2; by rewrite length_insert).
    unfold H2. by apply list_lookup_insert_ne.
Qed.

Lemma get_recommendations_agrees s E h mid top_n :
  holds s E h →
  ∃ l H, runs (get_recommendations_m s mid top_n) h l H
         ∧ runs (read_recs l) H (get_recommendations E mid top_n) H
         ∧ holds s E H.
Proof.
  intros Hholds.
  pose proof (runs_get_recommendations s E h mid top_n Hholds) as Hget.
  destruct (get_recommendations E mid top_n) as [recs|].
  2: { by exists None, h. }
  eexists _, _. split; [exact Hget|]. split; [|by apply holds_app].
  simpl. eapply runs_bind.
  { apply runs_load_list. rewrite lookup_app_r by lia.
    replace (length h + length recs - length h) with (length (PyDict <$> recs))
      by (rewrite length_fmap; lia).
    apply lookup_last. }
  eapply runs_bind; [|done]. apply runs_load_dicts, dicts_at_seq.
Qed.

Lemma because_you_liked_agrees s E h movie_ids top_n draw :
  holds s E h →
  match because_you_liked E movie_ids top_n draw with
  | Returned (source_title, recs) =>
      ∃ l H, runs (because_you_liked_m s movie_ids top_n draw) h
                  (source_title, l) H
             ∧ runs (read_recs l) H recs H
  | Raised => fails (because_you_liked_m s movie_ids top_n draw) h
  end.
Proof.
  intros Hholds. unfold because_you_liked, because_you_liked_m.
  destruct (List.filter (in_index (indices E)) movie_ids) as [|v valid] eqn:Hv.
  { exists None, h. split; [|done].
    eapply runs_bind; [by apply runs_load_engine|]. by rewrite Hv. }
  destruct (random_choice (v :: valid) draw) as [source_id|] eqn:Hchoice.
  2: { eapply fails_bind_r; [by apply runs_load_engine|]. rewrite Hv.
       apply fails_bind_l. unfold fails, lift. by rewrite Hchoice. }
  cbn [mbind result_bind].
  destruct (get_recommendations_agrees s E h source_id top_n Hholds)
    as (l & H & Hrun & Hread & HholdsH).
  destruct (title_of E source_id) as [source_title|] eqn:Htitle.
  - exists l, H. split; [|done].
    eapply runs_bind; [by apply runs_load_engine|]. rewrite Hv.
    eapply runs_bind; [unfold runs, lift; by rewrite Hchoice|].
    eapply runs_bind; [exact Hrun|].
    eapply runs_bind; [by apply runs_load_engine|].
    eapply runs_bind; [unfold runs, lift; by rewrite Htitle|]. done.
  - eapply fails_bind_r; [by apply runs_load_engine|]. rewrite Hv.
    eapply fails_bind_r; [unfold runs, lift; by rewrite Hchoice|].
    eapply fails_bind_r; [exact Hrun|].
    eapply fails_bind_r; [by apply runs_load_engine|].
    apply fails_bind_l. unfold fails, lift. by rewrite Htitle.
Qed.

(** The inner loop adds the names of one cell to the set object. *)
Lemma runs_set_adds l names (acc : gset string) h :
  h !! l = Some (PySet acc) →
  ∃ h', runs (for_each (set_add l) names) h () h'
        ∧ h' !! l = Some (PySet (acc ∪ list_to_set names)).
Proof.
  revert acc h. induction names as [|name names IH]; intros acc h Hl.
  { exists h. split; [done|]. simpl. by rewrite union_empty_r_L. }
  destruct (IH (acc ∪ {[name]}) (<[l := PySet (acc ∪ {[name]})]> h))
    as (h' & Hrun & Hl').
  { apply list_lookup_insert_eq. by eapply lookup_lt_Some. }
  exists h'. split.
  - cbn [for_each]. eapply runs_bind; [|exact Hrun].
    unfold set_add. eapply runs_bind; [by apply runs_load_set|].
    apply runs_store. by eapply lookup_lt_Some.
  - rewrite Hl'. simpl. by rewrite (assoc_L (∪)).
Qed.

Lemma runs_all_genres_loop genre_names l (rows : list row) (acc : gset string) h :
  h !! l = Some (PySet acc) →
  ∃ h', runs (for_each (λ r : row, for_each (set_add l)
                                            (genre_names (genres r.1))) rows)
             h () h'
        ∧ h' !! l
          = Some (PySet (foldl (λ s genres_str,
                                  s ∪ list_to_set (genre_names genres_str))
                               acc (genres <$> rows.*1))).
Proof.
  revert acc h. induction rows as [|r rows IH]; intros acc h Hl.
  { by exists h. }
  destruct (runs_set_adds l (genre_names (genres r.1)) acc h Hl)
    as (h1 & Hrun1 & Hl1).
  destruct (IH _ h1 Hl1) as (h' & Hrun & Hl').
  exists h'. split; [|done]. cbn [for_each]. by eapply runs_bind.
Qed.

Lemma runs_get_all_genres genre_names s E h :
  holds s E h →
  ∃ h', runs (get_all_genres_m genre_names s) h
             (get_all_genres genre_names E) h'.
Proof.
  intros Hholds. pose proof Hholds as [= H1 _ _ _].
  destruct (runs_all_genres_loop genre_names (length h)
              ((λ m, (m, None)) <$> movies_df E) ∅ (h ++ [PySet ∅]))
    as (h' & Hrun & Hl); [apply lookup_last|].
  exists h'. unfold get_all_genres_m.
  eapply runs_bind; [apply runs_alloc|].
  eapply runs_bind; [apply runs_load_frame; solve_lookup|].
  eapply runs_bind; [exact Hrun|].
  eapply runs_bind; [by apply runs_load_set|].
  unfold runs, get_all_genres. by rewrite fmap_fst_pair.
Qed.

Lemma runs_map_setitems l (rows : list row) (acc : gmap Z Card) h :
  h !! l = Some (PyMap acc) →
  ∃ h', runs (for_each (map_setitem l) rows) h () h'
        ∧ h' !! l
          = Some (PyMap (foldl (λ mp movie,
                                  <[movie_id movie := _format_single movie]> mp)
                               acc rows.*1)).
Proof.
  revert acc h. induction rows as [|r rows IH]; intros acc h Hl.
  { by exists h. }
  destruct (IH (<[movie_id r.1 := _format_single r.1]> acc)
              (<[l := PyMap (<[movie_id r.1 := _format_single r.1]> acc)]> h))
    as (h' & Hrun & Hl').
  { apply list_lookup_insert_eq. by eapply lookup_lt_Some. }
  exists h'. split; [|done].
  cbn [for_each]. eapply runs_bind; [|exact Hrun].
  unfold map_setitem. eapply runs_bind; [by apply runs_load_map|].
  apply runs_store. by eapply lookup_lt_Some.
Qed.

Lemma runs_get_movies_by_ids s E h movie_ids :
  holds s E h →
  ∃ h', runs (get_movies_by_ids_m s movie_ids) h
             (get_movies_by_ids E movie_ids) h'.
Proof.
  intros Hholds. pose proof Hholds as [= H1 _ _ _].
  set (rows0 := (λ m : Movie, (m, @None (option Q))) <$> movies_df E) in *.
  set (subset := List.filter (λ r : row, bool_decide (movie_id r.1 ∈ movie_ids))
                             rows0).
  destruct (runs_map_setitems (S (length h)) subset ∅
              ((h ++ [DataFrame subset]) ++ [PyMap ∅])) as (h' & Hrun & Hl).
  { replace (S (length h)) with (length (h ++ [DataFrame subset]))
      by (rewrite length_app; simpl; lia).
    apply lookup_last. }
  exists h'. unfold get_movies_by_ids_m.
  eapply runs_bind; [by apply (runs_new_frame _ (List.filter _))|].
  eapply runs_bind; [apply runs_alloc|].
  rewrite length_app. simpl. rewrite Nat.add_1_r.
  eapply runs_bind; [apply runs_load_frame; solve_lookup|].
  eapply runs_bind; [exact Hrun|].
  eapply runs_bind; [by apply runs_load_map|].
  unfold runs, get_movies_by_ids.
  assert (subset.*1 = filter (λ m, movie_id m ∈ movie_ids) (movies_df E)) as ->;
    [|done].
  unfold subset.
  pose (p := λ m : Movie, bool_decide (movie_id m ∈ movie_ids)).
  etrans; [apply (filter_fmap p fst rows0)|].
  unfold rows0. rewrite fmap_fst_pair.
  apply filter_bool. intros m. apply bool_decide_eq_true.
Qed.

Lemma runs_fst {A} (m : M A) h a h' : runs m h a h' → (m h).1 = Returned a.
Proof. unfold runs. by intros ->. Qed.

(** Run on a heap that holds the engine [E], every query gives the
    answer the pure functions give for [E]. *)
Theorem run_agrees re_library tie_rank py_int to_numeric genre_names s E q h :
  holds s E h →
  (run re_library tie_rank py_int to_numeric genre_names s q h).1
  = answer_of re_library tie_rank py_int to_numeric genre_names E q.
Proof.
  intros Hholds. destruct q; simpl.
  - destruct (get_recommendations_agrees s E h mid top_n Hholds)
      as (l & H & Hrun & Hread & _).
    eapply runs_fst, runs_bind; [exact Hrun|]. by apply runs_fmap.
  - pose proof (hybrid_recommendations_agrees s E h mid user_ratings top_n alpha
                  Hholds) as Hh.
    destruct (hybrid_recommendations E mid user_ratings top_n alpha) as [o|].
    + destruct Hh as (l & H & Hrun & Hread).
      eapply runs_fst, runs_bind; [exact Hrun|]. by apply runs_fmap.
    + by apply fails_bind_l.
  - pose proof (because_you_liked_agrees s E h movie_ids top_n draw Hholds) as Hb.
    destruct (because_you_liked E movie_ids top_n draw) as [[t recs]|].
    + destruct Hb as (l & H & Hrun & Hread).
      eapply runs_fst, runs_bind; [exact Hrun|]. simpl.
      by apply (runs_fmap (Sourced t)).
    + by apply fails_bind_l.
  - destruct (runs_get_popular_movies s E h limit offset Hholds) as [h' Hrun].
    eapply runs_fst. by apply runs_fmap.
  - destruct (runs_get_top_rated_movies s E h limit min_votes offset Hholds)
      as [h' Hrun].
    eapply runs_fst. by apply runs_fmap.
  - pose proof (simulates_search_movies re_library s E h text limit offset
                  Hholds) as Hs.
    destruct (search_movies re_library E text limit offset) as [p|];
      simpl in Hs.
    + destruct Hs as (a & h' & Hrun & ->). eapply runs_fst. by apply runs_fmap.
    + by apply fails_fmap.
  - pose proof (simulates_filter_movies re_library tie_rank py_int to_numeric
                  s E h genre min_rating max_rating year_from year_to
                  min_runtime max_runtime sort_by order limit offset Hholds)
      as Hs.
    destruct (filter_movies re_library tie_rank py_int to_numeric E genre
                min_rating max_rating year_from year_to min_runtime
                max_runtime sort_by order limit offset) as [p|]; simpl in Hs.
    + destruct Hs as (a & h' & Hrun & ->). eapply runs_fst. by apply runs_fmap.
    + by apply fails_fmap.
  - destruct (runs_get_all_genres genre_names s E h Hholds) as [h' Hrun].
    eapply runs_fst. by apply runs_fmap.
  - destruct (runs_get_movies_by_ids s E h movie_ids Hholds) as [h' Hrun].
    eapply runs_fst. by apply runs_fmap.
Qed.
End RunsRecs.

(** The engine held before a query is the engine held after it. *)
Corollary holds_after_query re_library tie_rank py_int to_numeric genre_names
    s E q h :
  Heap.holds s E h →
  Heap.holds s E
    (Heap.run re_library tie_rank py_int to_numeric genre_names s q h).2.
Proof.
  intros Hholds. pose proof (holds_below s E h Hholds) as (? & ? & ? & ?).
  unfold Heap.holds, Heap.engine_state in *.
  by rewrite !(run_keeps_old re_library tie_rank py_int to_numeric
                 genre_names s q h).
Qed.


(** ** Content recommendations of a built engine *)

Lemma built_row_length (df : list Movie) (sim : list (list Q)) idx row :
  square (length df) sim → sim !! idx = Some row → length row = length df.
Proof.
  intros [_ Hcols] Hrow. rewrite Forall_forall in Hcols.
  eapply Hcols, list_elem_of_lookup_2, Hrow.
Qed.

(** How a dict of the returned list relates to the ranked pair it was
    built from, in an engine with pairwise distinct ids. *)
Lemma recommendation_at_build df sim e r :
  NoDup (movie_id <$> df) →
  recommendation_at (_build_model df sim) e = Some r →
  ∃ m, df !! e.1 = Some m ∧ rec_id r = movie_id m
       ∧ similarity_score r = round2 (e.2 * 100)
       ∧ indices_getitem (build_indices df) (rec_id r) = Scalar e.1.
Proof.
  intros Hnd. unfold recommendation_at. simpl.
  destruct (df !! e.1) as [m|] eqn:Hm; [|done]. simpl. intros [= <-].
  exists m. split_and!; [done..|]. simpl. by apply indices_getitem_build.
Qed.

(** A known id of a built engine gets [top_n] neighbours, or all
    the other movies when there are fewer. *)
Lemma get_recommendations_build_length df sim idx m top_n :
  NoDup (movie_id <$> df) → square (length df) sim →
  df !! idx = Some m → (0 ≤ top_n)%Z →
  ∃ recs,
    get_recommendations (_build_model df sim) (movie_id m) top_n = Some recs
    ∧ length recs = Z.to_nat top_n `min` (length df - 1).
Proof.
  intros Hnd Hsq Hidx Hk.
  destruct (get_recommendations_build df sim idx m top_n Hnd Hsq Hidx)
    as (row & recs & Hrow & Hm & Hget).
  exists recs. split; [done|].
  apply mapM_Some, Forall2_length in Hm. rewrite <- Hm.
  rewrite ranked_length by done.
  by rewrite (built_row_length df sim idx row).
Qed.

(** The recommended movies are pairwise distinct when the ids of the
    frame are. *)
Lemma get_recommendations_NoDup df sim mid top_n recs :
  NoDup (movie_id <$> df) →
  get_recommendations (_build_model df sim) mid top_n = Some recs →
  NoDup (rec_id <$> recs).
Proof.
  intros Hnd (idx & row & _ & _ & Hm%mapM_Some)%get_recommendations_Some.
  assert (NoDup (ranked row top_n).*1) as Hpos.
  { eapply sublist_NoDup; [|apply fmap_sublist, slice_sublist].
    rewrite sorted_perm, enumerate_fst. apply NoDup_seq. }
  assert (rec_id <$> recs
          = (λ i, default 0%Z (movie_id <$> df !! i)) <$> (ranked row top_n).*1)
    as ->.
  { revert Hm. generalize (ranked row top_n). intros entries Hm.
    induction Hm as [|e r entries recs He _ IH]; [done|].
    rewrite !fmap_cons. f_equal; [|exact IH].
    destruct (recommendation_at_build df sim e r Hnd He) as (m & -> & -> & _).
    done. }
  apply NoDup_fmap_2_strong; [|done].
  intros i j Hi Hj Heq.
  assert (∀ k, k ∈ (ranked row top_n).*1 → is_Some (df !! k)) as Hrow.
  { intros k ([k' s] & -> & Hk)%list_elem_of_fmap.
    apply list_elem_of_lookup in Hk as [n Hn].
    destruct (Forall2_lookup_l _ _ _ _ _ Hm Hn) as (r & _ & Hr).
    destruct (recommendation_at_build df sim _ r Hnd Hr) as (m & Hdf & _).
    by exists m. }
  destruct (Hrow i Hi) as [mi Hmi]. destruct (Hrow j Hj) as [mj Hmj].
  rewrite Hmi, Hmj in Heq. simpl in Heq.
  eapply NoDup_lookup; [exact Hnd | |].
  - by rewrite list_lookup_fmap, Hmi.
  - rewrite list_lookup_fmap, Hmj. simpl. by rewrite Heq.
Qed.

(** X1. In a built engine (pairwise distinct ids, one matrix row and
    column per movie) a query for the id of a row, with [top_n] not
    negative, returns a list of [min(top_n, N - 1)] entries, [N]
    being the number of movies, and no movie is in it twice. *)
Theorem get_recommendations_count df sim idx m top_n :
  NoDup (movie_id <$> df) → square (length df) sim →
  df !! idx = Some m → (0 ≤ top_n)%Z →
  ∃ recs,
    get_recommendations (_build_model df sim) (movie_id m) top_n = Some recs
    ∧ length recs = Z.to_nat top_n `min` (length df - 1)
    ∧ NoDup (rec_id <$> recs).
Proof.
  intros Hnd Hsq Hidx Hk.
  destruct (get_recommendations_build_length df sim idx m top_n Hnd Hsq Hidx Hk)
    as (recs & Hrecs & Hlen).
  exists recs. split_and!; [done | done |].
  by eapply get_recommendations_NoDup.
Qed.

Lemma get_recommendations_count_witness :
  ∃ recs,
    get_recommendations trio_engine 10 1 = Some recs
    ∧ length recs = 1
    ∧ NoDup (rec_id <$> recs).
Proof.
  apply (get_recommendations_count (movies_df trio_engine)
           (cosine_sim trio_engine) 0
           (demo_movie 10 "Up" 900 (79 # 10) 50) 1).
  - apply (bool_decide_unpack _). vm_compute. exact I.
  - split; [reflexivity|]. repeat constructor.
  - reflexivity.
  - lia.
Defined.

(** X2. With pairwise distinct ids, a returned list is in
    descending order of the similarity the matrix gives between the
    queried movie and the recommended one. *)
Theorem get_recommendations_descending df sim mid top_n recs :
  NoDup (movie_id <$> df) →
  get_recommendations (_build_model df sim) mid top_n = Some recs →
  StronglySorted
    (λ a b, (spec_similarity (_build_model df sim) mid (rec_id b)
             <= spec_similarity (_build_model df sim) mid (rec_id a))%Q)
    recs.
Proof.
  intros Hnd (idx & row & Hidx & Hrow & Hm%mapM_Some)%get_recommendations_Some.
  simpl in Hidx, Hrow.
  assert (∀ e r, e ∈ ranked row top_n →
                 recommendation_at (_build_model df sim) e = Some r →
                 spec_similarity (_build_model df sim) mid (rec_id r) = e.2)
    as Hsim.
  { intros [i s] r Hin He.
    destruct (recommendation_at_build df sim _ r Hnd He) as (m & _ & _ & _ & Hget).
    apply ranked_in_row in Hin.
    unfold spec_similarity. simpl in *. rewrite Hidx, Hget, Hrow. simpl.
    by rewrite Hin. }
  pose proof (ranked_sorted row top_n) as Hsorted.
  revert Hm Hsim Hsorted. generalize (ranked row top_n). intros entries Hm.
  induction Hm as [|e r entries recs He Hm IH]; intros Hsim Hsorted;
    [constructor|].
  apply StronglySorted_inv in Hsorted as [Hsorted Hhead].
  constructor.
  { apply IH; [|done]. intros e' r' Hin. apply Hsim. by right. }
  apply Forall_forall. intros r' Hr'.
  apply list_elem_of_lookup in Hr' as [i Hi].
  destruct (Forall2_lookup_r _ _ _ _ _ Hm Hi) as (e' & He'in & He').
  apply list_elem_of_lookup_2 in He'in.
  rewrite (Hsim e r) by (done || left).
  rewrite (Hsim e' r') by (done || by right).
  rewrite Forall_forall in Hhead.
  destruct (Hhead e' He'in) as [Hlt | [Heq _]].
  - by apply Qlt_le_weak.
  - rewrite Heq. apply Qle_refl.
Qed.

Lemma get_recommendations_descending_witness :
  StronglySorted
    (λ a b, (spec_similarity trio_engine 10 (rec_id b)
             <= spec_similarity trio_engine 10 (rec_id a))%Q)
    (default [] (get_recommendations trio_engine 10 2)).
Proof.
  apply (get_recommendations_descending (movies_df trio_engine)
           (cosine_sim trio_engine) 10 2).
  - apply (bool_decide_unpack _). vm_compute. exact I.
  - vm_compute. reflexivity.
Defined.

(** X3. With pairwise distinct ids, when the queried movie is
    strictly more similar to itself than to every other movie, no
    entry of the returned list is the queried movie. *)
Theorem get_recommendations_excludes_query df sim idx m row s top_n recs :
  NoDup (movie_id <$> df) →
  df !! idx = Some m → sim !! idx = Some row → row !! idx = Some s →
  (∀ j t, j ≠ idx → row !! j = Some t → (t < s)%Q) →
  get_recommendations (_build_model df sim) (movie_id m) top_n = Some recs →
  movie_id m ∉ rec_id <$> recs.
Proof.
  intros Hnd Hm Hrow Hs Hmax Hget.
  apply get_recommendations_Some in Hget as (idx' & row' & Hidx & Hrow' & Hrecs).
  simpl in Hidx, Hrow'.
  rewrite (indices_getitem_build df idx m Hnd Hm) in Hidx.
  injection Hidx as <-. rewrite Hrow in Hrow'. injection Hrow' as <-.
  apply mapM_Some in Hrecs.
  intros (r & Hid & Hr)%list_elem_of_fmap.
  apply list_elem_of_lookup in Hr as [k Hk].
  destruct (Forall2_lookup_r _ _ _ _ _ Hrecs Hk) as (e & He & Hat).
  apply list_elem_of_lookup_2 in He.
  destruct (recommendation_at_build df sim e r Hnd Hat) as (m' & Hm' & Hid' & _).
  apply (ranked_excludes_strict_max row idx s top_n Hs Hmax e He).
  eapply NoDup_lookup; [exact Hnd | |].
  - by rewrite list_lookup_fmap, Hm'.
  - rewrite list_lookup_fmap, Hm. simpl. congruence.
Qed.

Lemma get_recommendations_excludes_query_witness :
  10%Z ∉ rec_id <$> default [] (get_recommendations trio_engine 10 2).
Proof.
  apply (get_recommendations_excludes_query (movies_df trio_engine)
           (cosine_sim trio_engine) 0 (demo_movie 10 "Up" 900 (79 # 10) 50)
           [1; 1 # 2; 1 # 4]%Q 1%Q 2).
  - apply (bool_decide_unpack _). vm_compute. exact I.
  - reflexivity.
  - reflexivity.
  - reflexivity.
  - intros [|[|[|j]]] t Hj Ht; simpl in Ht; try done;
      injection Ht as <-; reflexivity.
  - vm_compute. reflexivity.
Defined.

Lemma indices_getitem_duplicate df i j mi mj :
  df !! i = Some mi → df !! j = Some mj → i ≠ j →
  movie_id mi = movie_id mj →
  ∃ poss, indices_getitem (build_indices df) (movie_id mi) = SubSeries poss.
Proof.
  intros Hi Hj Hne Hid.
  assert (∀ k mk, df !! k = Some mk → movie_id mk = movie_id mi →
                  (movie_id mi, k)
                  ∈ filter (λ p : Z * nat, p.1 = movie_id mi) (build_indices df))
    as Hin.
  { intros k mk Hk Hmk. apply list_elem_of_filter. split; [done|].
    apply list_elem_of_lookup. exists k. unfold build_indices.
    apply lookup_zip_with_Some. exists (movie_id mi), k.
    split_and!; [done| |].
    - by rewrite list_lookup_fmap, Hk, <- Hmk.
    - apply lookup_seq. split; [done|]. by eapply lookup_lt_Some. }
  pose proof (Hin i mi Hi eq_refl) as Hpi.
  pose proof (Hin j mj Hj (eq_sym Hid)) as Hpj.
  unfold indices_getitem.
  destruct (filter (λ p : Z * nat, p.1 = movie_id mi) (build_indices df))
    as [|p [|q ps]]; [by apply elem_of_nil in Hpi| |by eexists].
  apply list_elem_of_singleton in Hpi, Hpj. congruence.
Qed.

(** X4. When two rows of the frame carry the queried id,
    [get_recommendations] answers [None], as it does for an unknown
    id: the index keeps both labels. *)
Theorem get_recommendations_duplicate_id df sim i j mi mj top_n :
  df !! i = Some mi → df !! j = Some mj → i ≠ j →
  movie_id mi = movie_id mj →
  get_recommendations (_build_model df sim) (movie_id mi) top_n = None.
Proof.
  intros Hi Hj Hne Hid.
  destruct (indices_getitem_duplicate df i j mi mj Hi Hj Hne Hid) as [poss Hsub].
  unfold get_recommendations. simpl. by rewrite Hsub.
Qed.

Lemma get_recommendations_duplicate_id_witness :
  get_recommendations reissue_engine 20 5 = None.
Proof.
  apply (get_recommendations_duplicate_id (movies_df reissue_engine)
           (cosine_sim reissue_engine) 1 2
           (demo_movie 20 "Heat" 700 (77 # 10) 40)
           (demo_movie 20 "Heat" 700 (77 # 10) 40) 5);
    [reflexivity | reflexivity | lia | reflexivity].
Defined.

(** X5. When every entry of the matrix lies between 0 and 1, every
    returned [similarity_score] lies between 0 and 100. *)
Theorem similarity_score_range E mid top_n recs :
  Forall (Forall (λ s, 0 <= s <= 1)%Q) (cosine_sim E) →
  get_recommendations E mid top_n = Some recs →
  Forall (λ r, 0 <= similarity_score r <= 100)%Q recs.
Proof.
  intros Hsim (idx & row & _ & Hrow & Hm%mapM_Some)%get_recommendations_Some.
  rewrite Forall_forall in Hsim.
  pose proof (Hsim row (list_elem_of_lookup_2 _ _ _ Hrow)) as Hrange.
  rewrite Forall_forall in Hrange.
  apply Forall_forall. intros r Hr.
  apply list_elem_of_lookup in Hr as [k Hk].
  destruct (Forall2_lookup_r _ _ _ _ _ Hm Hk) as ([i s] & He & Hat).
  apply list_elem_of_lookup_2, ranked_in_row in He.
  destruct (Hrange s (list_elem_of_lookup_2 _ _ _ He)) as [H0 H1].
  unfold recommendation_at in Hat. simpl in Hat.
  destruct (movies_df E !! i); [|done]. injection Hat as <-. simpl.
  split.
  - apply Qle_trans with (round2 (0 # 100)).
    + by rewrite round2_hundredths.
    + apply round2_mono. unfold Qle in *. simpl in *. lia.
  - apply Qle_trans with (round2 (10000 # 100)).
    + apply round2_mono. unfold Qle in *. simpl in *. lia.
    + by rewrite round2_hundredths.
Qed.

Lemma similarity_score_range_witness :
  Forall (λ r, 0 <= similarity_score r <= 100)%Q
         (default [] (get_recommendations trio_engine 10 2)).
Proof.
  apply (similarity_score_range trio_engine 10 2).
  - repeat constructor; by vm_compute.
  - vm_compute. reflexivity.
Defined.

(** ** Hybrid recommendations of a built engine *)

Lemma StronglySorted_True {A} (l : list A) : StronglySorted (λ _ _, True) l.
Proof. induction l; constructor; [done|]. by apply Forall_forall. Qed.

(** X6. Every entry of a list returned by
    [hybrid_recommendations] carries a [hybrid_score], and the list
    is in descending order of it. *)
Theorem hybrid_recommendations_sorted E mid user_ratings top_n alpha out :
  hybrid_recommendations E mid user_ratings top_n alpha = Returned (Some out) →
  Forall (λ r, is_Some (hybrid_score r)) out
  ∧ StronglySorted
      (λ a b, ∃ x y, hybrid_score a = Some x ∧ hybrid_score b = Some y
                     ∧ (y <= x)%Q)
      out.
Proof.
  intros (pool & scored & _ & Hscored & ->)%hybrid_recommendations_Some.
  assert (Forall (λ r, hybrid_score r = Some (hybrid_key r)) scored) as Hkey.
  { apply Forall_forall. intros r Hr.
    apply list_elem_of_lookup in Hr as [k Hk].
    destruct (Forall2_lookup_r _ _ _ _ _ Hscored Hk) as (c & _ & Hc).
    by apply score_rec_Returned in Hc as [s ->]. }
  rewrite <- (sorted_perm Qltb hybrid_key true) in Hkey.
  split.
  { apply Forall_forall. intros r Hr.
    eapply elem_of_sublist in Hr; [|apply slice_sublist].
    rewrite Forall_forall in Hkey. rewrite (Hkey r Hr). by eexists. }
  apply StronglySorted_slice.
  pose proof (sorted_ranked Qltb hybrid_key (λ _ _, True) true
                Qltb_trans Qltb_neg_trans scored (StronglySorted_True _))
    as Hsorted.
  revert Hkey Hsorted. generalize (sorted Qltb hybrid_key true scored).
  intros l Hkey Hsorted.
  induction Hsorted as [|a l Hl IH Ha]; [constructor|].
  apply Forall_cons in Hkey as [Hka Hkl].
  constructor; [by apply IH|].
  rewrite Forall_forall in Ha, Hkl. apply Forall_forall. intros b Hb.
  exists (hybrid_key a), (hybrid_key b). split_and!; [done | by apply Hkl |].
  destruct (Ha b Hb) as [Hlt | [Hge _]]; unfold precedes in *.
  - by apply Qlt_le_weak, Qltb_lt.
  - by apply Qltb_ge.
Qed.

Lemma hybrid_recommendations_sorted_witness :
  Forall (λ r, is_Some (hybrid_score r))
         (returned_list
            (hybrid_recommendations trio_engine 10 demo_ratings 2 (7 # 10)))
  ∧ StronglySorted
      (λ a b, ∃ x y, hybrid_score a = Some x ∧ hybrid_score b = Some y
                     ∧ (y <= x)%Q)
      (returned_list
         (hybrid_recommendations trio_engine 10 demo_ratings 2 (7 # 10))).
Proof.
  apply (hybrid_recommendations_sorted trio_engine 10 demo_ratings 2 (7 # 10)).
  vm_compute. reflexivity.
Defined.

(** With at least one candidate the hybrid call returns a list, as
    long as the content list for [top_n]. *)
Lemma hybrid_recommendations_build_length df sim idx m user_ratings top_n
    alpha :
  NoDup (movie_id <$> df) → square (length df) sim →
  df !! idx = Some m → (1 ≤ top_n)%Z → 2 ≤ length df →
  ∃ out,
    hybrid_recommendations (_build_model df sim) (movie_id m) user_ratings
                           top_n alpha
    = Returned (Some out)
    ∧ length out = Z.to_nat top_n `min` (length df - 1).
Proof.
  intros Hnd Hsq Hidx Hk Hlen.
  rewrite (hybrid_recommendations_build df sim Hnd Hsq).
  destruct (get_recommendations_build_length df sim idx m (top_n * 3)
              Hnd Hsq Hidx) as (pool & -> & Hpool); [lia|].
  destruct pool as [|c pool]; [simpl in Hpool; lia|].
  eexists. split; [done|].
  rewrite slice_from_0 by lia.
  rewrite length_take, sorted_length, length_fmap, Hpool. lia.
Qed.

(** X7. In a built engine with at least two movies,
    [hybrid_recommendations] for the id of a row and [top_n >= 1]
    neither raises nor answers [None]: it returns
    [min(top_n, N - 1)] entries, as many as the content list, and no
    movie is in it twice. *)
Theorem hybrid_recommendations_count df sim idx m user_ratings top_n alpha :
  NoDup (movie_id <$> df) → square (length df) sim →
  df !! idx = Some m → (1 ≤ top_n)%Z → 2 ≤ length df →
  ∃ out,
    hybrid_recommendations (_build_model df sim) (movie_id m) user_ratings
                           top_n alpha
    = Returned (Some out)
    ∧ length out = Z.to_nat top_n `min` (length df - 1)
    ∧ NoDup (rec_id <$> out).
Proof.
  intros Hnd Hsq Hidx Hk Hlen.
  destruct (hybrid_recommendations_build_length df sim idx m user_ratings
              top_n alpha Hnd Hsq Hidx Hk Hlen) as (out & Hout & Hlen').
  exists out. split_and!; [done | done |].
  apply hybrid_recommendations_Some in Hout as (pool & scored & Hpool & Hsc & ->).
  eapply sublist_NoDup; [|apply fmap_sublist, slice_sublist].
  rewrite sorted_perm.
  assert (rec_id <$> scored = rec_id <$> pool) as ->.
  { clear -Hsc. induction Hsc as [|c r pool scored Hc _ IH]; [done|].
    rewrite !fmap_cons. f_equal; [|exact IH].
    by apply score_rec_Returned in Hc as [s ->]. }
  by eapply get_recommendations_NoDup.
Qed.

Lemma hybrid_recommendations_count_witness :
  ∃ out,
    hybrid_recommendations trio_engine 10 demo_ratings 1 (7 # 10)
    = Returned (Some out)
    ∧ length out = 1
    ∧ NoDup (rec_id <$> out).
Proof.
  apply (hybrid_recommendations_count (movies_df trio_engine)
           (cosine_sim trio_engine) 0 (demo_movie 10 "Up" 900 (79 # 10) 50)
           demo_ratings 1 (7 # 10)).
  - apply (bool_decide_unpack _). vm_compute. exact I.
  - split; [reflexivity | repeat constructor].
  - reflexivity.
  - lia.
  - simpl. lia.
Defined.

Lemma Qsum_nonneg (l : list Q) : Forall (λ s, 0 <= s)%Q l → (0 <= Qsum l)%Q.
Proof.
  induction 1 as [|s l Hs _ IH]; simpl; [apply Qle_refl|].
  change 0%Q with (0 + 0)%Q. by apply Qplus_le_compat.
Qed.

Lemma spec_similarity_nonneg E a b :
  Forall (Forall (λ s, 0 <= s)%Q) (cosine_sim E) →
  (0 <= spec_similarity E a b)%Q.
Proof.
  intros Hsim. unfold spec_similarity.
  destruct (indices_getitem (indices E) a) as [|i|]; try apply Qle_refl.
  destruct (indices_getitem (indices E) b) as [|j|]; try apply Qle_refl.
  destruct (cosine_sim E !! i) as [row|] eqn:Hrow; simpl; [|apply Qle_refl].
  destruct (row !! j) as [s|] eqn:Hs; simpl; [|apply Qle_refl].
  rewrite Forall_forall in Hsim.
  pose proof (Hsim row (list_elem_of_lookup_2 _ _ _ Hrow)) as Hr.
  rewrite Forall_forall in Hr. by eapply Hr, list_elem_of_lookup_2.
Qed.

(** X8. In a built engine whose matrix has no negative entry, a
    user without a rating of 3.5 or more gets from
    [hybrid_recommendations] what a user without any rating gets:
    dislikes alone never lower a score. The call returns a list of
    scored entries when the content list has an entry, and [None]
    otherwise. *)
Theorem hybrid_recommendations_without_likes df sim mid user_ratings top_n
    alpha :
  NoDup (movie_id <$> df) → square (length df) sim →
  Forall (Forall (λ s, 0 <= s)%Q) sim →
  Forall (λ p, p.2 < 7 # 2)%Q user_ratings →
  hybrid_recommendations (_build_model df sim) mid user_ratings top_n alpha
  = hybrid_recommendations (_build_model df sim) mid [] top_n alpha
  ∧ match get_recommendations (_build_model df sim) mid (top_n * 3) with
    | None | Some [] =>
        hybrid_recommendations (_build_model df sim) mid user_ratings top_n
                               alpha
        = Returned None
    | Some pool =>
        ∃ out,
          hybrid_recommendations (_build_model df sim) mid user_ratings top_n
                                 alpha
          = Returned (Some out)
          ∧ Forall (λ r, is_Some (hybrid_score r)
                         ∧ ∃ c, c ∈ pool ∧ content_view r = content_view c)
                   out
    end.
Proof.
  intros Hnd Hsq Hpos Hlow.
  rewrite !(hybrid_recommendations_build df sim Hnd Hsq).
  destruct (get_recommendations _ _ _) as [[|c pool]|]; try done.
  split.
  2: { eexists. split; [done|]. apply Forall_forall. intros r Hr.
       eapply elem_of_sublist in Hr; [|apply slice_sublist].
       pose proof (proj1 (elem_of_Permutation_proper r _ _
                            (sorted_perm Qltb hybrid_key true _)) Hr) as Hr'.
       apply list_elem_of_fmap in Hr' as (c' & -> & Hc').
       split; [by eexists | by exists c']. }
  do 2 f_equal. apply (f_equal (λ l, slice (sorted Qltb hybrid_key true l) _ _)).
  apply list_fmap_ext. intros _ c' _. f_equal.
  apply round2_comp. unfold spec_final_score.
  assert (spec_sum (_build_model df sim) user_ratings
            (λ score, Qle_bool (7 # 2) score) (rec_id c') = 0%Q) as Hliked.
  { unfold spec_sum.
    assert (List.filter
              (λ p : Z * Q, Qle_bool (7 # 2) p.2
                            && in_index (indices (_build_model df sim)) p.1)
              user_ratings = []) as ->; [|done].
    clear -Hlow. induction Hlow as [|p l Hp _ IH]; [done|]. simpl.
    destruct (Qle_bool (7 # 2) p.2) eqn:Hle; [|exact IH].
    apply Qle_bool_iff in Hle. by apply Qle_not_lt in Hle. }
  assert (0 <= spec_sum (_build_model df sim) user_ratings
                 (λ score, Qltb score 3) (rec_id c'))%Q as Hdis.
  { apply Qsum_nonneg, Forall_forall. intros s (p & -> & _)%list_elem_of_fmap.
    by apply spec_similarity_nonneg. }
  assert (Qmax 0 (spec_boost (_build_model df sim) user_ratings (rec_id c'))
          == 0)%Q as ->.
  { apply Q.max_l. unfold spec_boost. rewrite Hliked. lra. }
  assert (Qmax 0 (spec_boost (_build_model df sim) [] (rec_id c')) == 0)%Q
    as ->; [|reflexivity].
  apply Q.max_l. unfold spec_boost, spec_sum. simpl. lra.
Qed.

Lemma hybrid_recommendations_without_likes_witness :
  hybrid_recommendations trio_engine 10 [(30%Z, 1%Q); (20%Z, 3%Q)] 2 (7 # 10)
  = hybrid_recommendations trio_engine 10 [] 2 (7 # 10)
  ∧ match get_recommendations trio_engine 10 (2 * 3) with
    | None | Some [] =>
        hybrid_recommendations trio_engine 10 [(30%Z, 1%Q); (20%Z, 3%Q)] 2
                               (7 # 10)
        = Returned None
    | Some pool =>
        ∃ out,
          hybrid_recommendations trio_engine 10 [(30%Z, 1%Q); (20%Z, 3%Q)] 2
                                 (7 # 10)
          = Returned (Some out)
          ∧ Forall (λ r, is_Some (hybrid_score r)
                         ∧ ∃ c, c ∈ pool ∧ content_view r = content_view c)
                   out
    end.
Proof.
  apply (hybrid_recommendations_without_likes (movies_df trio_engine)
           (cosine_sim trio_engine) 10 [(30%Z, 1%Q); (20%Z, 3%Q)] 2 (7 # 10)).
  - apply (bool_decide_unpack _). vm_compute. exact I.
  - split; [reflexivity | repeat constructor].
  - repeat constructor; by vm_compute.
  - repeat constructor; by vm_compute.
Defined.

Lemma mapM_Raised {A B} (f : A → result B) (l : list A) x :
  x ∈ l → f x = Raised → mapM f l = Raised.
Proof.
  intros Hx Hf. induction l as [|y l IH]; [by apply elem_of_nil in Hx|].
  simpl. apply elem_of_cons in Hx as [<- | Hx].
  - by rewrite Hf.
  - rewrite (IH Hx). by destruct (f y).
Qed.

(** A preference that is in the corpus makes the loop read the
    matrix, which raises on the rows a sub-Series selects. *)
Lemma boost_loop_SubSeries E poss step ids acc mid :
  mid ∈ ids → in_index (indices E) mid = true →
  boost_loop E (SubSeries poss) step ids acc = Raised.
Proof.
  intros Hmid Hin. revert acc.
  induction ids as [|y ids IH]; intros acc; [by apply elem_of_nil in Hmid|].
  simpl. destruct (in_index (indices E) y) eqn:Hy; [done|].
  apply IH. apply elem_of_cons in Hmid as [-> | ?]; [congruence | done].
Qed.

(** X9. [hybrid_recommendations] raises when the id of one of the
    candidates labels two rows and the user has rated, with 3.5 or
    more or with less than 3.0, a movie of the corpus. *)
Theorem hybrid_recommendations_duplicate_candidate df sim mid user_ratings
    top_n alpha pool c i j mi mj pid score :
  get_recommendations (_build_model df sim) mid (top_n * 3) = Some pool →
  c ∈ pool →
  df !! i = Some mi → df !! j = Some mj → i ≠ j →
  movie_id mi = rec_id c → movie_id mj = rec_id c →
  (pid, score) ∈ user_ratings → pid ∈ movie_id <$> df →
  (7 # 2 <= score ∨ score < 3)%Q →
  hybrid_recommendations (_build_model df sim) mid user_ratings top_n alpha
  = Raised.
Proof.
  intros Hpool Hc Hi Hj Hne Hidi Hidj Hp Hpid Hscore.
  destruct (indices_getitem_duplicate df i j mi mj Hi Hj Hne) as [poss Hsub];
    [congruence|].
  rewrite Hidi in Hsub. apply in_index_build in Hpid.
  assert (in_index (build_indices df) (rec_id c) = true) as Hcin.
  { apply in_index_build. rewrite <- Hidi.
    apply list_elem_of_fmap_2. by eapply list_elem_of_lookup_2. }
  assert (score_rec (_build_model df sim) alpha (liked_ids user_ratings)
            (disliked_ids user_ratings) c = Raised) as Hraise.
  { unfold score_rec, collab_boost. simpl. rewrite Hcin, Hsub.
    destruct Hscore as [Hliked | Hdisliked].
    - rewrite (boost_loop_SubSeries _ _ _ _ _ pid); [done| |done].
      unfold liked_ids. apply list_elem_of_fmap. exists (pid, score). split; [done|].
      apply list_elem_of_In, filter_In. split; [by apply list_elem_of_In|].
      simpl. by apply Qle_bool_iff.
    - destruct (boost_loop _ _ _ (liked_ids user_ratings) _); [|done]. simpl.
      rewrite (boost_loop_SubSeries _ _ _ _ _ pid); [done| |done].
      unfold disliked_ids. apply list_elem_of_fmap. exists (pid, score). split; [done|].
      apply list_elem_of_In, filter_In. split; [by apply list_elem_of_In|].
      simpl. by apply Qltb_lt. }
  unfold hybrid_recommendations. rewrite Hpool.
  destruct pool as [|c0 pool]; [by apply elem_of_nil in Hc|].
  by rewrite (mapM_Raised _ _ c Hc Hraise).
Qed.

Lemma hybrid_recommendations_duplicate_candidate_witness :
  hybrid_recommendations reissue_engine 10 [(10%Z, 5%Q)] 1 (7 # 10) = Raised.
Proof.
  apply (hybrid_recommendations_duplicate_candidate (movies_df reissue_engine)
           (cosine_sim reissue_engine) 10 [(10%Z, 5%Q)] 1 (7 # 10)
           (default [] (get_recommendations reissue_engine 10 3))
           (recommendation (demo_movie 20 "Heat" 700 (77 # 10) 40) (1 # 2))
           1 2 (demo_movie 20 "Heat" 700 (77 # 10) 40)
           (demo_movie 20 "Heat" 700 (77 # 10) 40) 10 5).
  - vm_compute. reflexivity.
  - vm_compute. left.
  - reflexivity.
  - reflexivity.
  - lia.
  - reflexivity.
  - reflexivity.
  - left.
  - vm_compute. left.
  - left. by vm_compute.
Defined.

(** ** Pages of the catalog *)

(** A page whose end is not counted from the back holds at most
    [limit] rows. *)
Lemma slice_page_length {A} (l : list A) offset limit :
  (0 ≤ offset + limit)%Z →
  length (slice l offset (offset + limit)) ≤ Z.to_nat limit.
Proof.
  intros. unfold slice. rewrite length_take, length_drop. unfold slice_bound.
  repeat case_match; lia.
Qed.

(** [nlargest] selects nothing for a count that is not positive, so
    its pages hold at most [limit] rows whatever the offset. *)
Lemma nlargest_page_length {A} (column : A → Q) (l : list A) offset limit :
  length (slice (nlargest (offset + limit) column l) offset (offset + limit))
  ≤ Z.to_nat limit.
Proof.
  destruct (Z.leb_spec (offset + limit) 0) as [Hle | Hlt].
  - unfold nlargest. rewrite (proj2 (Z.leb_le _ _) Hle).
    unfold slice. rewrite drop_nil, take_nil. simpl. lia.
  - apply slice_page_length. lia.
Qed.

Lemma sorted_descending {A} (column : A → Q) (l : list A) :
  StronglySorted (λ a b, column b <= column a)%Q (sorted Qltb column true l).
Proof.
  eapply StronglySorted_impl;
    [|apply (sorted_ranked Qltb column (λ _ _, True) true);
      [apply Qltb_trans | apply Qltb_neg_trans | apply StronglySorted_True]].
  intros a b [Hlt | [Hge _]]; unfold precedes in *.
  - by apply Qlt_le_weak, Qltb_lt.
  - by apply Qltb_ge.
Qed.

Lemma nlargest_descending {A} n (column : A → Q) (l : list A) :
  StronglySorted (λ a b, column b <= column a)%Q (nlargest n column l).
Proof.
  unfold nlargest. case_match; [constructor|].
  apply StronglySorted_take, sorted_descending.
Qed.

Lemma nlargest_sublist_perm {A} n (column : A → Q) (l : list A) x :
  x ∈ nlargest n column l → x ∈ l.
Proof.
  unfold nlargest. case_match; [by intros ?%elem_of_nil|].
  intros Hx. rewrite <- (sorted_perm Qltb column true).
  eapply elem_of_sublist; [done | apply sublist_take].
Qed.

Lemma StronglySorted_fmap_2 {A B} (f : A → B) (R : relation B) (l : list A) :
  StronglySorted (λ a b, R (f a) (f b)) l → StronglySorted R (f <$> l).
Proof.
  induction 1 as [|x l Hl IH Hx]; simpl; constructor; [done|].
  by apply Forall_fmap.
Qed.

(** X10. [get_popular_movies] reports the number of movies as
    total and returns at most [limit] cards, whatever the offset
    (none when [limit] is not positive); each card is the card of a
    row, and the cards are in descending order of popularity. *)
Theorem get_popular_movies_page E limit offset :
  let (cards, total) := get_popular_movies E limit offset in
  total = length (movies_df E)
  ∧ length cards ≤ Z.to_nat limit
  ∧ cards ⊆ _format_movies (movies_df E)
  ∧ StronglySorted (λ a b, card_popularity b <= card_popularity a)%Q cards.
Proof.
  unfold get_popular_movies, _format_movies. split_and!.
  - done.
  - rewrite length_fmap. apply nlargest_page_length.
  - intros c (m & -> & Hm)%list_elem_of_fmap. apply list_elem_of_fmap_2.
    eapply nlargest_sublist_perm, elem_of_sublist; [done | apply slice_sublist].
  - apply StronglySorted_fmap_2. simpl.
    apply StronglySorted_slice, nlargest_descending.
Qed.

(** X11. [get_top_rated_movies] reports as total the number of
    rows with at least [min_votes] votes and returns at most [limit]
    and at most total cards, each of a row with at least [min_votes]
    votes, in descending order of the average vote. *)
Theorem get_top_rated_movies_page E limit min_votes offset :
  let (cards, total) := get_top_rated_movies E limit min_votes offset in
  total = length (filter (λ m, (min_votes ≤ vote_count m)%Z) (movies_df E))
  ∧ length cards ≤ Z.to_nat limit
  ∧ length cards ≤ total
  ∧ cards ⊆ _format_movies (movies_df E)
  ∧ Forall (λ c, (min_votes ≤ card_vote_count c)%Z) cards
  ∧ StronglySorted (λ a b, card_vote_average b <= card_vote_average a)%Q cards.
Proof.
  unfold get_top_rated_movies, _format_movies.
  assert (∀ m, m ∈ slice (nlargest (offset + limit) vote_average
                            (List.filter (λ m, (min_votes <=? vote_count m)%Z)
                                         (movies_df E)))
                         offset (offset + limit) →
               m ∈ movies_df E ∧ (min_votes ≤ vote_count m)%Z) as Hin.
  { intros m Hm. eapply elem_of_sublist in Hm; [|apply slice_sublist].
    apply nlargest_sublist_perm, list_elem_of_In, filter_In in Hm as [Hm Hv].
    split; [by apply list_elem_of_In | lia]. }
  split_and!.
  - rewrite (filter_bool _ (λ m, (min_votes ≤ vote_count m)%Z)); [done|].
    intros m. apply Z.leb_le.
  - rewrite length_fmap. apply nlargest_page_length.
  - rewrite length_fmap.
    etrans; [apply sublist_length, slice_sublist|].
    unfold nlargest. case_match; simpl; [lia|]. rewrite length_take, sorted_length. lia.
  - intros c (m & -> & Hm)%list_elem_of_fmap. apply list_elem_of_fmap_2.
    by apply Hin.
  - apply Forall_fmap, Forall_forall. intros m Hm. simpl. by apply Hin.
  - apply StronglySorted_fmap_2. simpl.
    apply StronglySorted_slice, nlargest_descending.
Qed.

(** ** Filtering *)

Lemma List_filter_sublist {A} (f : A → bool) (l : list A) :
  List.filter f l `sublist_of` l.
Proof.
  induction l as [|x l IH]; simpl; [constructor|].
  destruct (f x); by constructor.
Qed.

Section FilterFacts.
Variable re_library : string → option (string → bool).
Variable py_int : string → option Z.
Variable to_numeric : string → option Q.

Lemma str_contains_sublist pat column df rows :
  str_contains re_library pat column df = Some rows → rows `sublist_of` df.
Proof.
  unfold str_contains. destruct (Re.contains re_library pat); [|done].
  simpl. intros [= <-]. apply List_filter_sublist.
Qed.

Lemma bound_filter_sublist a column cmp df rows :
  bound_filter py_int a column cmp df = Some rows → rows `sublist_of` df.
Proof.
  unfold bound_filter. destruct (truthy a); [|by intros [= <-]].
  destruct (int_arg py_int a); [|done]. simpl. intros [= <-].
  apply List_filter_sublist.
Qed.

(** A bound that is given is parsed, and every row that is kept has
    a value in the column that satisfies it. *)
Lemma bound_filter_given a column cmp df rows :
  bound_filter py_int a column cmp df = Some rows → truthy a = true →
  ∃ n, int_arg py_int a = Some n
       ∧ Forall (λ m, ∃ x, column m = Some x ∧ cmp x (inject_Z n) = true) rows.
Proof.
  unfold bound_filter. intros Hb Ha. rewrite Ha in Hb.
  destruct (int_arg py_int a) as [n|]; [|done]. simpl in Hb.
  injection Hb as <-. exists n. split; [done|].
  apply Forall_forall. intros m Hm%list_elem_of_In%filter_In.
  destruct Hm as [_ Hm]. destruct (column m) as [x|]; [|done]. by exists x.
Qed.

Lemma Forall_sublist {A} (P : A → Prop) (l k : list A) :
  k `sublist_of` l → Forall P l → Forall P k.
Proof.
  intros Hs Hl. rewrite Forall_forall in Hl. apply Forall_forall.
  intros x Hx. apply Hl. by eapply elem_of_sublist.
Qed.

(** What the steps of [filter_movies] before the sort leave. *)
Lemma filter_frame_steps E genre min_rating max_rating
    year_from year_to min_runtime max_runtime rows :
  filter_frame re_library py_int to_numeric E genre min_rating max_rating
               year_from year_to min_runtime max_runtime = Some rows →
  ∃ f1 f2 f3 f4,
    f1 `sublist_of`
       List.filter (λ m, Qle_bool min_rating (vote_average m)
                         && Qle_bool (vote_average m) max_rating)
                   (movies_df E)
    ∧ bound_filter py_int year_from (_year to_numeric) Qgeb f1 = Some f2
    ∧ bound_filter py_int year_to (_year to_numeric) Qle_bool f2 = Some f3
    ∧ bound_filter py_int min_runtime runtime Qgeb f3 = Some f4
    ∧ bound_filter py_int max_runtime runtime Qle_bool f4 = Some rows.
Proof.
  unfold filter_frame. intros H.
  apply bind_Some in H as (f1 & H1 & H).
  apply bind_Some in H as (f2 & H2 & H).
  apply bind_Some in H as (f3 & H3 & H).
  apply bind_Some in H as (f4 & H4 & H).
  exists f1, f2, f3, f4. split_and!; try done.
  destruct genre as [[|c g]|]; try (by injection H1 as <-).
  by eapply str_contains_sublist.
Qed.

End FilterFacts.

(** X12. When [filter_movies] returns, the total is at most the
    number of movies, the page has at most total cards, each card is
    the card of a row, and each has its average vote between
    [min_rating] and [max_rating]. *)
Theorem filter_movies_rating_bounds re_library tie_rank py_int to_numeric E
    genre min_rating max_rating year_from year_to min_runtime max_runtime
    sort_by order limit offset cards total :
  filter_movies re_library tie_rank py_int to_numeric E genre
                min_rating max_rating year_from year_to min_runtime max_runtime
                sort_by order limit offset
  = Some (cards, total) →
  total ≤ length (movies_df E)
  ∧ length cards ≤ total
  ∧ cards ⊆ _format_movies (movies_df E)
  ∧ Forall (λ c, min_rating <= card_vote_average c <= max_rating)%Q cards.
Proof.
  unfold filter_movies. intros H.
  apply bind_Some in H as (rows & Hrows & [= <- <-]).
  destruct (filter_frame_steps _ _ _ _ _ _ _ _ _ _ _ _ Hrows)
    as (f1 & f2 & f3 & f4 & H1 & H2 & H3 & H4 & H5).
  assert (rows `sublist_of`
            List.filter (λ m, Qle_bool min_rating (vote_average m)
                              && Qle_bool (vote_average m) max_rating)
                        (movies_df E)) as Hsub.
  { etrans; [by eapply bound_filter_sublist|].
    etrans; [by eapply bound_filter_sublist|].
    etrans; [by eapply bound_filter_sublist|].
    etrans; [by eapply bound_filter_sublist|]. done. }
  assert (∀ m, m ∈ slice (sort_values tie_rank (sort_col sort_by)
                                        (String.eqb order "asc") rows)
                         offset (offset + limit) →
               m ∈ movies_df E
               ∧ (min_rating <= vote_average m <= max_rating)%Q) as Hin.
  { intros m Hm. eapply elem_of_sublist in Hm; [|apply slice_sublist].
    rewrite sort_values_perm in Hm.
    eapply elem_of_sublist in Hm; [|exact Hsub].
    apply list_elem_of_In, filter_In in Hm as [Hm Hr].
    apply andb_true_iff in Hr as [Hlo Hhi].
    split; [by apply list_elem_of_In|]. by split; apply Qle_bool_iff. }
  split_and!.
  - etrans; [apply sublist_length, Hsub|].
    apply sublist_length, List_filter_sublist.
  - unfold _format_movies. rewrite length_fmap.
    etrans; [apply sublist_length, slice_sublist|].
    by rewrite sort_values_length.
  - intros c (m & -> & Hm)%list_elem_of_fmap. apply list_elem_of_fmap_2.
    by apply Hin.
  - apply Forall_fmap, Forall_forall. intros m Hm. simpl. by apply Hin.
Qed.

Lemma filter_movies_rating_bounds_witness :
  let cards :=
    page_cards (filter_movies demo_re_library demo_tie_rank demo_py_int
                  demo_to_numeric trio_engine None
                  8 10 (AStr "2009") ANone ANone (AInt 130) "title" "asc" 2 0)
  in
  1 ≤ length (movies_df trio_engine)
  ∧ length cards ≤ 1
  ∧ cards ⊆ _format_movies (movies_df trio_engine)
  ∧ Forall (λ c, 8 <= card_vote_average c <= 10)%Q cards.
Proof.
  apply (filter_movies_rating_bounds demo_re_library demo_tie_rank
           demo_py_int demo_to_numeric trio_engine
           None 8 10 (AStr "2009") ANone ANone (AInt 130) "title" "asc" 2 0).
  vm_compute. reflexivity.
Defined.

(** X13. In the frame [filter_movies] counts as total, each of
    the four bounds [year_from], [year_to], [min_runtime] and
    [max_runtime] is either falsy (absent, zero or the empty
    string), or parsed by [int] and satisfied by every row: a row
    whose year or runtime is missing passes no bound on it. *)
Theorem filter_frame_bounds re_library py_int to_numeric E genre
    min_rating max_rating year_from year_to min_runtime max_runtime rows :
  filter_frame re_library py_int to_numeric E genre min_rating max_rating
               year_from year_to min_runtime max_runtime = Some rows →
  (truthy year_from = false
   ∨ ∃ n, int_arg py_int year_from = Some n
          ∧ Forall (λ m, ∃ y, _year to_numeric m = Some y
                              ∧ (inject_Z n <= y)%Q) rows)
  ∧ (truthy year_to = false
     ∨ ∃ n, int_arg py_int year_to = Some n
            ∧ Forall (λ m, ∃ y, _year to_numeric m = Some y
                                ∧ (y <= inject_Z n)%Q) rows)
  ∧ (truthy min_runtime = false
     ∨ ∃ n, int_arg py_int min_runtime = Some n
            ∧ Forall (λ m, ∃ t, runtime m = Some t
                                ∧ (inject_Z n <= t)%Q) rows)
  ∧ (truthy max_runtime = false
     ∨ ∃ n, int_arg py_int max_runtime = Some n
            ∧ Forall (λ m, ∃ t, runtime m = Some t
                                ∧ (t <= inject_Z n)%Q) rows).
Proof.
  intros (f1 & f2 & f3 & f4 & _ & H2 & H3 & H4 & H5)%filter_frame_steps.
  pose proof (bound_filter_sublist _ _ _ _ _ _ H3) as S3.
  pose proof (bound_filter_sublist _ _ _ _ _ _ H4) as S4.
  pose proof (bound_filter_sublist _ _ _ _ _ _ H5) as S5.
  split_and!.
  - destruct (truthy year_from) eqn:Ha; [right | by left].
    destruct (bound_filter_given _ _ _ _ _ _ H2 Ha) as (n & Hn & Hall).
    exists n. split; [done|].
    apply (Forall_sublist _ f2); [by do 2 (etrans; [eassumption|])|].
    eapply Forall_impl; [exact Hall|]. intros m (y & Hy & Hc).
    exists y. split; [done|]. by apply Qle_bool_iff.
  - destruct (truthy year_to) eqn:Ha; [right | by left].
    destruct (bound_filter_given _ _ _ _ _ _ H3 Ha) as (n & Hn & Hall).
    exists n. split; [done|].
    apply (Forall_sublist _ f3); [by etrans; [eassumption|]|].
    eapply Forall_impl; [exact Hall|]. intros m (y & Hy & Hc).
    exists y. split; [done|]. by apply Qle_bool_iff.
  - destruct (truthy min_runtime) eqn:Ha; [right | by left].
    destruct (bound_filter_given _ _ _ _ _ _ H4 Ha) as (n & Hn & Hall).
    exists n. split; [done|].
    apply (Forall_sublist _ f4); [done|].
    eapply Forall_impl; [exact Hall|]. intros m (y & Hy & Hc).
    exists y. split; [done|]. by apply Qle_bool_iff.
  - destruct (truthy max_runtime) eqn:Ha; [right | by left].
    destruct (bound_filter_given _ _ _ _ _ _ H5 Ha) as (n & Hn & Hall).
    exists n. split; [done|].
    eapply Forall_impl; [exact Hall|]. intros m (y & Hy & Hc).
    exists y. split; [done|]. by apply Qle_bool_iff.
Qed.

Lemma filter_frame_bounds_witness :
  let rows :=
    default [] (filter_frame demo_re_library demo_py_int demo_to_numeric
                  trio_engine None
                  8 10 (AStr "2009") ANone ANone (AInt 130)) in
  (truthy (AStr "2009") = false
   ∨ ∃ n, int_arg demo_py_int (AStr "2009") = Some n
          ∧ Forall (λ m, ∃ y, _year demo_to_numeric m = Some y
                              ∧ (inject_Z n <= y)%Q) rows)
  ∧ (truthy ANone = false
     ∨ ∃ n, int_arg demo_py_int ANone = Some n
            ∧ Forall (λ m, ∃ y, _year demo_to_numeric m = Some y
                                ∧ (y <= inject_Z n)%Q) rows)
  ∧ (truthy ANone = false
     ∨ ∃ n, int_arg demo_py_int ANone = Some n
            ∧ Forall (λ m, ∃ t, runtime m = Some t
                                ∧ (inject_Z n <= t)%Q) rows)
  ∧ (truthy (AInt 130) = false
     ∨ ∃ n, int_arg demo_py_int (AInt 130) = Some n
            ∧ Forall (λ m, ∃ t, runtime m = Some t
                                ∧ (t <= inject_Z n)%Q) rows).
Proof.
  apply (filter_frame_bounds demo_re_library demo_py_int demo_to_numeric
           trio_engine None 8 10 (AStr "2009") ANone ANone (AInt 130)).
  vm_compute. reflexivity.
Defined.

(** ** Pages of a title search *)

(** X14. With a negative [limit] and offset 0, the page
    [search_movies] returns is not empty as a rule: it holds as many
    cards as there are matches, less [-limit] (none when there are
    fewer matches than that). *)
Theorem search_movies_negative_limit re_library E query limit cards total :
  (limit < 0)%Z →
  search_movies re_library E query limit 0 = Some (cards, total) →
  total ≤ length (movies_df E)
  ∧ length cards = total - Z.to_nat (- limit).
Proof.
  unfold search_movies. intros Hneg H.
  apply bind_Some in H as (rows & Hrows & [= <- <-]).
  apply str_contains_sublist, sublist_length in Hrows.
  unfold _format_movies. rewrite length_fmap. split; [done|].
  unfold slice. rewrite length_take, length_drop.
  unfold slice_bound. repeat case_match; lia.
Qed.

Lemma search_movies_negative_limit_witness :
  2 ≤ length (movies_df trio_engine)
  ∧ length (page_cards (search_movies demo_re_library trio_engine "a" (-1) 0))
    = 2 - Z.to_nat (- -1).
Proof.
  apply (search_movies_negative_limit demo_re_library trio_engine "a" (-1)).
  - lia.
  - vm_compute. reflexivity.
Defined.

(** ** Cards for a list of ids *)

(** The dict filled by the loop over the rows: the last row with a
    given id wins. *)
Lemma movie_map_lookup (rows : list Movie) (mp : gmap Z Card) mid :
  foldl (λ mp movie, <[movie_id movie := _format_single movie]> mp) mp rows
    !! mid
  = match last (filter (λ m, movie_id m = mid) rows) with
    | Some m => Some (_format_single m)
    | None => mp !! mid
    end.
Proof.
  revert mp. induction rows as [|m rows IH]; intros mp; [done|].
  simpl. rewrite IH. destruct (decide (movie_id m = mid)) as [Heq | Hne].
  - rewrite filter_cons_True by done.
    destruct (filter (λ m0, movie_id m0 = mid) rows) as [|m' ms] eqn:Hf.
    + simpl. by rewrite Heq, lookup_insert_eq.
    + rewrite last_cons_cons.
      destruct (last (m' :: ms)) eqn:Hl; [done|]. by apply last_None in Hl.
  - rewrite filter_cons_False by done.
    destruct (last _); [done|]. by rewrite lookup_insert_ne.
Qed.

Lemma filter_filter_id (ids : list Z) (rows : list Movie) mid :
  mid ∈ ids →
  filter (λ m, movie_id m = mid) (filter (λ m, movie_id m ∈ ids) rows)
  = filter (λ m, movie_id m = mid) rows.
Proof.
  intros Hmid. induction rows as [|m rows IH]; [done|].
  destruct (decide (movie_id m = mid)) as [Heq | Hne].
  - rewrite (filter_cons_True (λ m, movie_id m ∈ ids)) by (by rewrite Heq).
    rewrite !(filter_cons_True (λ m, movie_id m = mid)) by done.
    by rewrite IH.
  - rewrite (filter_cons_False (λ m, movie_id m = mid) m rows) by done.
    destruct (decide (movie_id m ∈ ids)).
    + rewrite (filter_cons_True (λ m, movie_id m ∈ ids)) by done.
      by rewrite filter_cons_False.
    + by rewrite (filter_cons_False (λ m, movie_id m ∈ ids)).
Qed.

Lemma omap_ext_elem_of {A B} (f g : A → option B) (l : list A) :
  (∀ x, x ∈ l → f x = g x) → omap f l = omap g l.
Proof.
  induction l as [|x l IH]; intros Hfg; [done|].
  assert (omap f l = omap g l) as Hl.
  { apply IH. intros y Hy. apply Hfg. by right. }
  simpl. rewrite (Hfg x) by left. destruct (g x); [f_equal|]; exact Hl.
Qed.

(** The list comprehension over the requested ids, with the dict
    replaced by what it holds. *)
Lemma get_movies_by_ids_omap E movie_ids :
  get_movies_by_ids E movie_ids
  = omap (λ mid, _format_single
                   <$> last (filter (λ m, movie_id m = mid) (movies_df E)))
         movie_ids.
Proof.
  unfold get_movies_by_ids. apply omap_ext_elem_of. intros mid Hmid.
  rewrite movie_map_lookup, filter_filter_id by done.
  by destruct (last _).
Qed.

Lemma last_filter_id (rows : list Movie) mid :
  match last (filter (λ m, movie_id m = mid) rows) with
  | Some m => movie_id m = mid ∧ m ∈ rows
  | None => mid ∉ movie_id <$> rows
  end.
Proof.
  destruct (last _) as [m|] eqn:Hl.
  - apply last_Some in Hl as [l' Hl].
    assert (m ∈ filter (λ m, movie_id m = mid) rows) as Hm.
    { rewrite Hl. apply elem_of_app. right. left. }
    by apply list_elem_of_filter in Hm.
  - apply last_None in Hl. intros (m & -> & Hm)%list_elem_of_fmap.
    assert (m ∈ filter (λ m0, movie_id m0 = movie_id m) rows) as Hin
      by (by apply list_elem_of_filter).
    rewrite Hl in Hin. by apply elem_of_nil in Hin.
Qed.

(** X15. The ids of the cards [get_movies_by_ids] returns are the
    requested ids that are in the corpus, in the requested order
    and with their repetitions; each card is the card of the last
    row of the frame with its id. *)
Theorem get_movies_by_ids_order E movie_ids :
  card_id <$> get_movies_by_ids E movie_ids
  = filter (λ mid, mid ∈ movie_id <$> movies_df E) movie_ids
  ∧ Forall (λ c, ∃ m, last (filter (λ m, movie_id m = card_id c) (movies_df E))
                      = Some m
                      ∧ c = _format_single m)
           (get_movies_by_ids E movie_ids).
Proof.
  rewrite get_movies_by_ids_omap. split.
  - induction movie_ids as [|mid ids IH]; [done|]. simpl.
    pose proof (last_filter_id (movies_df E) mid) as Hl.
    destruct (last _) as [m|]; simpl.
    + destruct Hl as [Hid Hm].
      rewrite filter_cons_True
        by (rewrite <- Hid; by apply list_elem_of_fmap_2).
      f_equal; [done | exact IH].
    + rewrite filter_cons_False by done. exact IH.
  - apply Forall_forall. intros c Hc.
    apply list_elem_of_omap in Hc as (mid & _ & Hc).
    pose proof (last_filter_id (movies_df E) mid) as Hl.
    destruct (last _) as [m|] eqn:Hlast; [|done].
    injection Hc as <-. destruct Hl as [Hid _]. exists m. simpl.
    by rewrite Hid.
Qed.

(** ** The genre catalogue *)

Lemma Ascii_compare_Lt_trans a b c :
  Ascii.compare a b = Lt → Ascii.compare b c = Lt → Ascii.compare a c = Lt.
Proof. unfold Ascii.compare. rewrite !N.compare_lt_iff. lia. Qed.

Lemma String_compare_Lt_trans a b c :
  String.compare a b = Lt → String.compare b c = Lt → String.compare a c = Lt.
Proof.
  revert b c. induction a as [|x a IH]; intros [|y b] [|z c]; simpl; try done.
  destruct (Ascii.compare x y) eqn:Hxy; try done.
  - apply Ascii.compare_eq_iff in Hxy as ->.
    destruct (Ascii.compare y z); try done. apply IH.
  - destruct (Ascii.compare y z) eqn:Hyz; try done.
    + apply Ascii.compare_eq_iff in Hyz as <-. by rewrite Hxy.
    + by rewrite (Ascii_compare_Lt_trans x y z).
Qed.

Lemma String_ltb_trans a b c :
  String.ltb a b = true → String.ltb b c = true → String.ltb a c = true.
Proof.
  unfold String.ltb.
  destruct (String.compare a b) eqn:Hab; try done.
  destruct (String.compare b c) eqn:Hbc; try done.
  by rewrite (String_compare_Lt_trans a b c).
Qed.

(** Of two different strings one is below the other. *)
Lemma String_ltb_total a b :
  String.ltb a b = false → String.ltb b a = false → a = b.
Proof.
  unfold String.ltb. rewrite (String.compare_antisym b a).
  destruct (String.compare a b) eqn:Hab; simpl; try done.
  intros _ _. by apply String.compare_eq_iff.
Qed.

Lemma String_ltb_neg_trans a b c :
  String.ltb a b = false → String.ltb b c = false → String.ltb a c = false.
Proof.
  intros Hab Hbc. destruct (String.ltb a c) eqn:Hac; [|done].
  destruct (String.ltb c b) eqn:Hcb.
  - by rewrite (String_ltb_trans a c b) in Hab.
  - rewrite (String_ltb_total b c Hbc Hcb) in Hab. congruence.
Qed.

Lemma NoDup_StronglySorted_ne {A} (l : list A) :
  NoDup l → StronglySorted (≠) l.
Proof.
  induction 1 as [|x l Hx _ IH]; constructor; [done|].
  apply Forall_forall. by intros y Hy ->.
Qed.

Lemma elem_of_foldl_union (f : string → list string) (l : list string)
    (X : gset string) x :
  x ∈ foldl (λ s g, s ∪ list_to_set (f g)) X l
  ↔ x ∈ X ∨ ∃ g, g ∈ l ∧ x ∈ f g.
Proof.
  revert X. induction l as [|g l IH]; intros X; simpl.
  - split; [by left|]. intros [?|(g & []%elem_of_nil & _)]. done.
  - rewrite IH, elem_of_union, elem_of_list_to_set. split.
    + intros [[?|?]|(g' & ? & ?)]; [by left|right|right].
      * exists g. split; [left | done].
      * exists g'. split; [by right | done].
    + intros [?|(g' & [->|?]%elem_of_cons & ?)].
      * by left; left.
      * by left; right.
      * right. by exists g'.
Qed.

(** X16. [get_all_genres] returns the names in strictly ascending
    order, hence without duplicates, and a name is returned exactly
    when the genres cell of some row yields it. *)
Theorem get_all_genres_sorted genre_names E :
  StronglySorted (λ a b, String.ltb a b = true) (get_all_genres genre_names E)
  ∧ ∀ name, name ∈ get_all_genres genre_names E
            ↔ ∃ m, m ∈ movies_df E ∧ name ∈ genre_names (genres m).
Proof.
  unfold get_all_genres. split.
  - eapply StronglySorted_impl;
      [|apply (sorted_ranked String.ltb (λ s, s) (≠) false);
        [apply String_ltb_trans | apply String_ltb_neg_trans
        |apply NoDup_StronglySorted_ne, NoDup_elements]].
    intros a b [Hlt | [Hge Hne]]; unfold precedes in *; [done|].
    destruct (String.ltb a b) eqn:Hab; [done|].
    by destruct Hne; apply String_ltb_total.
  - intros name. rewrite sorted_perm, elem_of_elements, elem_of_foldl_union.
    split.
    + intros [[]%elem_of_empty | (g & (m & -> & Hm)%list_elem_of_fmap & Hg)].
      by exists m.
    + intros (m & Hm & Hg). right. exists (genres m).
      split; [by apply list_elem_of_fmap_2 | done].
Qed.

(** ** Metadata cells *)

Lemma mapM_entry_name (items : list json) (names : list string) :
  mapM entry_name items = Some names →
  ∃ js, mapM getitem_name items = Some js
        ∧ mapM (λ j, match j with JStr s => Some s | _ => None end) js
          = Some names.
Proof.
  revert names. induction items as [|item items IH]; intros names H.
  { injection H as <-. by exists []. }
  simpl in H. destruct (entry_name item) as [s|] eqn:Hs; simpl in H; [|done].
  destruct (mapM entry_name items) as [names'|] eqn:Hm; simpl in H; [|done].
  injection H as <-. destruct (IH names' eq_refl) as (js & Hjs & Hnames).
  unfold entry_name in Hs.
  destruct (getitem_name item) as [[| | |s'| |]|] eqn:Hitem; try done.
  injection Hs as ->. exists (JStr s :: js). simpl.
  rewrite Hitem. simpl. rewrite Hjs. simpl. split; [done|].
  by rewrite Hnames.
Qed.

(** X17. [_parse_json_list_top_n] reads the first [n] entries
    only: when these are dicts with a string name, it returns their
    names joined by spaces, whatever follows them in the list. *)
Theorem parse_json_list_top_n_prefix json_loads json_str items n names :
  decode json_loads json_str = Some (JList items) → (0 ≤ n)%Z →
  mapM entry_name (take (Z.to_nat n) items) = Some names →
  _parse_json_list_top_n json_loads json_str n = String.concat " " names.
Proof.
  intros Hdec Hn (js & Hjs & Hnames)%mapM_entry_name.
  unfold _parse_json_list_top_n. rewrite Hdec. simpl.
  rewrite slice_from_0 by done. unfold names_of. simpl.
  rewrite Hjs. simpl. unfold str_join. by rewrite Hnames.
Qed.

Lemma parse_json_list_top_n_prefix_witness :
  _parse_json_list_top_n demo_json_loads (Some demo_cast) 2
  = String.concat " " ["Tom Hanks"; "Tim Allen"]%string.
Proof.
  apply (parse_json_list_top_n_prefix demo_json_loads (Some demo_cast)
           [JDict [("name"%string, JStr "Tom Hanks")];
            JDict [("name"%string, JStr "Tim Allen")];
            JNum 7] 2).
  - vm_compute. reflexivity.
  - lia.
  - vm_compute. reflexivity.
Defined.

Lemma mapM_None_elem_of {A B} (f : A → option B) (l : list A) x :
  x ∈ l → f x = None → mapM f l = None.
Proof.
  intros Hx Hf. apply eq_None_not_Some. intros [k Hk%mapM_Some].
  apply list_elem_of_lookup in Hx as [i Hi].
  destruct (Forall2_lookup_l _ _ _ _ _ Hk Hi) as (y & _ & Hy). congruence.
Qed.

(** X18. One entry without a name, anywhere in the list, empties
    the result of [_parse_json_names] for every limit and that of
    [_parse_json_list]. *)
Theorem parse_json_names_malformed json_loads json_str items item limit :
  decode json_loads json_str = Some (JList items) →
  item ∈ items → getitem_name item = None →
  _parse_json_names json_loads json_str limit = ""%string
  ∧ _parse_json_list json_loads json_str = ""%string.
Proof.
  intros Hdec Hin Hitem.
  unfold _parse_json_names, _parse_json_list. rewrite Hdec. simpl.
  unfold names_of. simpl. by rewrite (mapM_None_elem_of _ _ item).
Qed.

Lemma parse_json_names_malformed_witness :
  _parse_json_names demo_json_loads (Some demo_cast) (Some 2%Z) = ""%string
  ∧ _parse_json_list demo_json_loads (Some demo_cast) = ""%string.
Proof.
  apply (parse_json_names_malformed demo_json_loads (Some demo_cast)
           [JDict [("name"%string, JStr "Tom Hanks")];
            JDict [("name"%string, JStr "Tim Allen")];
            JNum 7] (JNum 7)).
  - vm_compute. reflexivity.
  - right. right. left.
  - reflexivity.
Defined.

Lemma first_director_app before person rest :
  Forall (λ p, ∃ d, p = JDict d
                    ∧ dict_get d "job" ≠ Some (JStr "Director")) before →
  dict_get person "job" = Some (JStr "Director") →
  first_director (before ++ JDict person :: rest)
  = Some (default (JStr "") (dict_get person "name")).
Proof.
  intros Hbefore Hjob. induction Hbefore as [|p before (d & -> & Hd) _ IH].
  - simpl. by rewrite Hjob.
  - simpl. destruct (dict_get d "job") as [[| | |job| |]|]; try exact IH.
    destruct (String.eqb_spec job "Director") as [->|_]; [done | exact IH].
Qed.

(** X19. [_get_director] returns the name of the first crew
    entry whose job is Director (the empty string when it has no
    name), provided the entries before it are dicts; the entries
    after it are not read. *)
Theorem get_director_first json_loads json_str before person rest :
  decode json_loads json_str = Some (JList (before ++ JDict person :: rest)) →
  Forall (λ p, ∃ d, p = JDict d
                    ∧ dict_get d "job" ≠ Some (JStr "Director")) before →
  dict_get person "job" = Some (JStr "Director") →
  _get_director json_loads json_str
  = default (JStr "") (dict_get person "name").
Proof.
  intros Hdec Hbefore Hjob. unfold _get_director. rewrite Hdec. simpl.
  by rewrite first_director_app.
Qed.

Lemma get_director_first_witness :
  _get_director demo_json_loads (Some demo_crew) = JStr "B".
Proof.
  apply (get_director_first demo_json_loads (Some demo_crew)
           [JDict [("job"%string, JStr "Producer"); ("name"%string, JStr "A")]]
           [("job"%string, JStr "Director"); ("name"%string, JStr "B")]
           [JNum 7]).
  - vm_compute. reflexivity.
  - repeat constructor. eexists. split; [reflexivity|]. by vm_compute.
  - reflexivity.
Defined.

(** X20. When [get_movie_details] returns a dict, it describes
    the first row with the id: the names decoded from the genres
    cell of that row are all strings, and the genres of the dict are
    these names joined, the string [_parse_json_names] computes from
    the cell. It answers [None] when no row has the id, or when the
    names decoded from the cell of the first such row are not all
    strings. *)
Theorem get_movie_details_first_row json_loads df mid :
  match get_movie_details json_loads df mid with
  | Some d =>
      ∃ r, head (filter (λ r, movie_id (row_movie r) = mid) df) = Some r
           ∧ details_id d = mid
           ∧ details_title d = title (row_movie r)
           ∧ str_join ", " (default []
                              (decode json_loads (Some (genres (row_movie r)))
                               ≫= names_of))
             = Some (details_genres d)
           ∧ details_genres d
             = _parse_json_names json_loads (Some (genres (row_movie r))) None
  | None =>
      mid ∉ (movie_id ∘ row_movie) <$> df
      ∨ ∃ r names,
          head (filter (λ r, movie_id (row_movie r) = mid) df) = Some r
          ∧ decode json_loads (Some (genres (row_movie r))) ≫= names_of
            = Some names
          ∧ str_join ", " names = None
  end.
Proof.
  unfold get_movie_details.
  destruct (filter (λ r, movie_id (row_movie r) = mid) df) as [|r rs] eqn:Hf.
  { left. intros (r & Hid & Hr)%list_elem_of_fmap.
    assert (r ∈ filter (λ r, movie_id (row_movie r) = mid) df) as Hin
      by (by apply list_elem_of_filter).
    rewrite Hf in Hin. by apply elem_of_nil in Hin. }
  assert (movie_id (row_movie r) = mid) as Hid.
  { assert (r ∈ filter (λ r, movie_id (row_movie r) = mid) df) as Hin
      by (rewrite Hf; left).
    by apply list_elem_of_filter in Hin as [? _]. }
  unfold _parse_json_names, decode. simpl.
  destruct (json_loads (str_replace apostrophe double_quote
                                    (genres (row_movie r)))) as [data|]
    eqn:Hdec; simpl.
  2: { exists r. rewrite Hdec. by split_and!. }
  destruct (names_of data) as [names|] eqn:Hn; simpl.
  2: { exists r. rewrite Hdec. simpl. rewrite Hn. by split_and!. }
  destruct (str_join ", " names) as [joined|] eqn:Hjoin; simpl.
  - exists r. rewrite Hdec. simpl. rewrite Hn. simpl. rewrite Hjoin.
    by split_and!.
  - right. exists r, names. rewrite Hdec. by split_and!.
Qed.

(** ** The rows of the user database *)

Lemma find_Some_elem {A} (p : A → bool) (l : list A) x :
  List.find p l = Some x → x ∈ l ∧ p x = true.
Proof.
  intros [Hin Hp]%find_some. split; [by apply list_elem_of_In | done].
Qed.

Lemma find_None_elem {A} (p : A → bool) (l : list A) :
  List.find p l = None ↔ ∀ x, x ∈ l → p x = false.
Proof.
  split.
  - intros H x Hx%list_elem_of_In. by eapply find_none.
  - intros H. induction l as [|y l IH]; [done|]. simpl.
    rewrite (H y) by left. apply IH. intros x Hx. apply H. by right.
Qed.

Lemma find_app {A} (p : A → bool) (l k : list A) :
  List.find p (l ++ k)
  = match List.find p l with Some x => Some x | None => List.find p k end.
Proof.
  induction l as [|x l IH]; [done|]. simpl. by destruct (p x).
Qed.


Lemma clamp_score_range x : (1 <= clamp_score x <= 5)%Q.
Proof.
  unfold clamp_score.
  destruct (Qltb x 5) eqn:H5.
  - apply Qltb_lt in H5. destruct (Qltb 1 x) eqn:H1.
    + apply Qltb_lt in H1. split; by apply Qlt_le_weak.
    + split; [apply Qle_refl | done].
  - destruct (Qltb 1 5) eqn:H1; [|done]. split; [done | apply Qle_refl].
Qed.

Lemma rating_entry_key uid mid r :
  rating_entry uid mid r = true ↔ rating_key r = (uid, mid).
Proof.
  unfold rating_entry, rating_key. rewrite andb_true_iff, !Z.eqb_eq.
  split; [by intros [-> ->] | by intros [= -> ->]].
Qed.

Lemma watchlist_entry_key uid mid e :
  watchlist_entry uid mid e = true ↔ watchlist_key e = (uid, mid).
Proof.
  unfold watchlist_entry, watchlist_key. rewrite andb_true_iff, !Z.eqb_eq.
  split; [by intros [-> ->] | by intros [= -> ->]].
Qed.

(** The first row with a key after the assignment to the first row
    with a key, when the assignment keeps keys. *)
Lemma find_update_first_key {A K} `{EqDecision K} (key : A → K) (f : A → A)
    (k k' : K) (l : list A) :
  (∀ x, key (f x) = key x) →
  List.find (λ x, bool_decide (key x = k')) 
            (update_first (λ x, bool_decide (key x = k)) f l)
  = (if decide (k' = k)
     then f <$> List.find (λ x, bool_decide (key x = k)) l
     else List.find (λ x, bool_decide (key x = k')) l).
Proof.
  intros Hf. induction l as [|x l IH]; simpl.
  { by destruct (decide (k' = k)). }
  destruct (decide (key x = k)) as [Hx | Hx].
  - rewrite (bool_decide_eq_true_2 _ Hx). simpl. rewrite Hf.
    destruct (decide (k' = k)) as [-> | Hne].
    + by rewrite (bool_decide_eq_true_2 _ Hx).
    + rewrite !bool_decide_eq_false_2 by congruence. done.
  - rewrite (bool_decide_eq_false_2 _ Hx). simpl.
    destruct (decide (k' = k)) as [-> | Hne].
    + rewrite (bool_decide_eq_false_2 _ Hx). exact IH.
    + destruct (bool_decide (key x = k')); [done | exact IH].
Qed.

Lemma find_ext {A} (p q : A → bool) (l : list A) :
  (∀ x, p x = q x) → List.find p l = List.find q l.
Proof.
  intros H. induction l as [|x l IH]; [done|]. simpl. by rewrite H, IH.
Qed.

Lemma update_first_ext {A} (p q : A → bool) (f : A → A) (l : list A) :
  (∀ x, p x = q x) → update_first p f l = update_first q f l.
Proof.
  intros H. induction l as [|x l IH]; [done|]. simpl. by rewrite H, IH.
Qed.

Lemma rating_entry_decide uid mid r :
  rating_entry uid mid r = bool_decide (rating_key r = (uid, mid)).
Proof.
  destruct (rating_entry uid mid r) eqn:H.
  - symmetry. by apply bool_decide_eq_true, rating_entry_key.
  - symmetry. apply bool_decide_eq_false. intros Hk%rating_entry_key.
    congruence.
Qed.

(** The rating looked up after [rate_movie]. *)
Lemma get_user_rating_rate_movie db uid mid new_score now uid' mid' :
  sqlite_int uid && sqlite_int mid = true →
  get_user_rating (rate_movie db uid mid new_score now).2 uid' mid'
  = if decide ((uid', mid') = (uid, mid))
    then Some (clamp_score new_score)
    else get_user_rating db uid' mid'.
Proof.
  intros Hrange. unfold get_user_rating, rate_movie. rewrite Hrange.
  rewrite !(find_ext (rating_entry _ _) _ _ (rating_entry_decide _ _)).
  destruct (List.find (λ r, bool_decide (rating_key r = (uid, mid)))
                      (ratings db)) as [existing|] eqn:Hfind; simpl.
  - rewrite (update_first_ext _ _ _ _ (rating_entry_decide uid mid)).
    rewrite (find_update_first_key rating_key) by done.
    destruct (decide ((uid', mid') = (uid, mid))); [|done].
    by rewrite Hfind.
  - rewrite find_app. simpl.
    destruct (decide ((uid', mid') = (uid, mid))) as [[= -> ->] | Hne].
    + rewrite Hfind. by rewrite bool_decide_eq_true_2.
    + rewrite bool_decide_eq_false_2
        by (unfold rating_key; simpl; congruence).
      by destruct (List.find (λ r, bool_decide (rating_key r = (uid', mid')))
                             (ratings db)).
Qed.

(** [rate_movie] returns exactly when SQLite can hold both ids. *)
Lemma rate_movie_outcome db uid mid new_score now :
  if sqlite_int uid && sqlite_int mid
  then ∃ r, (rate_movie db uid mid new_score now).1 = Returned r
            ∧ rating_key r = (uid, mid)
            ∧ score r = clamp_score new_score
            ∧ updated_at r = now
  else rate_movie db uid mid new_score now = (Raised, db).
Proof.
  unfold rate_movie. destruct (sqlite_int uid && sqlite_int mid); [|done].
  destruct (List.find _ (ratings db)) as [existing|] eqn:Hfind; simpl.
  - eexists. split_and!; try done. simpl.
    by apply find_Some_elem in Hfind as [_ ?%rating_entry_key].
  - by eexists.
Qed.

(** X21. [rate_movie] raises, and leaves the tables as they are,
    when one of the two ids is outside the 64 bits of SQLite.
    Otherwise it returns the row of the pair, and after it the
    rating of the pair is the score clamped between 1 and 5; the
    rating of every other pair of user and movie, and the other
    tables, are unchanged. *)
Theorem rate_movie_get_user_rating db uid mid new_score now :
  match rate_movie db uid mid new_score now with
  | (Returned r, db') =>
      sqlite_int uid && sqlite_int mid = true
      ∧ rating_key r = (uid, mid)
      ∧ score r = clamp_score new_score
      ∧ get_user_rating db' uid mid = Some (clamp_score new_score)
      ∧ (1 <= clamp_score new_score <= 5)%Q
      ∧ (∀ uid' mid',
           (uid', mid') = (uid, mid)
           ∨ get_user_rating db' uid' mid' = get_user_rating db uid' mid')
      ∧ users db' = users db ∧ watchlist db' = watchlist db
      ∧ user_views db' = user_views db
  | (Raised, db') =>
      sqlite_int uid && sqlite_int mid = false ∧ db' = db
  end.
Proof.
  pose proof (rate_movie_outcome db uid mid new_score now) as Hout.
  pose proof (get_user_rating_rate_movie db uid mid new_score now) as Hget.
  assert (sqlite_int uid && sqlite_int mid = true →
          users (rate_movie db uid mid new_score now).2 = users db
          ∧ watchlist (rate_movie db uid mid new_score now).2 = watchlist db
          ∧ user_views (rate_movie db uid mid new_score now).2
            = user_views db) as Hrest.
  { intros Hrange. unfold rate_movie. rewrite Hrange.
    by destruct (List.find _ _). }
  destruct (sqlite_int uid && sqlite_int mid) eqn:Hrange.
  - destruct Hout as (r & Hr & Hkey & Hscore & _).
    destruct (rate_movie db uid mid new_score now) as [[r'|] db'];
      simpl in *; [|done].
    injection Hr as ->.
    destruct Hrest as (? & ? & ?); [done|].
    split_and!; try done.
    + rewrite Hget by done. by rewrite decide_True.
    + apply clamp_score_range.
    + apply clamp_score_range.
    + intros uid' mid'. rewrite Hget by done.
      destruct (decide ((uid', mid') = (uid, mid))); [by left | by right].
  - by rewrite Hout.
Qed.

(** ** What every reachable state of the database satisfies *)

Lemma update_first_fmap {A K} (p : A → bool) (f : A → A) (key : A → K)
    (l : list A) :
  (∀ x, key (f x) = key x) → key <$> update_first p f l = key <$> l.
Proof.
  intros Hf. induction l as [|x l IH]; [done|]. simpl.
  destruct (p x); simpl; [by rewrite Hf | f_equal; exact IH].
Qed.

Lemma update_first_Forall {A} (p : A → bool) (f : A → A) (P : A → Prop)
    (l : list A) :
  (∀ x, P (f x)) → Forall P l → Forall P (update_first p f l).
Proof.
  intros Hf. induction 1 as [|x l Hx Hl IH]; simpl; [constructor|].
  destruct (p x); constructor; auto.
Qed.

Lemma delete_first_sublist {A} (p : A → bool) (l : list A) :
  delete_first p l `sublist_of` l.
Proof.
  induction l as [|x l IH]; simpl; [constructor|].
  destruct (p x); [by apply sublist_cons | by apply sublist_skip].
Qed.

Lemma NoDup_fmap_snoc {A K} (key : A → K) (l : list A) (x : A) :
  NoDup (key <$> l) → (∀ y, y ∈ l → key y ≠ key x) →
  NoDup (key <$> l ++ [x]).
Proof.
  intros Hnd Hx. rewrite fmap_app. apply NoDup_app. split_and!; [done| |].
  - intros k (y & -> & Hy)%list_elem_of_fmap Hk.
    apply list_elem_of_singleton in Hk. by apply (Hx y).
  - apply NoDup_singleton.
Qed.

Lemma foldr_max_ge (l : list Z) x : x ∈ l → (x ≤ foldr Z.max 0 l)%Z.
Proof.
  induction l as [|y l IH]; [by intros ?%elem_of_nil|].
  intros [-> | Hx]%elem_of_cons; simpl; [lia|]. specialize (IH Hx). lia.
Qed.

Lemma foldr_max_nonneg (l : list Z) : (0 ≤ foldr Z.max 0 l)%Z.
Proof. induction l; simpl; lia. Qed.

Lemma db_ok_empty : db_ok empty_database.
Proof. split; simpl; constructor. Qed.

Lemma db_ok_step sha256_hex db db' :
  db_ok db → db_step sha256_hex db db' → db_ok db'.
Proof.
  intros [Hnames Hmails Hids Hpos Hwatch Hkeys Hscores] Hstep.
  destruct Hstep as [name mail password token | uid mid now | uid mid
                    | uid mid new_score now | uid mid now].
  - unfold create_user.
    destruct (List.find _ (users db)) as [u|] eqn:Hfind; [by split|].
    pose proof (proj1 (find_None_elem _ _) Hfind) as Hnone.
    split; simpl; try done.
    + apply NoDup_fmap_snoc; [done|]. intros u Hu. simpl.
      specialize (Hnone u Hu). apply orb_false_iff in Hnone as [Hn _].
      by apply String.eqb_neq in Hn.
    + apply NoDup_fmap_snoc; [done|]. intros u Hu. simpl.
      specialize (Hnone u Hu). apply orb_false_iff in Hnone as [_ Hm].
      by apply String.eqb_neq in Hm.
    + apply NoDup_fmap_snoc; [done|]. intros u Hu. simpl.
      pose proof (foldr_max_ge (user_id <$> users db) (user_id u)
                    (list_elem_of_fmap_2 _ _ _ Hu)).
      unfold next_user_id. lia.
    + apply Forall_app. split; [done|]. repeat constructor. simpl.
      pose proof (foldr_max_nonneg (user_id <$> users db)).
      unfold next_user_id. lia.
  - unfold add_to_watchlist.
    destruct (sqlite_int uid && sqlite_int mid); [|by split].
    destruct (List.find _ (watchlist db)) as [e|] eqn:Hfind; [by split|].
    pose proof (proj1 (find_None_elem _ _) Hfind) as Hnone.
    split; simpl; try done.
    apply NoDup_fmap_snoc; [done|]. intros e He Hk.
    specialize (Hnone e He).
    change (watchlist_key e = (uid, mid)) in Hk.
    apply watchlist_entry_key in Hk. congruence.
  - unfold remove_from_watchlist.
    destruct (sqlite_int uid && sqlite_int mid); [|by split].
    destruct (List.find _ (watchlist db)) as [e|] eqn:Hfind; [|by split].
    split; simpl; try done.
    eapply sublist_NoDup; [exact Hwatch|].
    apply fmap_sublist, delete_first_sublist.
  - unfold rate_movie.
    destruct (sqlite_int uid && sqlite_int mid); [|by split].
    destruct (List.find _ (ratings db)) as [r|] eqn:Hfind; split; simpl;
      try done.
    + by rewrite update_first_fmap.
    + apply update_first_Forall; [|done]. intros x. simpl.
      apply clamp_score_range.
    + pose proof (proj1 (find_None_elem _ _) Hfind) as Hnone.
      apply NoDup_fmap_snoc; [done|]. intros r Hr Hk.
      specialize (Hnone r Hr). change (rating_key r = (uid, mid)) in Hk.
      apply rating_entry_key in Hk. congruence.
    + apply Forall_app. split; [done|]. repeat constructor; simpl;
        apply clamp_score_range.
  - by split.
Qed.

Lemma reachable_ok sha256_hex db : reachable sha256_hex db → db_ok db.
Proof.
  unfold reachable. intros H.
  eapply (rtc_ind_r (λ db, db_ok db)); [apply db_ok_empty | | exact H].
  intros y z _ Hstep IH. by eapply db_ok_step.
Qed.

Lemma NoDup_fmap_elem_inj {A K} (key : A → K) (l : list A) x y :
  NoDup (key <$> l) → x ∈ l → y ∈ l → key x = key y → x = y.
Proof.
  intros Hnd [i Hi]%list_elem_of_lookup [j Hj]%list_elem_of_lookup Hk.
  assert (i = j) as ->; [|congruence].
  eapply NoDup_lookup; [exact Hnd | |].
  - by rewrite list_lookup_fmap, Hi.
  - rewrite list_lookup_fmap, Hj. simpl. by rewrite Hk.
Qed.

Lemma dict_setitem_fresh {K V} `{EqDecision K} (items : list (K * V)) k v :
  k ∉ items.*1 → dict_setitem items k v = items ++ [(k, v)].
Proof.
  induction items as [|[k' v'] items IH]; intros Hk; [done|]. simpl.
  rewrite decide_False.
  - f_equal. apply IH. intros Hin. apply Hk. by right.
  - intros ->. apply Hk. left.
Qed.

Lemma foldl_dict_setitem_fresh {A K V} `{EqDecision K} (key : A → K)
    (val : A → V) (rows : list A) (acc : list (K * V)) :
  NoDup (acc.*1 ++ (key <$> rows)) →
  foldl (λ items r, dict_setitem items (key r) (val r)) acc rows
  = acc ++ ((λ r, (key r, val r)) <$> rows).
Proof.
  revert acc. induction rows as [|r rows IH]; intros acc Hnd; simpl.
  { by rewrite app_nil_r. }
  apply NoDup_app in Hnd as (Hacc & Hdisj & Hrows).
  apply NoDup_cons in Hrows as [Hr Hrows].
  rewrite dict_setitem_fresh by (intros Hin; apply (Hdisj _ Hin); left).
  rewrite IH.
  - by rewrite <- app_assoc.
  - rewrite fmap_app. simpl. rewrite <- app_assoc. simpl.
    apply NoDup_app. split_and!; [done| |by constructor].
    intros k Hk [-> | Hin]%elem_of_cons.
    + apply (Hdisj _ Hk). left.
    + apply (Hdisj _ Hk). by right.
Qed.

Lemma List_filter_elem_of {A} (f : A → bool) (l : list A) x :
  x ∈ List.filter f l ↔ x ∈ l ∧ f x = true.
Proof. by rewrite !list_elem_of_In, filter_In. Qed.

Lemma NoDup_fmap_filter_user {A} (user movie : A → Z) (uid : Z) (l : list A) :
  NoDup ((λ r, (user r, movie r)) <$> l) →
  NoDup (movie <$> List.filter (λ r, (user r =? uid)%Z) l).
Proof.
  induction l as [|x l IH]; intros Hnd; simpl; [constructor|].
  apply NoDup_cons in Hnd as [Hx Hnd].
  destruct (Z.eqb_spec (user x) uid) as [Hu | Hu]; [|by apply IH].
  simpl. constructor; [|by apply IH].
  intros (y & Hm & [Hy Huy]%List_filter_elem_of)%list_elem_of_fmap.
  apply Hx. apply list_elem_of_fmap. exists y. split; [|done].
  apply Z.eqb_eq in Huy. congruence.
Qed.

(** In a reachable state the dict of a user's ratings is the list of
    the user's rows. *)
Lemma get_user_ratings_rows db uid :
  db_ok db →
  get_user_ratings db uid
  = (λ r, (rating_movie_id r, score r))
      <$> List.filter (λ r, (rating_user_id r =? uid)%Z) (ratings db).
Proof.
  intros Hok. unfold get_user_ratings.
  rewrite foldl_dict_setitem_fresh; [done|]. simpl.
  apply (NoDup_fmap_filter_user rating_user_id rating_movie_id). apply Hok.
Qed.

(** X22. In every reachable state of the database, the dict
    [get_user_ratings] returns has one entry per movie, every score
    in it lies between 1 and 5, and it maps a movie to a score
    exactly when [get_user_rating] returns that score. *)
Theorem get_user_ratings_reachable sha256_hex db uid :
  reachable sha256_hex db →
  NoDup (get_user_ratings db uid).*1
  ∧ Forall (λ p, 1 <= p.2 <= 5)%Q (get_user_ratings db uid)
  ∧ ∀ mid s, (mid, s) ∈ get_user_ratings db uid
             ↔ get_user_rating db uid mid = Some s.
Proof.
  intros Hok%reachable_ok. rewrite get_user_ratings_rows by done.
  split_and!.
  - rewrite <- list_fmap_compose.
    apply (NoDup_fmap_filter_user rating_user_id rating_movie_id), Hok.
  - apply Forall_fmap, Forall_forall.
    intros r [Hr _]%List_filter_elem_of. simpl.
    pose proof (ok_scores db Hok) as Hs. rewrite Forall_forall in Hs.
    by apply Hs.
  - intros mid s. unfold get_user_rating. split.
    + intros (r & [= -> ->] & [Hr Hu]%List_filter_elem_of)%list_elem_of_fmap.
      apply Z.eqb_eq in Hu.
      destruct (List.find _ (ratings db)) as [r'|] eqn:Hfind.
      * apply find_Some_elem in Hfind as [Hr' Hk%rating_entry_key].
        simpl. do 2 f_equal.
        apply (NoDup_fmap_elem_inj rating_key (ratings db));
          [apply Hok | done | done |].
        unfold rating_key in *. congruence.
      * pose proof (proj1 (find_None_elem _ _) Hfind r Hr) as Hnone.
        assert (rating_entry uid (rating_movie_id r) r = true); [|congruence].
        apply rating_entry_key. unfold rating_key. by rewrite Hu.
    + destruct (List.find _ (ratings db)) as [r'|] eqn:Hfind; [|done].
      simpl. intros [= <-].
      apply find_Some_elem in Hfind as [Hr' [= Hu Hm]%rating_entry_key].
      apply list_elem_of_fmap. exists r'. split; [by rewrite Hm|].
      apply List_filter_elem_of. split; [done|]. by apply Z.eqb_eq.
Qed.

Lemma get_user_ratings_reachable_witness :
  NoDup (get_user_ratings demo_database 1).*1
  ∧ Forall (λ p, 1 <= p.2 <= 5)%Q (get_user_ratings demo_database 1)
  ∧ ∀ mid s, (mid, s) ∈ get_user_ratings demo_database 1
             ↔ get_user_rating demo_database 1 mid = Some s.
Proof.
  apply (get_user_ratings_reachable demo_sha256 demo_database 1).
  unfold reachable, demo_database.
  eapply rtc_l; [apply (step_create_user _ _ "ann" "ann@example.org"
                          "secret" "salt")|].
  eapply rtc_l; [apply (step_add_to_watchlist _ _ 1 20 100)|].
  eapply rtc_l; [apply (step_track_view _ _ 1 20 101)|].
  eapply rtc_l; [apply (step_rate_movie _ _ 1 20 (9 # 2) 102)|].
  apply rtc_refl.
Defined.

Lemma watchlist_entry_decide uid mid e :
  watchlist_entry uid mid e = bool_decide (watchlist_key e = (uid, mid)).
Proof.
  destruct (watchlist_entry uid mid e) eqn:H.
  - symmetry. by apply bool_decide_eq_true, watchlist_entry_key.
  - symmetry. apply bool_decide_eq_false. intros Hk%watchlist_entry_key.
    congruence.
Qed.

Lemma is_in_watchlist_spec db uid mid :
  is_in_watchlist db uid mid = true
  ↔ ∃ e, e ∈ watchlist db ∧ watchlist_key e = (uid, mid).
Proof.
  unfold is_in_watchlist. rewrite bool_decide_eq_true. split.
  - intros [e [He Hk%watchlist_entry_key]%find_Some_elem]. by exists e.
  - intros (e & He & Hk%watchlist_entry_key).
    destruct (List.find _ (watchlist db)) as [e'|] eqn:Hfind; [by eexists|].
    pose proof (proj1 (find_None_elem _ _) Hfind e He). congruence.
Qed.

(** Once the first row with a key is deleted, no row with that key
    is left when keys are unique; rows with other keys stay. *)
Lemma delete_first_elem_of {A K} `{EqDecision K} (key : A → K) (k : K)
    (l : list A) x :
  NoDup (key <$> l) →
  x ∈ delete_first (λ y, bool_decide (key y = k)) l ↔ x ∈ l ∧ key x ≠ k.
Proof.
  induction l as [|y l IH]; intros Hnd; simpl.
  { split; [by intros ?%elem_of_nil | by intros [?%elem_of_nil _]]. }
  apply NoDup_cons in Hnd as [Hy Hnd].
  destruct (decide (key y = k)) as [Hk | Hk].
  - rewrite (bool_decide_eq_true_2 _ Hk). split.
    + intros Hx. split; [by right|]. intros Hxk. apply Hy.
      apply list_elem_of_fmap. exists x. split; [congruence | done].
    + intros [[-> | Hx]%elem_of_cons Hxk]; [done | done].
  - rewrite (bool_decide_eq_false_2 _ Hk). rewrite !elem_of_cons, IH by done.
    split.
    + intros [-> | [Hx Hxk]]; [by split; [left|] | by split; [right|]].
    + intros [[-> | Hx] Hxk]; [by left | by right].
Qed.

Lemma delete_first_ext {A} (p q : A → bool) (l : list A) :
  (∀ x, p x = q x) → delete_first p l = delete_first q l.
Proof.
  intros H. induction l as [|x l IH]; [done|]. simpl. by rewrite H, IH.
Qed.

Lemma bool_eq_iff (a b : bool) : (a = true ↔ b = true) → a = b.
Proof.
  destruct a, b; intros [H1 H2]; try done.
  - symmetry. by apply H1.
  - by apply H2.
Qed.

(** X23. In every reachable state and for ids that SQLite can
    hold, [add_to_watchlist] answers whether the movie was absent and
    leaves it present, [remove_from_watchlist] answers whether it
    was present and leaves it absent, and neither changes the
    membership of any other pair of user and movie. With an id
    outside the 64 bits both raise and leave the tables as they
    are. *)
Theorem watchlist_round_trip sha256_hex db uid mid now :
  reachable sha256_hex db →
  if sqlite_int uid && sqlite_int mid then
    (add_to_watchlist db uid mid now).1
    = Returned (negb (is_in_watchlist db uid mid))
    ∧ is_in_watchlist (add_to_watchlist db uid mid now).2 uid mid = true
    ∧ (remove_from_watchlist db uid mid).1
      = Returned (is_in_watchlist db uid mid)
    ∧ is_in_watchlist (remove_from_watchlist db uid mid).2 uid mid = false
    ∧ ∀ uid' mid',
        (uid', mid') = (uid, mid)
        ∨ (is_in_watchlist (add_to_watchlist db uid mid now).2 uid' mid'
           = is_in_watchlist db uid' mid'
           ∧ is_in_watchlist (remove_from_watchlist db uid mid).2 uid' mid'
             = is_in_watchlist db uid' mid')
  else
    add_to_watchlist db uid mid now = (Raised, db)
    ∧ remove_from_watchlist db uid mid = (Raised, db).
Proof.
  intros Hok%reachable_ok.
  destruct (sqlite_int uid && sqlite_int mid) eqn:Hrange.
  2: { unfold add_to_watchlist, remove_from_watchlist. by rewrite Hrange. }
  assert (∀ x, x ∈ watchlist (remove_from_watchlist db uid mid).2
               ↔ x ∈ watchlist db ∧ watchlist_key x ≠ (uid, mid)) as Hrem.
  { intros x. unfold remove_from_watchlist. rewrite Hrange.
    destruct (List.find _ (watchlist db)) as [e|] eqn:Hfind; simpl.
    - rewrite (delete_first_ext _ _ _ (watchlist_entry_decide uid mid)).
      apply delete_first_elem_of, Hok.
    - split; [|by intros [? _]]. intros Hx. split; [done|].
      intros Hk%watchlist_entry_key.
      pose proof (proj1 (find_None_elem _ _) Hfind x Hx). congruence. }
  assert (∀ x, x ∈ watchlist (add_to_watchlist db uid mid now).2
               → x ∈ watchlist db ∨ watchlist_key x = (uid, mid)) as Hadd.
  { intros x. unfold add_to_watchlist. rewrite Hrange.
    destruct (List.find _ (watchlist db)); simpl; [by left|].
    intros [Hx | ->%list_elem_of_singleton]%elem_of_app; [by left | by right]. }
  assert (∀ x, x ∈ watchlist db
               → x ∈ watchlist (add_to_watchlist db uid mid now).2) as Hadd'.
  { intros x Hx. unfold add_to_watchlist. rewrite Hrange.
    destruct (List.find _ (watchlist db)); simpl; [done|].
    apply elem_of_app. by left. }
  split_and!.
  - unfold add_to_watchlist, is_in_watchlist. rewrite Hrange.
    by destruct (List.find _ (watchlist db)).
  - apply is_in_watchlist_spec. unfold add_to_watchlist. rewrite Hrange.
    destruct (List.find _ (watchlist db)) as [e|] eqn:Hfind; simpl.
    + apply find_Some_elem in Hfind as [He Hk%watchlist_entry_key].
      by exists e.
    + eexists. split; [apply elem_of_app; right; left | done].
  - unfold remove_from_watchlist, is_in_watchlist. rewrite Hrange.
    by destruct (List.find _ (watchlist db)).
  - apply not_true_is_false. intros (e & He & Hk)%is_in_watchlist_spec.
    apply Hrem in He as [_ He]. done.
  - intros uid' mid'.
    destruct (decide ((uid', mid') = (uid, mid))) as [Heq | Hne]; [by left|].
    right. split; apply bool_eq_iff; rewrite !is_in_watchlist_spec.
    + split; intros (e & He & Hk); exists e; (split; [|done]).
      * apply Hadd in He as [He | He]; [done | congruence].
      * by apply Hadd'.
    + split; intros (e & He & Hk); exists e; (split; [|done]).
      * by apply Hrem in He as [He _].
      * apply Hrem. split; [done | congruence].
Qed.

Lemma watchlist_round_trip_witness :
  (add_to_watchlist demo_database 1 30 103).1
  = Returned (negb (is_in_watchlist demo_database 1 30))
  ∧ is_in_watchlist (add_to_watchlist demo_database 1 30 103).2 1 30 = true
  ∧ (remove_from_watchlist demo_database 1 30).1
    = Returned (is_in_watchlist demo_database 1 30)
  ∧ is_in_watchlist (remove_from_watchlist demo_database 1 30).2 1 30 = false
  ∧ ∀ uid' mid',
      (uid', mid') = (1%Z, 30%Z)
      ∨ (is_in_watchlist (add_to_watchlist demo_database 1 30 103).2 uid' mid'
         = is_in_watchlist demo_database uid' mid'
         ∧ is_in_watchlist (remove_from_watchlist demo_database 1 30).2
                           uid' mid'
           = is_in_watchlist demo_database uid' mid').
Proof.
  apply (watchlist_round_trip demo_sha256 demo_database 1 30 103).
  unfold reachable, demo_database.
  eapply rtc_l; [apply (step_create_user _ _ "ann" "ann@example.org"
                          "secret" "salt")|].
  eapply rtc_l; [apply (step_add_to_watchlist _ _ 1 20 100)|].
  eapply rtc_l; [apply (step_track_view _ _ 1 20 101)|].
  eapply rtc_l; [apply (step_rate_movie _ _ 1 20 (9 # 2) 102)|].
  apply rtc_refl.
Defined.

(** ** Accounts *)

(** X24. [create_user] either finds the username or the email
    taken and leaves the database unchanged, or appends a user with
    that username and email and an id no other user has, whom
    [authenticate_user] then accepts with the same password. *)
Theorem create_user_outcome sha256_hex db name mail password token :
  match create_user sha256_hex db name mail password token with
  | ((Some user, None), db') =>
      (name ∉ username <$> users db)
      ∧ (mail ∉ email <$> users db)
      ∧ users db' = users db ++ [user]
      ∧ username user = name ∧ email user = mail
      ∧ (user_id user ∉ user_id <$> users db)
      ∧ authenticate_user sha256_hex db' name password = Some user
  | ((None, Some _), db') =>
      ((name ∈ username <$> users db) ∨ (mail ∈ email <$> users db))
      ∧ db' = db
  | _ => False
  end.
Proof.
  unfold create_user.
  destruct (List.find _ (users db)) as [u|] eqn:Hfind.
  - apply find_Some_elem in Hfind as [Hu Hmatch]. split; [|done].
    apply orb_true_iff in Hmatch as [Hn%String.eqb_eq | Hm%String.eqb_eq].
    + left. rewrite <- Hn. by apply list_elem_of_fmap_2.
    + right. rewrite <- Hm. by apply list_elem_of_fmap_2.
  - pose proof (proj1 (find_None_elem _ _) Hfind) as Hnone. simpl.
    split_and!; try done.
    + intros (u & -> & Hu)%list_elem_of_fmap.
      specialize (Hnone u Hu). apply orb_false_iff in Hnone as [Hn _].
      by rewrite String.eqb_refl in Hn.
    + intros (u & -> & Hu)%list_elem_of_fmap.
      specialize (Hnone u Hu). apply orb_false_iff in Hnone as [_ Hm].
      by rewrite String.eqb_refl in Hm.
    + intros Hin. apply foldr_max_ge in Hin. unfold next_user_id in Hin. lia.
    + unfold authenticate_user. simpl. rewrite find_app.
      assert (List.find (λ u, String.eqb (username u) name) (users db) = None)
        as ->.
      { apply find_None_elem. intros u Hu. specialize (Hnone u Hu).
        by apply orb_false_iff in Hnone as [Hn _]. }
      simpl. rewrite String.eqb_refl. unfold check_password. simpl.
      by rewrite String.eqb_refl.
Qed.

(** X25. In every reachable state no two users share a username,
    an email or an id, every id is at least 1 (so [if g.user_id] is
    true for every user), and [get_user_by_id] finds each user. *)
Theorem users_reachable sha256_hex db :
  reachable sha256_hex db →
  NoDup (username <$> users db)
  ∧ NoDup (email <$> users db)
  ∧ NoDup (user_id <$> users db)
  ∧ Forall (λ u, (1 ≤ user_id u)%Z) (users db)
  ∧ ∀ u, u ∈ users db → get_user_by_id db (user_id u) = Some u.
Proof.
  intros Hok%reachable_ok. split_and!; try apply Hok.
  - eapply Forall_impl; [apply Hok|]. simpl. intros. lia.
  - intros u Hu. unfold get_user_by_id.
    destruct (List.find _ (users db)) as [u'|] eqn:Hfind.
    + apply find_Some_elem in Hfind as [Hu' Hid%Z.eqb_eq]. f_equal.
      by apply (NoDup_fmap_elem_inj user_id (users db)); [apply Hok|..].
    + pose proof (proj1 (find_None_elem _ _) Hfind u Hu) as Hnone.
      simpl in Hnone. by rewrite Z.eqb_refl in Hnone.
Qed.

Lemma users_reachable_witness :
  NoDup (username <$> users demo_database)
  ∧ NoDup (email <$> users demo_database)
  ∧ NoDup (user_id <$> users demo_database)
  ∧ Forall (λ u, (1 ≤ user_id u)%Z) (users demo_database)
  ∧ ∀ u, u ∈ users demo_database
         → get_user_by_id demo_database (user_id u) = Some u.
Proof.
  apply (users_reachable demo_sha256 demo_database).
  unfold reachable, demo_database.
  eapply rtc_l; [apply (step_create_user _ _ "ann" "ann@example.org"
                          "secret" "salt")|].
  eapply rtc_l; [apply (step_add_to_watchlist _ _ 1 20 100)|].
  eapply rtc_l; [apply (step_track_view _ _ 1 20 101)|].
  eapply rtc_l; [apply (step_rate_movie _ _ 1 20 (9 # 2) 102)|].
  apply rtc_refl.
Defined.

(** ** Recent views *)

Lemma recent_loop_spec limit views (seen : gset Z) result :
  length result < limit → NoDup result → seen = list_to_set result →
  NoDup (recent_loop limit views seen result)
  ∧ length (recent_loop limit views seen result) ≤ limit
  ∧ ∀ mid, mid ∈ recent_loop limit views seen result
           → mid ∈ result ∨ mid ∈ view_movie_id <$> views.
Proof.
  revert seen result. induction views as [|v views IH];
    intros seen result Hlen Hnd Hseen; simpl.
  { split_and!; [done | lia | by left]. }
  destruct (decide (view_movie_id v ∈ seen)) as [Hin | Hnot].
  - rewrite bool_decide_eq_false_2 by (by intros ?).
    destruct (Nat.leb_spec limit (length result)) as [Hle | Hlt]; [lia|].
    destruct (IH seen result Hlen Hnd Hseen) as (H1 & H2 & H3).
    split_and!; [done | done |].
    intros mid [?|?]%H3; [by left | right; by right].
  - rewrite bool_decide_eq_true_2 by done.
    assert (NoDup (result ++ [view_movie_id v])) as Hnd'.
    { apply NoDup_app. split_and!; [done| |apply NoDup_singleton].
      intros x Hx ->%list_elem_of_singleton. apply Hnot.
      rewrite Hseen. by apply elem_of_list_to_set. }
    destruct (Nat.leb_spec limit (length (result ++ [view_movie_id v])))
      as [Hle | Hlt].
    + rewrite length_app in *. simpl in *. split_and!; [done | lia |].
      intros mid [? | ->%list_elem_of_singleton]%elem_of_app;
        [by left | right; left].
    + destruct (IH (seen ∪ {[view_movie_id v]}) (result ++ [view_movie_id v]))
        as (H1 & H2 & H3); [done | done | |].
      { rewrite Hseen, list_to_set_app_L. simpl. by rewrite union_empty_r_L. }
      split_and!; [done | done |].
      intros mid [[? | ->%list_elem_of_singleton]%elem_of_app|?]%H3;
        [by left | right; left | right; by right].
Qed.

(** X26. [get_recent_views] returns pairwise distinct movie ids,
    at most [limit] of them, each of a view of that user. *)
Theorem get_recent_views_distinct db uid limit :
  NoDup (get_recent_views db uid limit)
  ∧ length (get_recent_views db uid limit) ≤ limit
  ∧ Forall (λ mid, ∃ v, v ∈ user_views db ∧ view_user_id v = uid
                        ∧ view_movie_id v = mid)
           (get_recent_views db uid limit).
Proof.
  unfold get_recent_views. destruct limit as [|limit].
  { simpl. split_and!; [constructor | done | constructor]. }
  destruct (recent_loop_spec (S limit)
              (take (S limit * 2)
                 (sorted Z.ltb viewed_at true
                    (List.filter (λ v, (view_user_id v =? uid)%Z)
                                 (user_views db))))
              ∅ []) as (H1 & H2 & H3); [simpl; lia | constructor | done |].
  split_and!; [done | done |]. apply Forall_forall. intros mid Hmid.
  destruct (H3 mid Hmid) as [[]%elem_of_nil | (v & -> & Hv)%list_elem_of_fmap].
  eapply elem_of_sublist in Hv; [|apply sublist_take].
  rewrite sorted_perm in Hv.
  apply List_filter_elem_of in Hv as [Hv Hu%Z.eqb_eq]. by exists v.
Qed.

(** ** The routes *)

Section RouteFacts.
Variable get_poster_url : string → Z → string.



End RouteFacts.






Lemma clamp_score_fixed s : (clamp_score s == s)%Q ↔ (1 <= s <= 5)%Q.
Proof.
  split.
  - intros <-. apply clamp_score_range.
  - intros [H1 H5]. unfold clamp_score.
    destruct (Qltb s 5) eqn:Hs5.
    + destruct (Qltb 1 s) eqn:Hs1; [reflexivity|].
      apply Qltb_ge in Hs1. by apply Qle_antisym.
    + apply Qltb_ge in Hs5.
      destruct (Qltb 1 5) eqn:H15; [|done]. by apply Qle_antisym.
Qed.

(** X30. The rating route answers 400 without a score. With a
    number it answers 500, and stores nothing, when [float] rejects
    the number or SQLite cannot hold one of the ids. Otherwise it
    echoes the float of the number sent, while the stored rating is
    that float clamped between 1 and 5: the two agree exactly when
    the float lies in that range. *)
Theorem rate_movie_route_echo float_of_int db uid mid sent now :
  rate_movie_route float_of_int db uid mid None now = (Failure 400, db)
  ∧ match py_float float_of_int sent with
    | Some x =>
        if sqlite_int uid && sqlite_int mid then
          ∃ db',
            rate_movie_route float_of_int db uid mid (Some sent) now
            = (Success {| rated_movie_id := mid; rated_score := x |}, db')
            ∧ get_user_rating db' uid mid = Some (clamp_score x)
            ∧ (1 <= clamp_score x <= 5)%Q
            ∧ ((clamp_score x == x)%Q ↔ (1 <= x <= 5)%Q)
        else
          rate_movie_route float_of_int db uid mid (Some sent) now
          = (Failure 500, db)
    | None =>
        rate_movie_route float_of_int db uid mid (Some sent) now
        = (Failure 500, db)
    end.
Proof.
  split; [done|]. unfold rate_movie_route.
  destruct (py_float float_of_int sent) as [x|]; [|done].
  pose proof (rate_movie_outcome db uid mid x now) as Hout.
  pose proof (get_user_rating_rate_movie db uid mid x now uid mid) as Hget.
  destruct (sqlite_int uid && sqlite_int mid).
  - destruct Hout as (r & Hr & _).
    destruct (rate_movie db uid mid x now) as [[r'|] db']; simpl in *; [|done].
    exists db'. split_and!; [done | | | |].
    + rewrite Hget by done. by rewrite decide_True.
    + apply clamp_score_range.
    + apply clamp_score_range.
    + apply clamp_score_fixed.
  - by rewrite Hout.
Qed.
